(** * Pancake: seed index, mapper and SeedDB index cache

    A shallow embedding of the index-and-map core of the overlapper:
    - [src/seeddb/SeedDBIndexCache.cpp]  (text index: two loaders, emitter),
    - [src/overlaphifi/SeedIndex.cpp]    (hash over the sorted seed array),
    - [src/overlaphifi/Mapper.cpp]       (hit sort, chaining, alignment).

    Conventions.  Machine integers are [Z]; where the C++ code narrows or
    packs them the wrap-around is written with [wrap32], [Z.land], [Z.lor]
    and [Z.shiftl].  A [std::string] is a [list ascii].  A C++ exception is
    the [Throw] branch of [Result]. *)

From Stdlib Require Import ZArith Lia List Ascii String Bool.
From Stdlib Require Import Sorting.Permutation Sorting.Sorted.
From Stdlib Require Floats.SpecFloat.
From stdpp Require Import base option list gmap sorting.

Local Open Scope Z_scope.

(* ===================================================================== *)
(** ** Exceptions *)
(* ===================================================================== *)

(** [std::string]. *)
Definition Str : Type := list ascii.

(** A string literal as a [std::string]. *)
Definition lit (x : string) : Str := list_ascii_of_string x.

(** Every [throw std::runtime_error(...)] of the three files, one
    constructor per message, plus the two exceptions of [std::stoi]. *)
Inductive Error : Type :=
| ParseError (line : Str)          (* "Problem parsing line: '...'." *)
| UnknownToken (token : ascii)     (* "Unknown token found when parsing the index: " *)
| InvalidSeqId (line : Str) (ordinal : Z)
                                   (* "Invalid seqId for line: ..." *)
| EmptyIndex                       (* "There are no sequences in the input index file: " *)
| BadParameter (param : Str)       (* "Parameter is not of form 'name=value'." *)
| StoiInvalidArgument              (* std::invalid_argument from std::stoi *)
| StoiOutOfRange                   (* std::out_of_range from std::stoi *)
| IndexOutOfRange                  (* "Invalid seqId. seqId = ..." and siblings *)
| InvalidArgument                  (* "Invalid percentileCutoff value, ..." *)
| NoValidKeys                      (* "Invalid number of valid keys!" *)
| InvalidRange                     (* "Invalid seqStart or seqEnd in a call to ..." *)
| InvariantViolation               (* "The targetId of the first and last seed does not match" *)
| OutOfBoundsRead                  (* not an exception: [operator[]] past the end of a vector *)
| UndefinedConversion              (* not an exception: a double outside the range of int64_t *)
| LengthError.                     (* std::length_error from vector::reserve *)

Inductive Result (A : Type) : Type :=
| Ok (a : A)
| Throw (e : Error).
Arguments Ok {A} a.
Arguments Throw {A} e.

(** The value of a computation that did not throw. *)
Definition option_of {A : Type} (r : Result A) : option A :=
  match r with
  | Ok a => Some a
  | Throw _ => None
  end.

#[export] Instance Result_ret : MRet Result := fun A a => Ok a.
#[export] Instance Result_bind : MBind Result := fun A B f m =>
  match m with
  | Ok a => f a
  | Throw e => Throw e
  end.

(* ===================================================================== *)
(** ** Fixed-width integers *)
(* ===================================================================== *)

(** Two's-complement reading of the low [w] bits. *)
Definition wrap (w : Z) (x : Z) : Z :=
  (x + 2 ^ (w - 1)) mod 2 ^ w - 2 ^ (w - 1).

Definition wrap32 : Z -> Z := wrap 32.
Definition wrap64 : Z -> Z := wrap 64.
Definition wrap128 : Z -> Z := wrap 128.

Definition in_int32 (x : Z) : Prop := - 2 ^ 31 <= x < 2 ^ 31.
Definition in_int64 (x : Z) : Prop := - 2 ^ 63 <= x < 2 ^ 63.

Definition INT32_MIN : Z := - 2 ^ 31.
Definition INT32_MAX : Z := 2 ^ 31 - 1.
Definition INT64_MIN : Z := - 2 ^ 63.
Definition INT64_MAX : Z := 2 ^ 63 - 1.

(** [MASK_32bit] (declared in a header that is not among the sources;
    the low 32 bits, as its name and its uses say). *)
Definition MASK_32bit : Z := 2 ^ 32 - 1.

(* ===================================================================== *)
(** ** SeedDB tables ([include/pacbio/seeddb/SeedDBWriter.h]) *)
(* ===================================================================== *)

Record SeedDBFileLine : Type := mkFileLine {
  fl_fileId : Z;          (* int32_t, = 0 *)
  fl_filename : Str;
  fl_numSequences : Z;    (* int32_t, = 0 *)
  fl_numBytes : Z         (* int64_t, = 0 *)
}.

Record SeedDBSeedsLine : Type := mkSeedsLine {
  sl_seqId : Z;           (* int32_t, = 0 *)
  sl_header : Str;
  sl_fileId : Z;          (* int32_t, = 0 *)
  sl_fileOffset : Z;      (* int64_t, = 0 *)
  sl_numBytes : Z;        (* int64_t, = 0 *)
  sl_numBases : Z;        (* int32_t, = 0 *)
  sl_numSeeds : Z         (* int32_t, = 0 *)
}.

Record SeedDBBlockLine : Type := mkBlockLine {
  bl_blockId : Z;         (* int32_t, = 0 *)
  bl_startSeqId : Z;      (* int32_t, = -1 *)
  bl_endSeqId : Z;        (* int32_t, = -1 *)
  bl_numBytes : Z         (* int64_t, = 0 *)
}.

Definition fl_default : SeedDBFileLine := mkFileLine 0 [] 0 0.
Definition sl_default : SeedDBSeedsLine := mkSeedsLine 0 [] 0 0 0 0 0.
Definition bl_default : SeedDBBlockLine := mkBlockLine 0 (-1) (-1) 0.

Definition Span (bl : SeedDBBlockLine) : Z :=
  wrap32 (bl_endSeqId bl - bl_startSeqId bl).

(** [SeedDBParameters]: the five members [ParseSeedDBParams] assigns and
    the emitter prints.  The two switches are the [<0|1>] fields of the
    text format. *)
Record SeedDBParameters : Type := mkParams {
  KmerSize : Z;
  MinimizerWindow : Z;
  UseHPC : bool;
  MaxHPCLen : Z;
  UseRC : bool
}.

Record SeedDBIndexCache : Type := mkCache {
  indexFilename : Str;
  indexParentFolder : Str;
  indexBasename : Str;
  version : Str;
  seedParams : SeedDBParameters;
  fileLines : list SeedDBFileLine;
  seedLines : list SeedDBSeedsLine;
  blockLines : list SeedDBBlockLine
}.

(** [vec[i]] behind a range check [i < 0 || i >= size()]. *)
Definition checked_at {A : Type} (v : list A) (i : Z) : Result A :=
  if (i <? 0) || (Z.of_nat (length v) <=? i) then Throw IndexOutOfRange
  else match v !! Z.to_nat i with
       | Some x => Ok x
       | None => Throw IndexOutOfRange
       end.

Definition GetSeedsLine (c : SeedDBIndexCache) (seqId : Z) : Result SeedDBSeedsLine :=
  checked_at (seedLines c) seqId.

Definition GetBlockLine (c : SeedDBIndexCache) (blockId : Z) : Result SeedDBBlockLine :=
  checked_at (blockLines c) blockId.

Definition GetFileLine (c : SeedDBIndexCache) (fileId : Z) : Result SeedDBFileLine :=
  checked_at (fileLines c) fileId.

(* ===================================================================== *)
(** ** Packed seeds ([pacbio/seeddb/Seed.h]) *)
(* ===================================================================== *)

(** One record of the seed array: a 128-bit word, here the unsigned value
    of its bits. *)
Definition SeedRaw : Type := Z.

Module Seed.

(** The decoded seed, [Seed(raw)]: the members [SeedIndex.cpp] reads. *)
Record t : Type := mk {
  key : Z;       (* uint64_t *)
  seqID : Z;     (* int32_t *)
  pos : Z;       (* int32_t *)
  flag : bool    (* strand *)
}.

Definition IsRev (x : t) : bool := flag x.

End Seed.

(** The codec of [Seed.h] is not among the sources; [SeedIndex.cpp] uses
    its decoders only, so they are the interface.  The one law is the
    layout contract the index is built on: the key is the most significant
    field, so the order of the packed words is key-major. *)
Class SeedCodec : Type := {
  DecodeKey : SeedRaw -> Z;
  DecodeSeqId : SeedRaw -> Z;
  DecodePos : SeedRaw -> Z;
  DecodeIsRev : SeedRaw -> bool;
  DecodeKey_mono : forall a b : SeedRaw, a <= b -> DecodeKey a <= DecodeKey b
}.

(** [Seed(const __int128&)]. *)
Definition Seed_of_raw `{SeedCodec} (raw : SeedRaw) : Seed.t :=
  Seed.mk (DecodeKey raw) (DecodeSeqId raw) (DecodePos raw) (DecodeIsRev raw).

(** Modelled from the spec: [Seed::Encode] and the decoders are in
    [Seed.h], which is missing.  The storage layout of the spec,
    [key | seqId | pos | strand] with the key most significant, "all
    fields truncated to their bit widths": key 64 bits, sequence id 31,
    position 32, strand 1.  The key is what is left of the 128-bit word
    above bit 64. *)
Definition Encode (key seqID pos : Z) (isRev : bool) : SeedRaw :=
  Z.lor (Z.shiftl (Z.land key (2 ^ 64 - 1)) 64)
    (Z.lor (Z.shiftl (Z.land seqID (2 ^ 31 - 1)) 33)
       (Z.lor (Z.shiftl (Z.land pos MASK_32bit) 1)
          (if isRev then 1 else 0))).

Definition PackedDecodeKey (w : SeedRaw) : Z := Z.shiftr w 64.
Definition PackedDecodeSeqId (w : SeedRaw) : Z := Z.land (Z.shiftr w 33) (2 ^ 31 - 1).
Definition PackedDecodePos (w : SeedRaw) : Z := wrap32 (Z.land (Z.shiftr w 1) MASK_32bit).
Definition PackedDecodeIsRev (w : SeedRaw) : bool := Z.testbit w 0.

Lemma PackedDecodeKey_mono (a b : SeedRaw) :
  a <= b -> PackedDecodeKey a <= PackedDecodeKey b.
Proof.
  intros Hab. unfold PackedDecodeKey. rewrite !Z.shiftr_div_pow2 by lia.
  apply Z.div_le_mono; lia.
Qed.

#[export] Instance PackedSeedCodec : SeedCodec := {|
  DecodeKey := PackedDecodeKey;
  DecodeSeqId := PackedDecodeSeqId;
  DecodePos := PackedDecodePos;
  DecodeIsRev := PackedDecodeIsRev;
  DecodeKey_mono := PackedDecodeKey_mono
|}.

(** Modelled from the spec: [kx::radix_sort] ([lib/kxsort], missing):
    "radix-sort the seed array in place by full packed word (unsigned
    integer order)"; the same routine sorts the bucket sizes.  Only the
    result matters here, an ascending rearrangement. *)
Definition radix_sort (v : list Z) : list Z := merge_sort Z.le v.

(* ===================================================================== *)
(** ** Seed index ([src/overlaphifi/SeedIndex.cpp]) *)
(* ===================================================================== *)

(** [SeedHit] ([SeedHit.h], missing): the five members of the aggregate
    initialiser in [CollectHits], in its order. *)
Record SeedHit : Type := mkSeedHit {
  targetId : Z;       (* int32_t *)
  targetRev : bool;
  targetPos : Z;      (* int32_t *)
  flags : Z;          (* int32_t *)
  queryPos : Z        (* int32_t *)
}.

(** [SeedHit::Diagonal]. *)
Definition Diagonal (sh : SeedHit) : Z := wrap32 (targetPos sh - queryPos sh).

(** key -> (start, end), [end] exclusive. *)
Abbreviation SeedHashType := (gmap Z (Z * Z)).

Record SeedIndex : Type := mkSeedIndex {
  seedDBCache_ : SeedDBIndexCache;
  seeds_ : list SeedRaw;
  hash_ : SeedHashType
}.

(** [seeds_.begin() + start, seeds_.begin() + end). *)
Definition slice {A : Type} (v : list A) (start end_ : Z) : list A :=
  take (Z.to_nat (end_ - start)) (drop (Z.to_nat start) v).

Section SeedIndexDefs.
Context `{SeedCodec}.

(** The variables of the loop of [BuildHash_]. *)
Record BuildState : Type := mkBuildState {
  bs_hash : SeedHashType;
  bs_start : Z;     (* int64_t *)
  bs_end : Z;       (* int64_t *)
  bs_prevKey : Z    (* uint64_t *)
}.

(** One iteration of [for (size_t i = 0; i < seeds_.size(); ++i)]. *)
Definition BuildHash_step (st : BuildState) (i : Z) (seed : SeedRaw) : BuildState :=
  let key := DecodeKey seed in
  if key =? bs_prevKey st then
    mkBuildState (bs_hash st) (bs_start st) (bs_end st + 1) key
  else
    mkBuildState (<[bs_prevKey st := (bs_start st, bs_end st)]> (bs_hash st))
                 i (i + 1) key.

Fixpoint BuildHash_loop (st : BuildState) (i : Z) (rest : list SeedRaw) : BuildState :=
  match rest with
  | [] => st
  | seed :: rest' => BuildHash_loop (BuildHash_step st i seed) (i + 1) rest'
  end.

(** [SeedIndex::BuildHash_], on the members (seeds_, hash_). *)
Definition BuildHash_ (seeds : list SeedRaw) (hash : SeedHashType)
  : list SeedRaw * SeedHashType :=
  match seeds with
  | [] => (seeds, hash)                       (* Stop early. *)
  | _ :: _ =>
      let seeds := radix_sort seeds in        (* Sort by key first. *)
      let hash : SeedHashType := ∅ in         (* hash_.clear() *)
      match seeds with
      | [] => (seeds, hash)
      | seed0 :: _ =>
          let st := BuildHash_loop (mkBuildState hash 0 0 (DecodeKey seed0)) 0 seeds in
          if bs_start st <? bs_end st then
            (seeds, <[bs_prevKey st := (bs_start st, bs_end st)]> (bs_hash st))
          else (seeds, bs_hash st)
      end
  end.

(** The constructor: move the seeds in, build the hash. *)
Definition SeedIndex_new (seedDBCache : SeedDBIndexCache) (seeds : list SeedRaw)
  : SeedIndex :=
  let '(seeds, hash) := BuildHash_ seeds ∅ in
  mkSeedIndex seedDBCache seeds hash.

(** [SeedIndex::GetSeeds]: the return value and the output vector. *)
Definition GetSeeds (idx : SeedIndex) (key : Z) : Z * list SeedRaw :=
  match hash_ idx !! key with
  | None => (0, [])
  | Some (start, end_) => (end_ - start, slice (seeds_ idx) start end_)
  end.

(** The body of the inner loop of [CollectHits] for one target seed. *)
Definition CollectHits_target (cache : SeedDBIndexCache) (kmerSize : Z)
    (decodedQuery : Seed.t) (raw : SeedRaw) : Result SeedHit :=
  let decodedTarget := Seed_of_raw raw in
  if negb (eqb (Seed.IsRev decodedQuery) (Seed.IsRev decodedTarget)) then
    sl ← GetSeedsLine cache (Seed.seqID decodedTarget);
    mret (mkSeedHit (Seed.seqID decodedTarget) true
            (wrap32 (sl_numBases sl - wrap32 (Seed.pos decodedTarget + kmerSize)))
            0 (Seed.pos decodedQuery))
  else
    mret (mkSeedHit (Seed.seqID decodedTarget) false (Seed.pos decodedTarget)
            0 (Seed.pos decodedQuery)).

(** [for (int64_t i = start; i < end; ++i)], appending to [hits]. *)
Fixpoint CollectHits_bucket (cache : SeedDBIndexCache) (kmerSize : Z)
    (decodedQuery : Seed.t) (bucket : list SeedRaw) (hits : list SeedHit)
  : Result (list SeedHit) :=
  match bucket with
  | [] => mret hits
  | raw :: bucket' =>
      hit ← CollectHits_target cache kmerSize decodedQuery raw;
      CollectHits_bucket cache kmerSize decodedQuery bucket' (hits ++ [hit])
  end.

(** [for (const auto& querySeed : querySeeds)]. *)
Fixpoint CollectHits_loop (idx : SeedIndex) (kmerSize freqCutoff : Z)
    (querySeeds : list SeedRaw) (hits : list SeedHit) : Result (list SeedHit) :=
  match querySeeds with
  | [] => mret hits
  | querySeed :: querySeeds' =>
      let decodedQuery := Seed_of_raw querySeed in
      match hash_ idx !! Seed.key decodedQuery with
      | Some (start, end_) =>
          (* Skip very frequent seeds. *)
          if (0 <? freqCutoff) && (freqCutoff <? end_ - start) then
            CollectHits_loop idx kmerSize freqCutoff querySeeds' hits
          else
            hits' ← CollectHits_bucket (seedDBCache_ idx) kmerSize decodedQuery
                      (slice (seeds_ idx) start end_) hits;
            CollectHits_loop idx kmerSize freqCutoff querySeeds' hits'
      | None => CollectHits_loop idx kmerSize freqCutoff querySeeds' hits
      end
  end.

(** [SeedIndex::CollectHits]: the output vector and the returned flag. *)
Definition CollectHits (idx : SeedIndex) (querySeeds : list SeedRaw) (freqCutoff : Z)
  : Result (list SeedHit * bool) :=
  let kmerSize := KmerSize (seedParams (seedDBCache_ idx)) in
  hits ← CollectHits_loop idx kmerSize freqCutoff querySeeds [];
  mret (hits, 0 <? Z.of_nat (length hits)).

End SeedIndexDefs.

(* ===================================================================== *)
(** ** IEEE-754 arithmetic of [double] and [float] *)
(* ===================================================================== *)

(** binary64 and binary32 as the specification floats of the standard
    library, rounding to nearest even. *)
Definition double : Type := SpecFloat.spec_float.
Definition float : Type := SpecFloat.spec_float.

Module Double.
Definition prec : Z := 53.
Definition emax : Z := 1024.
Definition of_Z (n : Z) : double := SpecFloat.binary_normalize prec emax n 0 false.
Definition add : double -> double -> double := SpecFloat.SFadd prec emax.
Definition sub : double -> double -> double := SpecFloat.SFsub prec emax.
Definition mul : double -> double -> double := SpecFloat.SFmul prec emax.
Definition div : double -> double -> double := SpecFloat.SFdiv prec emax.
Definition ltb : double -> double -> bool := SpecFloat.SFltb.
End Double.

Module Float.
Definition prec : Z := 24.
Definition emax : Z := 128.
Definition of_Z (n : Z) : float := SpecFloat.binary_normalize prec emax n 0 false.
Definition sub : float -> float -> float := SpecFloat.SFsub prec emax.
Definition mul : float -> float -> float := SpecFloat.SFmul prec emax.
Definition div : float -> float -> float := SpecFloat.SFdiv prec emax.
Definition eqb : float -> float -> bool := SpecFloat.SFeqb.
End Float.

(** The largest integer not above a finite float ([floor]); [None] for
    an infinity or a NaN. *)
Definition float_floor (x : SpecFloat.spec_float) : option Z :=
  match x with
  | SpecFloat.S754_zero _ => Some 0
  | SpecFloat.S754_finite sign m e =>
      let n := if sign then Z.neg m else Z.pos m in
      Some (if 0 <=? e then n * 2 ^ e else n / 2 ^ (- e))
  | _ => None
  end.

(** The integer part of a finite float, toward zero (the conversion of a
    floating value to an integer type). *)
Definition float_trunc (x : SpecFloat.spec_float) : option Z :=
  match x with
  | SpecFloat.S754_zero _ => Some 0
  | SpecFloat.S754_finite sign m e =>
      let n := if sign then Z.neg m else Z.pos m in
      Some (if 0 <=? e then n * 2 ^ e else Z.quot n (2 ^ (- e)))
  | _ => None
  end.

(** [int64_t x = floor(d)]: defined when the floor fits [int64_t]. *)
Definition floor_to_int64 (d : double) : option Z :=
  match float_floor d with
  | Some n => if (INT64_MIN <=? n) && (n <=? INT64_MAX) then Some n else None
  | None => None
  end.

(** [int32_t x = d]: defined when the integer part fits [int32_t]. *)
Definition double_to_int32 (d : double) : option Z :=
  match float_trunc d with
  | Some n => if (INT32_MIN <=? n) && (n <=? INT32_MAX) then Some n else None
  | None => None
  end.

(* ===================================================================== *)
(** ** Frequency statistics ([SeedIndex::ComputeFrequencyStats]) *)
(* ===================================================================== *)

Record FrequencyStats : Type := mkFrequencyStats {
  retFreqMax : Z;
  retFreqAvg : double;
  retFreqMedian : double;
  retFreqCutoff : Z
}.

(** [v[i]], undefined outside the vector. *)
Definition vec_at (v : list Z) (i : Z) : option Z :=
  if i <? 0 then None else v !! Z.to_nat i.

Definition vec_at_hit (v : list SeedHit) (i : Z) : option SeedHit :=
  if i <? 0 then None else v !! Z.to_nat i.

(** The nonzero spans of the hash, in the order the loop meets them. *)
Definition bucket_sizes (hash : SeedHashType) : list Z :=
  filter (fun span => span <> 0)
    ((fun kv : Z * (Z * Z) => kv.2.2 - kv.2.1) <$> map_to_list hash).

(** [floor(numKeys * (1.0 - percentileCutoff))]. *)
Definition cutoff_rank (numValidKeys : Z) (percentileCutoff : double) : option Z :=
  floor_to_int64
    (Double.mul (Double.of_Z numValidKeys)
       (Double.sub (Double.of_Z 1) percentileCutoff)).

Definition ComputeFrequencyStats (idx : SeedIndex) (percentileCutoff : double)
  : Result FrequencyStats :=
  (* Sanity check. *)
  if Double.ltb percentileCutoff (Double.of_Z 0)
     || Double.ltb (Double.of_Z 1) percentileCutoff then Throw InvalidArgument
  (* Empty input. *)
  else if bool_decide (hash_ idx = ∅) then
    Ok (mkFrequencyStats 0 (Double.of_Z 0) (Double.of_Z 0) 0)
  else
    (* Collect all frequencies as a vector. *)
    let freqs := bucket_sizes (hash_ idx) in
    let sumFreqs :=
      foldl (fun acc span => Double.add acc (Double.of_Z span)) (Double.of_Z 0) freqs in
    let numValidKeys := Z.of_nat (length freqs) in
    if numValidKeys <=? 0 then Throw NoValidKeys
    else
      (* Sort the vector for percentile calculation. *)
      let freqs := radix_sort freqs in
      (* Find the percentile cutoff ID. *)
      let numKeys := Double.of_Z numValidKeys in
      match cutoff_rank numValidKeys percentileCutoff with
      | None => Throw UndefinedConversion
      | Some cutoffId =>
          match last freqs, vec_at freqs cutoffId,
                vec_at freqs (Z.quot numValidKeys 2),
                vec_at freqs (Z.quot (numValidKeys - 1) 2) with
          | Some freqMax, Some freqCutoff, Some hi, Some lo =>
              Ok (mkFrequencyStats freqMax
                    (Double.div sumFreqs numKeys)
                    (Double.div (Double.add (Double.of_Z hi) (Double.of_Z lo))
                                (Double.of_Z 2))
                    freqCutoff)
          | _, _, _, _ => Throw OutOfBoundsRead
          end
      end.

(* ===================================================================== *)
(** ** Mapper ([src/overlaphifi/Mapper.cpp]) *)
(* ===================================================================== *)

(** [FastaSequenceId]: [Id()], [Name()], [Bases()]. *)
Record FastaSequenceId : Type := mkFastaSequenceId {
  Id : Z;         (* int32_t *)
  Name : Str;
  Bases : Str
}.

(** [Overlap] ([Overlap.h], missing): the members [Mapper.cpp] reads and
    writes, in the order of the arguments of [createOverlap]. *)
Record Overlap : Type := mkOverlap {
  Aid : Z;
  Bid : Z;
  Score : float;
  Identity : float;
  Arev : bool;
  Astart : Z;
  Aend : Z;
  Alen : Z;
  Brev : bool;
  Bstart : Z;
  Bend : Z;
  Blen : Z;
  EditDistance : Z;
  NumSeeds : Z
}.

Definition ASpan (ovl : Overlap) : Z := wrap32 (Aend ovl - Astart ovl).
Definition BSpan (ovl : Overlap) : Z := wrap32 (Bend ovl - Bstart ovl).

(** [createOverlap(Aid, Bid, score, identity, Arev, Astart, Aend, Alen,
    Brev, Bstart, Bend, Blen, editDist, numSeeds)]. *)
Definition createOverlap := mkOverlap.

(** [std::string::size()] stored into an [int32_t]. *)
Definition size32 (x : Str) : Z := wrap32 (Z.of_nat (length x)).

(** *** Hit sort *)

(** [Mapper::PackSeedHitWithDiagonalTo128_]: the value of the signed
    128-bit result. *)
Definition PackSeedHitWithDiagonalTo128_ (sh : SeedHit) : Z :=
  let diag := wrap32 (targetPos sh - queryPos sh) in
  wrap128
    (Z.lor (Z.shiftl (Z.land (targetId sh) MASK_32bit) 97)
       (Z.lor (Z.shiftl (Z.land (Z.b2z (targetRev sh)) MASK_32bit) 96)
          (Z.lor (Z.shiftl (Z.land diag MASK_32bit) 64)
             (Z.lor (Z.shiftl (Z.land (targetPos sh) MASK_32bit) 32)
                (Z.land (queryPos sh) MASK_32bit))))).

(** The comparator of the [std::sort] call in [Mapper::Map] is
    [Pack(a) < Pack(b)]; this is the order it sorts into. *)
Definition hit_le (a b : SeedHit) : Prop :=
  PackSeedHitWithDiagonalTo128_ a <= PackSeedHitWithDiagonalTo128_ b.

#[export] Instance hit_le_dec (a b : SeedHit) : Decision (hit_le a b) :=
  Z_le_dec _ _.

(** What [std::sort] guarantees of its result: a rearrangement that is
    ascending for the comparator. *)
Definition is_sorted_hits (hits sorted : list SeedHit) : Prop :=
  sorted ≡ₚ hits /\ StronglySorted hit_le sorted.

(** One such rearrangement. *)
Definition sort_hits (hits : list SeedHit) : list SeedHit :=
  merge_sort hit_le hits.

(** *** Chaining *)

(** [MakeOverlap_]. *)
Definition MakeOverlap_ (sortedHits : list SeedHit) (querySeq : FastaSequenceId)
    (indexCache : SeedDBIndexCache)
    (beginId endId minTargetPosId maxTargetPosId : Z) : Result Overlap :=
  match vec_at_hit sortedHits minTargetPosId, vec_at_hit sortedHits maxTargetPosId with
  | Some beginHit, Some endHit =>
      let targetId_ := targetId beginHit in
      let numSeeds := wrap32 (endId - beginId) in
      if negb (targetId endHit =? targetId beginHit) then Throw InvariantViolation
      else
        let score := Float.of_Z numSeeds in
        let identity := Float.of_Z 0 in
        let editDist := -1 in
        sl ← GetSeedsLine indexCache targetId_;
        let targetLen := sl_numBases sl in
        mret (createOverlap (Id querySeq) targetId_ score identity false
                (queryPos beginHit) (queryPos endHit) (size32 (Bases querySeq))
                (targetRev beginHit) (targetPos beginHit) (targetPos endHit)
                targetLen editDist numSeeds)
  | _, _ => Throw OutOfBoundsRead
  end.

(** [(uint64_t(targetPos) << 32) | uint64_t(queryPos)]. *)
Definition TargetQueryPosCombo (sh : SeedHit) : Z :=
  Z.lor (Z.shiftl (targetPos sh mod 2 ^ 64) 32 mod 2 ^ 64) (queryPos sh mod 2 ^ 64).

(** The admission test, written twice in [FormDiagonalAnchors_]. *)
Definition accept_overlap (ovl : Overlap) (minNumSeeds minChainSpan : Z)
    (skipSelfHits skipSymmetricOverlaps : bool) : bool :=
  (minNumSeeds <=? NumSeeds ovl) && (minChainSpan <? ASpan ovl)
  && (minChainSpan <? BSpan ovl)
  && (negb skipSelfHits || (skipSelfHits && negb (Bid ovl =? Aid ovl)))
  && (negb skipSymmetricOverlaps || (skipSymmetricOverlaps && (Bid ovl <? Aid ovl))).

(** The variables of the sweep. *)
Record ChainState : Type := mkChainState {
  cs_overlaps : list Overlap;
  cs_beginId : Z;
  cs_beginDiag : Z;
  cs_minCombo : Z;
  cs_maxCombo : Z;
  cs_minPosId : Z;
  cs_maxPosId : Z
}.

Section Chaining.
Variables (sortedHits : list SeedHit) (querySeq : FastaSequenceId)
          (indexCache : SeedDBIndexCache).
Variables (chainBandwidth minNumSeeds minChainSpan : Z)
          (skipSelfHits skipSymmetricOverlaps : bool).

(** Track the minimum and maximum target positions for each diagonal. *)
Definition track_min_max (st : ChainState) (i : Z) (targetQueryPosCombo : Z) : ChainState :=
  let st :=
    if targetQueryPosCombo <? cs_minCombo st then
      mkChainState (cs_overlaps st) (cs_beginId st) (cs_beginDiag st)
        targetQueryPosCombo (cs_maxCombo st) i (cs_maxPosId st)
    else st in
  if cs_maxCombo st <? targetQueryPosCombo then
    mkChainState (cs_overlaps st) (cs_beginId st) (cs_beginDiag st)
      (cs_minCombo st) targetQueryPosCombo (cs_minPosId st) i
  else st.

(** One iteration of [for (int32_t i = 0; i < numHits; ++i)]. *)
Definition chain_step (st : ChainState) (i : Z) (currHit : SeedHit) : Result ChainState :=
  match vec_at_hit sortedHits (cs_beginId st) with
  | None => Throw OutOfBoundsRead
  | Some prevHit =>
      let currDiag := Diagonal currHit in
      let diagDiff := wrap32 (Z.abs (wrap32 (currDiag - cs_beginDiag st))) in
      let targetQueryPosCombo := TargetQueryPosCombo currHit in
      if negb (targetId currHit =? targetId prevHit)
         || negb (eqb (targetRev currHit) (targetRev prevHit))
         || (chainBandwidth <? diagDiff)
      then
        ovl ← MakeOverlap_ sortedHits querySeq indexCache (cs_beginId st) i
                 (cs_minPosId st) (cs_maxPosId st);
        (* Add a new overlap. *)
        let overlaps :=
          if accept_overlap ovl minNumSeeds minChainSpan skipSelfHits skipSymmetricOverlaps
          then cs_overlaps st ++ [ovl] else cs_overlaps st in
        mret (track_min_max
                (mkChainState overlaps i currDiag targetQueryPosCombo
                   targetQueryPosCombo i i)
                i targetQueryPosCombo)
      else mret (track_min_max st i targetQueryPosCombo)
  end.

Fixpoint chain_loop (st : ChainState) (i : Z) (rest : list SeedHit) : Result ChainState :=
  match rest with
  | [] => mret st
  | currHit :: rest' =>
      st' ← chain_step st i currHit;
      chain_loop st' (i + 1) rest'
  end.

(** [Mapper::FormDiagonalAnchors_]. *)
Definition FormDiagonalAnchors_ : Result (list Overlap) :=
  match sortedHits with
  | [] => mret []
  | hit0 :: _ =>
      let numHits := wrap32 (Z.of_nat (length sortedHits)) in
      let combo0 := TargetQueryPosCombo hit0 in
      st ← chain_loop (mkChainState [] 0 (Diagonal hit0) combo0 combo0 0 0) 0 sortedHits;
      if 0 <? wrap32 (numHits - cs_beginId st) then
        ovl ← MakeOverlap_ sortedHits querySeq indexCache (cs_beginId st) numHits
                 (cs_minPosId st) (cs_maxPosId st);
        if accept_overlap ovl minNumSeeds minChainSpan skipSelfHits skipSymmetricOverlaps
        then mret (cs_overlaps st ++ [ovl]) else mret (cs_overlaps st)
      else mret (cs_overlaps st)
  end.

End Chaining.

(** *** Alignment *)

(** The result of the banded edit-distance routine. *)
Record SesResults : Type := mkSesResults {
  lastQueryPos : Z;
  lastTargetPos : Z;
  diffs : Z
}.

(** The two collaborators of the aligner that are not among the sources:
    [ReverseComplement(seq, start, end)] of [pacbio/seqdb/Util.h] and
    [SESDistanceBanded(query, qLen, target, tLen, dMax, bandwidth)] of
    [pacbio/alignment/SesDistanceBanded.h], both pure. *)
Class Collaborators : Type := {
  ReverseComplement : Str -> Z -> Z -> Str;
  SESDistanceBanded : Str -> Z -> Str -> Z -> Z -> Z -> SesResults
}.

Section Alignment.
Context `{Collaborators}.

(** [std::string::substr(pos, n)] for [pos <= size()]. *)
Definition substr (x : Str) (pos n : Z) : Str :=
  take (Z.to_nat n) (drop (Z.to_nat pos) x).

(** [Mapper::FetchTargetSubsequence_]. *)
Definition FetchTargetSubsequence_ (targetSeq : FastaSequenceId)
    (seqStart seqEnd : Z) (revCmp : bool) : Result Str :=
  let seqLen := size32 (Bases targetSeq) in
  if seqEnd =? seqStart then mret []
  else if (seqStart <? 0) || (seqEnd <? 0) || (seqLen <? seqStart)
          || (seqLen <? seqEnd) || (seqEnd <? seqStart)
  then Throw InvalidRange
  else
    let seqEnd := if seqEnd =? 0 then seqLen else seqEnd in
    if revCmp then mret (ReverseComplement (Bases targetSeq) seqStart seqEnd)
    else (* No need to reverse complement. *)
      mret (substr (Bases targetSeq) seqStart (seqEnd - seqStart)).

(** [int32_t x = <double expression>]. *)
Definition to_int32 (d : double) : Result Z :=
  match double_to_int32 d with
  | Some n => Ok n
  | None => Throw UndefinedConversion
  end.

(** [ret->Score = -std::max(ret->ASpan(), ret->BSpan())]. *)
Definition set_Score (ret : Overlap) : Overlap :=
  mkOverlap (Aid ret) (Bid ret)
    (Float.of_Z (wrap32 (- Z.max (ASpan ret) (BSpan ret))))
    (Identity ret) (Arev ret)
    (Astart ret) (Aend ret) (Alen ret) (Brev ret) (Bstart ret) (Bend ret)
    (Blen ret) (EditDistance ret) (NumSeeds ret).

(** The closing lines of the reverse pass: score and identity from the
    final coordinates. *)
Definition finalize (ret : Overlap) : Overlap :=
  let score := Float.of_Z (wrap32 (- Z.max (ASpan ret) (BSpan ret))) in
  let span := Float.of_Z (Z.max (ASpan ret) (BSpan ret)) in
  let identity :=
    Float.mul (Float.of_Z 100)
      (if negb (Float.eqb span (Float.of_Z 0))
       then Float.div (Float.sub span (Float.of_Z (EditDistance ret))) span
       else Float.of_Z (-2)) in
  mkOverlap (Aid ret) (Bid ret) score identity (Arev ret)
    (Astart ret) (Aend ret) (Alen ret) (Brev ret) (Bstart ret) (Bend ret)
    (Blen ret) (EditDistance ret) (NumSeeds ret).

(** The assignments of the forward pass to [ret], a copy of [ovl]. *)
Definition forward_update (ovl : Overlap) (sesResult : SesResults) : Overlap :=
  set_Score
    (mkOverlap (Aid ovl) (Bid ovl) (Score ovl) (Identity ovl) (Arev ovl)
       (Astart ovl) (wrap32 (lastQueryPos sesResult + Astart ovl)) (Alen ovl)
       (Brev ovl) (Bstart ovl) (wrap32 (lastTargetPos sesResult + Bstart ovl))
       (Blen ovl) (diffs sesResult) (NumSeeds ovl)).

(** The assignments of the reverse pass to [ret]. *)
Definition reverse_update (ovl ret : Overlap) (diffsRight : Z)
    (sesResult : SesResults) : Overlap :=
  finalize
    (mkOverlap (Aid ret) (Bid ret) (Score ret) (Identity ret) (Arev ret)
       (wrap32 (Astart ovl - lastQueryPos sesResult)) (Aend ret) (Alen ret)
       (Brev ret) (wrap32 (Bstart ovl - lastTargetPos sesResult)) (Bend ret)
       (Blen ret) (wrap32 (diffsRight + diffs sesResult)) (NumSeeds ret)).

(** The first block of [AlignOverlap_], "Align forward pass": the updated
    copy and [diffsRight]. *)
Definition AlignOverlap_forward (targetSeq querySeq : FastaSequenceId)
    (ovl : Overlap) (alignBandwidth alignMaxDiff : double) : Result (Overlap * Z) :=
  let qStart := Astart ovl in
  let qEnd := Alen ovl in
  let qSpan := wrap32 (qEnd - qStart) in
  let tStartFwd := if Brev ovl then wrap32 (Blen ovl - Bend ovl) else Bstart ovl in
  let tEndFwd := if Brev ovl then wrap32 (Blen ovl - Bstart ovl) else Bend ovl in
  tseq ← (if Brev ovl then FetchTargetSubsequence_ targetSeq 0 tEndFwd (Brev ovl)
          else FetchTargetSubsequence_ targetSeq tStartFwd (Blen ovl) (Brev ovl));
  let tSpan := size32 tseq in
  dMax ← to_int32 (Double.mul (Double.of_Z (Alen ovl)) alignMaxDiff);
  bandwidth ← to_int32 (Double.mul (Double.of_Z (Z.min (Blen ovl) (Alen ovl)))
                           alignBandwidth);
  let sesResult :=
    SESDistanceBanded (drop (Z.to_nat qStart) (Bases querySeq)) qSpan
      tseq tSpan dMax bandwidth in
  mret (forward_update ovl sesResult, diffs sesResult).

(** The second block, "Align reverse pass". *)
Definition AlignOverlap_reverse (targetSeq : FastaSequenceId)
    (reverseQuerySeq : Str) (ovl ret : Overlap) (diffsRight : Z)
    (alignBandwidth alignMaxDiff : double) : Result Overlap :=
  (* Reverse query coordinates. *)
  let qStart := wrap32 (Alen ret - Astart ret) in
  let qEnd := Alen ret in
  let qSpan := wrap32 (qEnd - qStart) in
  let tStartFwd := if Brev ret then wrap32 (Blen ret - Bend ret) else Bstart ret in
  let tEndFwd := if Brev ret then wrap32 (Blen ret - Bstart ret) else Bend ret in
  tSeq ← (if Brev ovl
          then FetchTargetSubsequence_ targetSeq tEndFwd (Blen ret) (negb (Brev ret))
          else FetchTargetSubsequence_ targetSeq 0 tStartFwd (negb (Brev ret)));
  let tSpan := size32 tSeq in
  dMax ← to_int32 (Double.sub (Double.mul (Double.of_Z (Alen ovl)) alignMaxDiff)
                      (Double.of_Z diffsRight));
  bandwidth ← to_int32 (Double.mul (Double.of_Z (Z.min (Blen ovl) (Alen ovl)))
                           alignBandwidth);
  let sesResult :=
    SESDistanceBanded (drop (Z.to_nat qStart) reverseQuerySeq) qSpan
      tSeq tSpan dMax bandwidth in
  mret (reverse_update ovl ret diffsRight sesResult).

(** [Mapper::AlignOverlap_]; [None] is the null pointer. *)
Definition AlignOverlap_ (targetSeq querySeq : FastaSequenceId)
    (reverseQuerySeq : Str) (ovl : option Overlap)
    (alignBandwidth alignMaxDiff : double) : Result (option Overlap) :=
  match ovl with
  | None => mret None
  | Some ovl =>
      fwd ← AlignOverlap_forward targetSeq querySeq ovl alignBandwidth alignMaxDiff;
      ret ← AlignOverlap_reverse targetSeq reverseQuerySeq ovl fwd.1 fwd.2
               alignBandwidth alignMaxDiff;
      mret (Some ret)
  end.

End Alignment.

(** *** Sample collaborators *)

(** A pair of collaborators to run the aligner on concrete sequences:
    the reverse complement by the usual base pairing, and the extension
    that follows the diagonal up to the first mismatch (what a banded
    edit-distance search returns when its budget of differences is 0). *)
Definition complement (c : ascii) : ascii :=
  if Ascii.eqb c "A" then "T"%char
  else if Ascii.eqb c "T" then "A"%char
  else if Ascii.eqb c "C" then "G"%char
  else if Ascii.eqb c "G" then "C"%char
  else "N"%char.

Definition SampleReverseComplement (seq : Str) (start end_ : Z) : Str :=
  map complement (rev (take (Z.to_nat (end_ - start)) (drop (Z.to_nat start) seq))).

Fixpoint common_prefix (a b : Str) : Z :=
  match a, b with
  | x :: a', y :: b' => if Ascii.eqb x y then 1 + common_prefix a' b' else 0
  | _, _ => 0
  end.

Definition SampleSESDistanceBanded (query : Str) (qLen : Z) (target : Str)
    (tLen dMax bandwidth : Z) : SesResults :=
  let n := common_prefix (take (Z.to_nat qLen) query) (take (Z.to_nat tLen) target) in
  mkSesResults n n 0.

Definition SampleCollaborators : Collaborators := {|
  ReverseComplement := SampleReverseComplement;
  SESDistanceBanded := SampleSESDistanceBanded
|}.

(* ===================================================================== *)
(** ** Text input and output *)
(* ===================================================================== *)

(** The pieces of the C and C++ libraries the index reader and writer go
    through, on [list ascii]: [isspace] in the "C" locale, [operator<<] of
    integers, the formatted extractions [operator>>] of an input stream,
    [std::getline], [sscanf] conversions and [std::stoi]. *)

Definition tab : ascii := "009"%char.
Definition nl : ascii := "010"%char.
Definition NUL : ascii := "000"%char.

Definition isspace (c : ascii) : bool :=
  match c with
  | " " | "009" | "010" | "011" | "012" | "013" => true
  | _ => false
  end%char.

(** The value of a decimal digit, from its character code. *)
Definition digit_val (c : ascii) : option Z :=
  let code := Z.of_nat (nat_of_ascii c) in
  if (48 <=? code) && (code <=? 57) then Some (code - 48) else None.

(** The character of the digit [d], for [0 <= d <= 9]. *)
Definition digit_char (d : Z) : ascii := ascii_of_nat (Z.to_nat (48 + d)).

(** *** Output *)

(** The decimal digits of [n >= 0] in front of [acc]; [fuel] bounds the
    number of digits. *)
Fixpoint print_digits (fuel : nat) (n : Z) (acc : Str) : Str :=
  match fuel with
  | O => acc
  | S fuel' =>
      let acc' := digit_char (n mod 10) :: acc in
      if n / 10 =? 0 then acc' else print_digits fuel' (n / 10) acc'
  end.

Definition print_unsigned (n : Z) : Str :=
  print_digits (S (Z.to_nat (Z.log2 n))) n [].

(** [os << n] for a signed integer [n]. *)
Definition print_Z (n : Z) : Str :=
  if n <? 0 then "-"%char :: print_unsigned (- n) else print_unsigned n.

(** [os << b] for a [bool] (no [boolalpha]). *)
Definition print_bool (b : bool) : Str := print_Z (Z.b2z b).

(** *** Input *)

Fixpoint skip_ws (x : Str) : Str :=
  match x with
  | c :: x' => if isspace c then skip_ws x' else x
  | [] => []
  end.

(** The longest prefix without whitespace, and what follows it. *)
Fixpoint read_token (x : Str) : Str * Str :=
  match x with
  | c :: x' =>
      if isspace c then ([], x)
      else let '(tok, rest) := read_token x' in (c :: tok, rest)
  | [] => ([], [])
  end.

(** Decimal digits in front of [x], accumulated onto [acc]; the flag tells
    whether there was at least one. *)
Fixpoint read_digits (x : Str) (acc : Z) (any : bool) : Z * bool * Str :=
  match x with
  | c :: x' =>
      match digit_val c with
      | Some d => read_digits x' (10 * acc + d) true
      | None => (acc, any, x)
      end
  | [] => (acc, any, [])
  end.

(** An optional sign in front of [x]: whether it is a minus, and the rest. *)
Definition read_sign (x : Str) : bool * Str :=
  match x with
  | "-"%char :: x' => (true, x')
  | "+"%char :: x' => (false, x')
  | _ => (false, x)
  end.

(** An optionally signed decimal number in front of [x]: its value and the
    rest, or [None] when no digit follows the sign. *)
Definition read_number (x : Str) : option (Z * Str) :=
  let '(neg, x) := read_sign x in
  let '(v, any, rest) := read_digits x 0 false in
  if any then Some (if neg then - v else v, rest) else None.

Definition clamp (lo hi v : Z) : Z := Z.max lo (Z.min hi v).

(** An [std::istringstream]: what is left to read and whether a read has
    failed.  Once it has failed (or is exhausted) an extraction leaves its
    target as it was. *)
Record istream : Type := mkIstream {
  is_buf : Str;
  is_fail : bool
}.

Definition istringstream (line : Str) : istream := mkIstream line false.

(** [is >> c] for a [char]. *)
Definition get_char (ins : istream) (old : ascii) : istream * ascii :=
  if is_fail ins then (ins, old)
  else match skip_ws (is_buf ins) with
       | [] => (mkIstream [] true, old)
       | c :: rest => (mkIstream rest false, c)
       end.

(** [is >> str] for a [std::string]. *)
Definition get_string (ins : istream) (old : Str) : istream * Str :=
  if is_fail ins then (ins, old)
  else match skip_ws (is_buf ins) with
       | [] => (mkIstream [] true, old)
       | x => let '(tok, rest) := read_token x in (mkIstream rest false, tok)
       end.

(** [is >> n] for a signed integer type with range [[lo, hi]]: a failed
    conversion stores 0, an overflow stores the nearest bound; both set
    the fail bit. *)
Definition get_int (lo hi : Z) (ins : istream) (old : Z) : istream * Z :=
  if is_fail ins then (ins, old)
  else match skip_ws (is_buf ins) with
       | [] => (mkIstream [] true, old)
       | x =>
           match read_number x with
           | None => (mkIstream x true, 0)
           | Some (v, rest) =>
               if (lo <=? v) && (v <=? hi) then (mkIstream rest false, v)
               else (mkIstream rest true, clamp lo hi v)
           end
       end.

Definition get_int32 := get_int INT32_MIN INT32_MAX.
Definition get_int64 := get_int INT64_MIN INT64_MAX.

(** [std::getline(is, token, delim)] until it fails: the delimiter ends a
    token and is dropped; characters after the last delimiter form a last
    token. *)
Fixpoint getline_all (delim : ascii) (x : Str) (cur : Str) (pending : bool) : list Str :=
  match x with
  | [] => if pending then [rev cur] else []
  | c :: x' =>
      if Ascii.eqb c delim then rev cur :: getline_all delim x' [] false
      else getline_all delim x' (c :: cur) true
  end.

(** The lines [std::getline(is, line)] returns. *)
Definition stream_lines (input : Str) : list Str := getline_all nl input [] false.

(** [PacBio::Utility::Split(line, delim)] of pbcopper: [std::getline] on a
    string stream, token by token. *)
Definition Split (line : Str) (delim : ascii) : list Str :=
  getline_all delim line [] false.

(** The lines POSIX [getline(&line, &lineLen, fp)] returns: each keeps its
    newline. *)
Fixpoint file_lines (x : Str) (cur : Str) : list Str :=
  match x with
  | [] => match cur with [] => [] | _ => [rev cur] end
  | c :: x' =>
      if Ascii.eqb c nl then rev (c :: cur) :: file_lines x' []
      else file_lines x' (c :: cur)
  end.

(** A [char*] seen as a C string: up to the first NUL. *)
Fixpoint c_str (x : Str) : Str :=
  match x with
  | c :: x' => if Ascii.eqb c NUL then [] else c :: c_str x'
  | [] => []
  end.

(** [sscanf] conversions.  Each takes the input left and returns the
    converted value with the rest, or [None] when the conversion fails
    (then [sscanf] stops and returns the number of items stored so far).
    [%d] and [%lld] read as [strtol] does; a value out of range is stored
    as glibc stores it, clamped to 64 bits and, for [%d], cut to 32. *)
Definition scan_lld (x : Str) : option (Z * Str) :=
  match read_number (skip_ws x) with
  | Some (v, rest) => Some (clamp INT64_MIN INT64_MAX v, rest)
  | None => None
  end.

Definition scan_d (x : Str) : option (Z * Str) :=
  match scan_lld x with
  | Some (v, rest) => Some (wrap32 v, rest)
  | None => None
  end.

(** [%s]: the buffer of 2000 bytes the loader passes is taken to be large
    enough. *)
Definition scan_s (x : Str) : option (Str * Str) :=
  match skip_ws x with
  | [] => None
  | x' => Some (read_token x')
  end.

(** [std::stoi(str)]. *)
Definition stoi (str : Str) : Result Z :=
  match read_number (skip_ws str) with
  | None => Throw StoiInvalidArgument
  | Some (v, _) =>
      if (INT32_MIN <=? v) && (v <=? INT32_MAX) then Ok v else Throw StoiOutOfRange
  end.

(** [a == b] on strings. *)
Definition str_eqb (a b : Str) : bool := bool_decide (a = b).

(* ===================================================================== *)
(** ** SeedDB index cache ([src/seeddb/SeedDBIndexCache.cpp]) *)
(* ===================================================================== *)

(** What the file takes from headers that are not among the sources: the
    values a default-constructed [SeedDBParameters] and the [version] of a
    default-constructed [SeedDBIndexCache] hold, and [SplitPath] of
    [pacbio/seqdb/Util.h]. *)
Class CacheHeader : Type := {
  default_seedParams : SeedDBParameters;
  default_version : Str;
  SplitPath : Str -> Str * Str
}.

Definition set_version (c : SeedDBIndexCache) (v : Str) : SeedDBIndexCache :=
  mkCache (indexFilename c) (indexParentFolder c) (indexBasename c) v
    (seedParams c) (fileLines c) (seedLines c) (blockLines c).

Definition set_seedParams (c : SeedDBIndexCache) (p : SeedDBParameters) : SeedDBIndexCache :=
  mkCache (indexFilename c) (indexParentFolder c) (indexBasename c) (version c)
    p (fileLines c) (seedLines c) (blockLines c).

Definition add_fileLine (c : SeedDBIndexCache) (fl : SeedDBFileLine) : SeedDBIndexCache :=
  mkCache (indexFilename c) (indexParentFolder c) (indexBasename c) (version c)
    (seedParams c) (fileLines c ++ [fl]) (seedLines c) (blockLines c).

Definition add_seedLine (c : SeedDBIndexCache) (sl : SeedDBSeedsLine) : SeedDBIndexCache :=
  mkCache (indexFilename c) (indexParentFolder c) (indexBasename c) (version c)
    (seedParams c) (fileLines c) (seedLines c ++ [sl]) (blockLines c).

Definition add_blockLine (c : SeedDBIndexCache) (bl : SeedDBBlockLine) : SeedDBIndexCache :=
  mkCache (indexFilename c) (indexParentFolder c) (indexBasename c) (version c)
    (seedParams c) (fileLines c) (seedLines c) (blockLines c ++ [bl]).

(** One parameter of [ParseSeedDBParams]: the body of its loop after the
    [name=value] test. *)
Definition set_param (ret : SeedDBParameters) (name value : Str) : Result SeedDBParameters :=
  if str_eqb name (lit "k") then
    v ← stoi value;
    mret (mkParams v (MinimizerWindow ret) (UseHPC ret) (MaxHPCLen ret) (UseRC ret))
  else if str_eqb name (lit "w") then
    v ← stoi value;
    mret (mkParams (KmerSize ret) v (UseHPC ret) (MaxHPCLen ret) (UseRC ret))
  else if str_eqb name (lit "hpc") then
    v ← stoi value;
    mret (mkParams (KmerSize ret) (MinimizerWindow ret) (negb (v =? 0)) (MaxHPCLen ret)
            (UseRC ret))
  else if str_eqb name (lit "hpc_len") then
    v ← stoi value;
    mret (mkParams (KmerSize ret) (MinimizerWindow ret) (UseHPC ret) v (UseRC ret))
  else if str_eqb name (lit "rc") then
    v ← stoi value;
    mret (mkParams (KmerSize ret) (MinimizerWindow ret) (UseHPC ret) (MaxHPCLen ret)
            (negb (v =? 0)))
  else mret ret.

Fixpoint ParseSeedDBParams_loop (params : list Str) (ret : SeedDBParameters)
  : Result SeedDBParameters :=
  match params with
  | [] => mret ret
  | param :: params' =>
      match param with
      | [] => ParseSeedDBParams_loop params' ret      (* if (param.empty()) continue; *)
      | _ :: _ =>
          match Split param "="%char with
          | [name; value] =>
              ret' ← set_param ret name value;
              ParseSeedDBParams_loop params' ret'
          | _ => Throw (BadParameter param)
          end
      end
  end.

(** The loop of the FILE loader that is meant to find the first
    non-whitespace character after [P]: it compares the index [offset],
    not the character [line[offset]], with [' '] and ['\t']. *)
Fixpoint P_offset_loop (fuel : nat) (offset lineLen : Z) : Z :=
  match fuel with
  | O => offset
  | S fuel' =>
      if (offset <? lineLen)
         && ((offset =? Z.of_nat (nat_of_ascii " "%char))
             || (offset =? Z.of_nat (nat_of_ascii tab)))
      then P_offset_loop fuel' (offset + 1) lineLen
      else offset
  end.

Definition P_offset (lineLen : Z) : Z :=
  P_offset_loop (Z.to_nat lineLen) 1 lineLen.

Section Loaders.
Context `{CacheHeader}.

(** [ParseSeedDBParams]. *)
Definition ParseSeedDBParams (paramsStr : Str) : Result SeedDBParameters :=
  ParseSeedDBParams_loop (Split paramsStr ","%char) default_seedParams.

(** [std::make_unique<SeedDBIndexCache>()] followed by the assignments of
    the file name and of its two parts. *)
Definition new_cache (filename : Str) : SeedDBIndexCache :=
  mkCache filename (SplitPath filename).1 (SplitPath filename).2
    default_version default_seedParams [] [] [].

(** *** The stream loader *)

(** The body of [while (std::getline(is, line))]: the cache and [token],
    which is declared outside the loop and keeps its value when a line
    holds whitespace only. *)
Definition stream_record (cache : SeedDBIndexCache) (token : ascii) (line : Str)
  : Result (SeedDBIndexCache * ascii) :=
  match line with
  | [] => mret (cache, token)                    (* if (line.empty()) continue; *)
  | _ :: _ =>
      let '(iss, token) := get_char (istringstream line) token in
      match token with
      | "V"%char =>
          let '(_, v) := get_string iss (version cache) in
          mret (set_version cache v, token)
      | "P"%char =>
          let '(_, paramsStr) := get_string iss [] in
          params ← ParseSeedDBParams paramsStr;
          mret (set_seedParams cache params, token)
      | "F"%char =>
          let '(iss, fileId) := get_int32 iss (fl_fileId fl_default) in
          let '(iss, filename) := get_string iss (fl_filename fl_default) in
          let '(iss, numSequences) := get_int32 iss (fl_numSequences fl_default) in
          let '(_, numBytes) := get_int64 iss (fl_numBytes fl_default) in
          mret (add_fileLine cache (mkFileLine fileId filename numSequences numBytes),
                token)
      | "S"%char =>
          let '(iss, seqId) := get_int32 iss (sl_seqId sl_default) in
          let '(iss, header) := get_string iss (sl_header sl_default) in
          let '(iss, fileId) := get_int32 iss (sl_fileId sl_default) in
          let '(iss, fileOffset) := get_int64 iss (sl_fileOffset sl_default) in
          let '(iss, numBytes) := get_int64 iss (sl_numBytes sl_default) in
          let '(iss, numBases) := get_int32 iss (sl_numBases sl_default) in
          let '(_, numSeeds) := get_int32 iss (sl_numSeeds sl_default) in
          let ordinal := Z.of_nat (length (seedLines cache)) in
          if negb (seqId =? wrap32 ordinal) then Throw (InvalidSeqId line ordinal)
          else
            mret (add_seedLine cache
                    (mkSeedsLine seqId header fileId fileOffset numBytes numBases numSeeds),
                  token)
      | "B"%char =>
          let '(iss, blockId) := get_int32 iss (bl_blockId bl_default) in
          let '(iss, startSeqId) := get_int32 iss (bl_startSeqId bl_default) in
          let '(iss, endSeqId) := get_int32 iss (bl_endSeqId bl_default) in
          let '(_, numBytes) := get_int64 iss (bl_numBytes bl_default) in
          mret (add_blockLine cache (mkBlockLine blockId startSeqId endSeqId numBytes),
                token)
      | _ => Throw (UnknownToken token)
      end
  end.

Fixpoint stream_loop (lines : list Str) (cache : SeedDBIndexCache) (token : ascii)
  : Result (SeedDBIndexCache * ascii) :=
  match lines with
  | [] => mret (cache, token)
  | line :: lines' =>
      st ← stream_record cache token line;
      stream_loop lines' st.1 st.2
  end.

(** [LoadSeedDBIndexCache(std::istream&, const std::string&)].  [token0]
    is the indeterminate value [token] starts with. *)
Definition LoadSeedDBIndexCache_stream (token0 : ascii) (input : Str) (filename : Str)
  : Result SeedDBIndexCache :=
  st ← stream_loop (stream_lines input) (new_cache filename) token0;
  if bool_decide (seedLines st.1 = []) then Throw EmptyIndex
  else mret st.1.

(** *** The FILE loader *)

(** The body of [while ((numRead = getline(&line, &lineLen, fpIn)) != -1)].
    [lineLen], the size of the buffer [getline] allocated, is never 0
    after a successful call, so the first test of the body never fires.
    The state is the cache and [totalNumSeqs]. *)
Definition file_record (cache : SeedDBIndexCache) (totalNumSeqs : Z) (raw : Str)
  : Result (SeedDBIndexCache * Z) :=
  let line := c_str raw in
  let lineLen := Z.of_nat (length raw) + 1 in
  let token := hd NUL line in
  let rest := tl line in                          (* &line[1] *)
  match token with
  | "V"%char =>
      match scan_s rest with
      | Some (buff, _) => mret (set_version cache buff, totalNumSeqs)
      | None => Throw (ParseError line)
      end
  | "P"%char =>
      (* Find the first non-whitespace character. *)
      let offset := P_offset lineLen in
      params ← ParseSeedDBParams (drop (Z.to_nat offset) line);
      mret (set_seedParams cache params, totalNumSeqs)
  | "F"%char =>
      match (r1 ← scan_d rest; r2 ← scan_s r1.2; r3 ← scan_d r2.2; r4 ← scan_lld r3.2;
             Some (mkFileLine r1.1 r2.1 r3.1 r4.1)) with
      | Some fl =>
          let totalNumSeqs := wrap32 (totalNumSeqs + fl_numSequences fl) in
          (* cache->seedLines.reserve(totalNumSeqs) *)
          if totalNumSeqs <? 0 then Throw LengthError
          else mret (add_fileLine cache fl, totalNumSeqs)
      | None => Throw (ParseError line)
      end
  | "S"%char =>
      match (r1 ← scan_d rest; r2 ← scan_s r1.2; r3 ← scan_d r2.2; r4 ← scan_lld r3.2;
             r5 ← scan_lld r4.2; r6 ← scan_d r5.2; r7 ← scan_d r6.2;
             Some (mkSeedsLine r1.1 r2.1 r3.1 r4.1 r5.1 r6.1 r7.1)) with
      | Some sl =>
          let ordinal := Z.of_nat (length (seedLines cache)) in
          if negb (sl_seqId sl =? wrap32 ordinal) then Throw (InvalidSeqId line ordinal)
          else mret (add_seedLine cache sl, totalNumSeqs)
      | None => Throw (ParseError line)
      end
  | "B"%char =>
      match (r1 ← scan_d rest; r2 ← scan_d r1.2; r3 ← scan_d r2.2; r4 ← scan_lld r3.2;
             Some (mkBlockLine r1.1 r2.1 r3.1 r4.1)) with
      | Some bl => mret (add_blockLine cache bl, totalNumSeqs)
      | None => Throw (ParseError line)
      end
  | _ => Throw (UnknownToken token)
  end.

Fixpoint file_loop (lines : list Str) (cache : SeedDBIndexCache) (totalNumSeqs : Z)
  : Result SeedDBIndexCache :=
  match lines with
  | [] => mret cache
  | line :: lines' =>
      st ← file_record cache totalNumSeqs line;
      file_loop lines' st.1 st.2
  end.

(** [LoadSeedDBIndexCache(FILE*, const std::string&)] on the contents of
    the file. *)
Definition LoadSeedDBIndexCache_FILE (input : Str) (filename : Str)
  : Result SeedDBIndexCache :=
  file_loop (file_lines input []) (new_cache filename) 0.

End Loaders.

(** *** The emitter *)

Definition emit_V (v : Str) : Str := lit "V" ++ [tab] ++ v ++ [nl].

Definition emit_P (p : SeedDBParameters) : Str :=
  lit "P" ++ [tab] ++ lit "k=" ++ print_Z (KmerSize p)
  ++ lit ",w=" ++ print_Z (MinimizerWindow p)
  ++ lit ",hpc=" ++ print_bool (UseHPC p)
  ++ lit ",hpc_len=" ++ print_Z (MaxHPCLen p)
  ++ lit ",rc=" ++ print_bool (UseRC p) ++ [nl].

Definition emit_F (fl : SeedDBFileLine) : Str :=
  lit "F" ++ [tab] ++ print_Z (fl_fileId fl) ++ [tab] ++ fl_filename fl
  ++ [tab] ++ print_Z (fl_numSequences fl) ++ [tab] ++ print_Z (fl_numBytes fl) ++ [nl].

Definition emit_S (sl : SeedDBSeedsLine) : Str :=
  lit "S" ++ [tab] ++ print_Z (sl_seqId sl) ++ [tab] ++ sl_header sl
  ++ [tab] ++ print_Z (sl_fileId sl) ++ [tab] ++ print_Z (sl_fileOffset sl)
  ++ [tab] ++ print_Z (sl_numBytes sl) ++ [tab] ++ print_Z (sl_numBases sl)
  ++ [tab] ++ print_Z (sl_numSeeds sl) ++ [nl].

Definition emit_B (bl : SeedDBBlockLine) : Str :=
  lit "B" ++ [tab] ++ print_Z (bl_blockId bl) ++ [tab] ++ print_Z (bl_startSeqId bl)
  ++ [tab] ++ print_Z (bl_endSeqId bl) ++ [tab] ++ print_Z (bl_numBytes bl) ++ [nl].

(** [operator<<(std::ostream&, const SeedDBIndexCache&)]: what it writes. *)
Definition emit (r : SeedDBIndexCache) : Str :=
  emit_V (version r) ++ emit_P (seedParams r)
  ++ concat (map emit_F (fileLines r))
  ++ concat (map emit_S (seedLines r))
  ++ concat (map emit_B (blockLines r)).

(** Sample values for what [CacheHeader] leaves open, to run the loaders:
    the defaults of the command line of [SeedDBSettings.cpp] for the
    parameters it has, and a path split at the last ['/']. *)
Fixpoint split_last_slash (x : Str) (dir : Str) (cur : Str) : Str * Str :=
  match x with
  | [] => (dir, cur)
  | c :: x' =>
      if Ascii.eqb c "/"%char then split_last_slash x' (dir ++ cur ++ [c]) []
      else split_last_slash x' dir (cur ++ [c])
  end.

Definition SampleCacheHeader : CacheHeader := {|
  default_seedParams := mkParams 30 80 false 10 true;
  default_version := lit "unknown";
  SplitPath := fun path => split_last_slash path [] []
|}.

(* ===================================================================== *)
(** ** Mapper: filters, batch alignment and the pipeline *)
(* ===================================================================== *)

(** [a < b] on [float]. *)
Definition float_ltb : float -> float -> bool := SpecFloat.SFltb.

(** [Mapper::FilterOverlaps_]: the overlaps that pass every threshold, in
    their order. *)
Definition FilterOverlaps_ (overlaps : list Overlap) (minNumSeeds : Z)
    (minIdentity : float) (minMappedSpan minQueryLen minTargetLen : Z) : list Overlap :=
  filter (fun ovl =>
            negb (float_ltb (Identity ovl) minIdentity
                  || (ASpan ovl <? minMappedSpan) || (BSpan ovl <? minMappedSpan)
                  || (NumSeeds ovl <? minNumSeeds)
                  || (Alen ovl <? minQueryLen) || (Blen ovl <? minTargetLen)) = true)
    overlaps.

(** [std::max(a->ASpan(), a->BSpan())]. *)
Definition max_span (ovl : Overlap) : Z := Z.max (ASpan ovl) (BSpan ovl).

(** The comparator of the [std::sort] call in [FilterTandemOverlaps_]. *)
Definition tandem_before (a b : Overlap) : bool :=
  (Bid a <? Bid b) || ((Bid a =? Bid b) && (max_span b <? max_span a)).

(** The order it sorts into: [b] is not before [a]. *)
Definition tandem_le (a b : Overlap) : Prop := tandem_before b a = false.

#[export] Instance tandem_le_dec (a b : Overlap) : Decision (tandem_le a b) :=
  bool_eq_dec _ _.

(** What [std::sort] guarantees of its result (it is not stable: overlaps
    the comparator ties may come in any order). *)
Definition is_sorted_tandem (overlaps sorted : list Overlap) : Prop :=
  sorted ≡ₚ overlaps /\ StronglySorted tandem_le sorted.

(** The loop "Accumulate the results" over the sorted copy: an overlap is
    appended when its [Bid] differs from that of [ret.back()].  [ret] holds
    the front element from the start, so [back()] is always there. *)
Fixpoint tandem_accumulate (ret : list Overlap) (overlaps_copy : list Overlap)
  : list Overlap :=
  match overlaps_copy with
  | [] => ret
  | ovl :: rest =>
      match last ret with
      | Some back =>
          if Bid ovl =? Bid back then tandem_accumulate ret rest
          else tandem_accumulate (ret ++ [ovl]) rest
      | None => ret
      end
  end.

(** [Mapper::FilterTandemOverlaps_] after its sort: [overlaps_copy] is the
    sorted copy. *)
Definition FilterTandemOverlaps_sorted (overlaps_copy : list Overlap) : list Overlap :=
  match overlaps_copy with
  | [] => []
  | front :: _ => tandem_accumulate [front] overlaps_copy
  end.

(** [std::sort] as the mapper uses it, on the hits and on the copied
    overlaps: some rearrangement that is ascending for the comparator. *)
Class StdSort : Type := {
  std_sort_hits : list SeedHit -> list SeedHit;
  std_sort_overlaps : list Overlap -> list Overlap;
  std_sort_hits_sorted : forall hits, is_sorted_hits hits (std_sort_hits hits);
  std_sort_overlaps_sorted :
    forall overlaps, is_sorted_tandem overlaps (std_sort_overlaps overlaps)
}.

(** [Mapper::FilterTandemOverlaps_]. *)
Definition FilterTandemOverlaps_ `{StdSort} (overlaps : list Overlap) : list Overlap :=
  match overlaps with
  | [] => []
  | _ :: _ => FilterTandemOverlaps_sorted (std_sort_overlaps overlaps)
  end.

(** [SeqDBReaderCached] ([SeqDBReaderCached.h], missing): the one method
    the mapper calls, [GetSequence(seqId)]. *)
Definition SeqDBReaderCached : Type := Z -> Result FastaSequenceId.

(** The members of [settings_] that [Mapper::Map] reads, each with the
    type of the parameter it is passed as. *)
Record OverlapHifiSettings : Type := mkSettings {
  MinQueryLen : Z;
  ChainBandwidth : Z;
  MinNumSeeds : Z;
  MinChainSpan : Z;
  SkipSymmetricOverlaps : bool;
  OneHitPerTarget : bool;
  AlignmentBandwidth : double;
  AlignmentMaxD : double;
  MinIdentity : float;
  MinMappedLength : Z;
  MinTargetLen : Z
}.

Section MapperStages.
Context `{SeedCodec} `{Collaborators} `{StdSort}.

(** [AlignOverlap_] on a pointer that is not null, as [AlignOverlaps_]
    calls it (its loop has read [overlaps[i]->Bid] before the call): the
    two passes. *)
Definition AlignOverlap_passes (targetSeq querySeq : FastaSequenceId)
    (reverseQuerySeq : Str) (ovl : Overlap) (alignBandwidth alignMaxDiff : double)
  : Result Overlap :=
  fwd ← AlignOverlap_forward targetSeq querySeq ovl alignBandwidth alignMaxDiff;
  AlignOverlap_reverse targetSeq reverseQuerySeq ovl fwd.1 fwd.2
    alignBandwidth alignMaxDiff.

(** The loop of [AlignOverlaps_]. *)
Fixpoint AlignOverlaps_loop (targetSeqs : SeqDBReaderCached) (querySeq : FastaSequenceId)
    (reverseQuerySeq : Str) (overlaps : list Overlap)
    (alignBandwidth alignMaxDiff : double) (ret : list Overlap) : Result (list Overlap) :=
  match overlaps with
  | [] => mret ret
  | ovl :: overlaps' =>
      targetSeq ← targetSeqs (Bid ovl);
      newOverlap ← AlignOverlap_passes targetSeq querySeq reverseQuerySeq ovl
                     alignBandwidth alignMaxDiff;
      AlignOverlaps_loop targetSeqs querySeq reverseQuerySeq overlaps'
        alignBandwidth alignMaxDiff (ret ++ [newOverlap])
  end.

(** [Mapper::AlignOverlaps_]. *)
Definition AlignOverlaps_ (targetSeqs : SeqDBReaderCached) (querySeq : FastaSequenceId)
    (overlaps : list Overlap) (alignBandwidth alignMaxDiff : double)
  : Result (list Overlap) :=
  let reverseQuerySeq :=
    ReverseComplement (Bases querySeq) 0 (Z.of_nat (length (Bases querySeq))) in
  AlignOverlaps_loop targetSeqs querySeq reverseQuerySeq overlaps
    alignBandwidth alignMaxDiff [].

(** [Mapper::Map]: the overlaps of the result. *)
Definition Map (settings_ : OverlapHifiSettings) (targetSeqs : SeqDBReaderCached)
    (index : SeedIndex) (querySeq : FastaSequenceId) (querySeeds : list SeedRaw)
    (freqCutoff : Z) : Result (list Overlap) :=
  if Z.of_nat (length (Bases querySeq)) <? MinQueryLen settings_ then mret []
  else
    collected ← CollectHits index querySeeds freqCutoff;
    let hits := std_sort_hits collected.1 in
    overlaps ← FormDiagonalAnchors_ hits querySeq (seedDBCache_ index)
                 (ChainBandwidth settings_) (MinNumSeeds settings_)
                 (MinChainSpan settings_) true (SkipSymmetricOverlaps settings_);
    (* Filter out multiple hits per query-target pair by taking only the
       longest overlap chain. *)
    let overlaps :=
      if OneHitPerTarget settings_ then FilterTandemOverlaps_ overlaps else overlaps in
    overlaps ← AlignOverlaps_ targetSeqs querySeq overlaps
                 (AlignmentBandwidth settings_) (AlignmentMaxD settings_);
    mret (FilterOverlaps_ overlaps (MinNumSeeds settings_) (MinIdentity settings_)
            (MinMappedLength settings_) (MinQueryLen settings_)
            (MinTargetLen settings_)).

End MapperStages.

(* ===================================================================== *)
(** ** Header lookup ([ComputeSeedDBIndexHeaderLookup]) *)
(* ===================================================================== *)

(** [HeaderLookupType]: a hash map from a header to an ordinal id. *)
Abbreviation HeaderLookupType := (gmap Str Z).

(** [for (int32_t i = 0; i < numRecords; ++i)
       headerToOrdinalId[sl.header] = i;] from [i] on, over the lines that
    are left. *)
Fixpoint HeaderLookup_loop (sls : list SeedDBSeedsLine) (i numRecords : Z)
    (headerToOrdinalId : HeaderLookupType) : HeaderLookupType :=
  match sls with
  | [] => headerToOrdinalId
  | sl :: sls' =>
      if i <? numRecords then
        HeaderLookup_loop sls' (i + 1) numRecords (<[sl_header sl := i]> headerToOrdinalId)
      else headerToOrdinalId
  end.

(** [ComputeSeedDBIndexHeaderLookup]: the map it leaves in
    [headerToOrdinalId], which it clears first. *)
Definition ComputeSeedDBIndexHeaderLookup (dbCache : SeedDBIndexCache) : HeaderLookupType :=
  let numRecords := wrap32 (Z.of_nat (length (seedLines dbCache))) in
  HeaderLookup_loop (seedLines dbCache) 0 numRecords ∅.

(* ===================================================================== *)
(** ** SeqDB writer ([src/seqdb/SeqDBWriterCompressed.cpp]) *)
(* ===================================================================== *)

(** A byte of a sequence file, as the [char] it is written from. *)
Definition uint8 : Type := ascii.

(** [Range]: the two members the index prints. *)
Record Range : Type := mkRange {
  rg_start : Z;     (* int32_t *)
  rg_end : Z        (* int32_t *)
}.

(** [SeqDBFileLine] and [SeqDBSequenceLine] ([SeqDBWriterCompressed.h] and
    its includes, missing): the members the writer reads and writes, with
    the types its [fprintf] formats give them.  The counters of a new file
    line start at 0, as those of [SeedDBFileLine] do in [SeedDBWriter.h]. *)
Record SeqDBFileLine : Type := mkSeqDBFileLine {
  sfl_fileId : Z;                  (* int32_t *)
  sfl_filename : Str;
  sfl_numSequences : Z;            (* int32_t *)
  sfl_numBytes : Z;                (* int64_t *)
  sfl_numUncompressedBases : Z;    (* int64_t *)
  sfl_numCompressedBases : Z       (* int64_t *)
}.

Record SeqDBSequenceLine : Type := mkSeqDBSequenceLine {
  ssl_seqId : Z;                   (* int32_t *)
  ssl_header : Str;
  ssl_fileId : Z;                  (* int32_t *)
  ssl_fileOffset : Z;              (* int64_t *)
  ssl_numBytes : Z;                (* int32_t *)
  ssl_numBases : Z;                (* int32_t *)
  ssl_ranges : list Range
}.

(** A file opened for writing: its path and the bytes written to it so
    far.  A [FILE*] is the position of its file in the list of the files
    opened so far. *)
Record OutFile : Type := mkOutFile {
  of_path : Str;
  of_bytes : list uint8
}.

(** What the writer takes from headers that are not among the sources:
    [JoinPath] of [pacbio/seqdb/Util.h], the four getters of a
    [CompressedSequence] built from a sequence, and the value of the
    member [version_].  ([SplitPath] is the one of [CacheHeader];
    [OpenFile] and the constructor of [CompressedSequence] are taken to
    succeed.) *)
Class SeqDBHeader : Type := {
  JoinPath : Str -> Str -> Str;
  GetTwobit : Str -> list uint8;
  GetRanges : Str -> list Range;
  GetNumUncompressedBases : Str -> Z;
  GetNumCompressedBases : Str -> Z;
  version_ : Str
}.

(** The members of the writer, and the files it has opened.  The two
    totals are taken to start at 0 and the two file pointers to start
    null. *)
Record SeqDBWriterCompressed : Type := mkWriter {
  filenamePrefix_ : Str;
  parentFolder_ : Str;
  basenamePrefix_ : Str;
  useCompression_ : bool;
  flushSizeBytes_ : Z;             (* int64_t *)
  fileBlockSize_ : Z;              (* int64_t *)
  fileLines_ : list SeqDBFileLine;
  seqLines_ : list SeqDBSequenceLine;
  seqBuffer_ : list uint8;
  totalOutSeqs_ : Z;
  totalOutBytes_ : Z;
  outIndexFilename_ : Str;
  fpOutIndex_ : option nat;
  fpOutSeqs_ : option nat;
  files_ : list OutFile
}.

(** The three [std::runtime_error]s of the file, and the
    [std::length_error] of [reserve]. *)
Inductive WriterError : Type :=
| NoSequenceFiles         (* "There are no output sequence files open." *)
| SequenceFileNotOpen     (* "Cannot write sequences because a sequence file is not open." *)
| IndexFileNotOpen        (* "Cannot write the index because an output file is not open." *)
| ReserveLengthError.

Inductive Outcome (A : Type) : Type :=
| Done (a : A)
| Fail (e : WriterError).
Arguments Done {A} a.
Arguments Fail {A} e.

#[export] Instance Outcome_ret : MRet Outcome := fun A a => Done a.
#[export] Instance Outcome_bind : MBind Outcome := fun A B f m =>
  match m with
  | Done a => f a
  | Fail e => Fail e
  end.

(** [fwrite]/[fprintf] through the handle [fp]: the bytes go to the end
    of its file. *)
Definition write_to (files : list OutFile) (fp : nat) (bytes : list uint8) : list OutFile :=
  match files !! fp with
  | Some f => <[fp := mkOutFile (of_path f) (of_bytes f ++ bytes)]> files
  | None => files
  end.

Section SeqDBWriter.
Context `{CacheHeader} `{SeqDBHeader}.

Definition set_files (w : SeqDBWriterCompressed) (fileLines : list SeqDBFileLine)
    (seqLines : list SeqDBSequenceLine) (seqBuffer : list uint8)
    (totalOutSeqs totalOutBytes : Z) (fpOutSeqs : option nat) (files : list OutFile)
  : SeqDBWriterCompressed :=
  mkWriter (filenamePrefix_ w) (parentFolder_ w) (basenamePrefix_ w) (useCompression_ w)
    (flushSizeBytes_ w) (fileBlockSize_ w) fileLines seqLines seqBuffer
    totalOutSeqs totalOutBytes (outIndexFilename_ w) (fpOutIndex_ w) fpOutSeqs files.

(** [SeqDBWriterCompressed::OpenNewSequenceFile_]. *)
Definition OpenNewSequenceFile_ (w : SeqDBWriterCompressed) : SeqDBWriterCompressed :=
  (* Register a new file object. *)
  let fileLine :=
    mkSeqDBFileLine (wrap32 (Z.of_nat (length (fileLines_ w))))
      (basenamePrefix_ w ++ lit ".seqdb." ++ print_Z (Z.of_nat (length (fileLines_ w)))
       ++ lit ".seq")
      0 0 0 0 in
  (* Open the new file and return the pointer. *)
  set_files w (fileLines_ w ++ [fileLine]) (seqLines_ w) (seqBuffer_ w)
    (totalOutSeqs_ w) (totalOutBytes_ w) (Some (length (files_ w)))
    (files_ w ++ [mkOutFile (JoinPath (parentFolder_ w) (sfl_filename fileLine)) []]).

(** [SeqDBWriterCompressed::OpenNewIndexFile_]. *)
Definition OpenNewIndexFile_ (w : SeqDBWriterCompressed) : SeqDBWriterCompressed :=
  let outIndexFilename := filenamePrefix_ w ++ lit ".seqdb" in
  mkWriter (filenamePrefix_ w) (parentFolder_ w) (basenamePrefix_ w) (useCompression_ w)
    (flushSizeBytes_ w) (fileBlockSize_ w) (fileLines_ w) (seqLines_ w) (seqBuffer_ w)
    (totalOutSeqs_ w) (totalOutBytes_ w) outIndexFilename (Some (length (files_ w)))
    (fpOutSeqs_ w) (files_ w ++ [mkOutFile outIndexFilename []]).

(** [SeqDBWriterCompressed::WriteSequences]: the writer and the returned
    flag ([fwrite] is taken to write all it is given). *)
Definition WriteSequences (w : SeqDBWriterCompressed)
  : Outcome (SeqDBWriterCompressed * bool) :=
  match fpOutSeqs_ w with
  | None => Fail SequenceFileNotOpen
  | Some fp =>
      mret (set_files w (fileLines_ w) (seqLines_ w) (seqBuffer_ w) (totalOutSeqs_ w)
              (totalOutBytes_ w) (fpOutSeqs_ w) (write_to (files_ w) fp (seqBuffer_ w)),
            true)
  end.

(** [SeqDBWriterCompressed::ClearSequenceBuffer]. *)
Definition ClearSequenceBuffer (w : SeqDBWriterCompressed) : SeqDBWriterCompressed :=
  set_files w (fileLines_ w) (seqLines_ w) [] (totalOutSeqs_ w) (totalOutBytes_ w)
    (fpOutSeqs_ w) (files_ w).

(** [SeqDBWriterCompressed::FlushSequenceBuffer]. *)
Definition FlushSequenceBuffer (w : SeqDBWriterCompressed) : Outcome SeqDBWriterCompressed :=
  r ← WriteSequences w;
  mret (ClearSequenceBuffer r.1).

(** The constructor (and [CreateSeqDBWriterCompressed]). *)
Definition SeqDBWriterCompressed_new (filenamePrefix : Str) (useCompression : bool)
    (flushSize fileBlockSize : Z) : Outcome SeqDBWriterCompressed :=
  let w := mkWriter filenamePrefix (SplitPath filenamePrefix).1 (SplitPath filenamePrefix).2
             useCompression flushSize fileBlockSize [] [] [] 0 0 [] None None [] in
  (* seqBuffer_.reserve(flushSizeBytes_) *)
  if flushSize <? 0 then Fail ReserveLengthError
  else mret (OpenNewIndexFile_ (OpenNewSequenceFile_ w)).

(** The bytes [AddSequence] appends to the buffer for a sequence. *)
Definition sequence_bytes (useCompression : bool) (seq : Str) : list uint8 :=
  if useCompression then GetTwobit seq else seq.

(** [SeqDBWriterCompressed::AddSequence] from "int32_t numBytes = 0" on:
    [back] is [fileLines_.back()], [fls] the file lines before it. *)
Definition AddSequence_to (w : SeqDBWriterCompressed) (fls : list SeqDBFileLine)
    (back : SeqDBFileLine) (header seq : Str) : Outcome SeqDBWriterCompressed :=
  (* Add the bases (either compressed or uncompressed), and initialize the
     byte and length values properly. *)
  let bytes := sequence_bytes (useCompression_ w) seq in
  let numBytes := wrap32 (Z.of_nat (length bytes)) in
  let ranges :=
    if useCompression_ w then GetRanges seq
    else [mkRange 0 (wrap32 (Z.of_nat (length seq)))] in
  let numUncompressedBases :=
    if useCompression_ w then GetNumUncompressedBases seq else numBytes in
  let numCompressedBases :=
    if useCompression_ w then GetNumCompressedBases seq else numBytes in
  let seqBuffer := seqBuffer_ w ++ bytes in
  (* Create a new index registry object. *)
  let sl :=
    mkSeqDBSequenceLine (wrap32 (Z.of_nat (length (seqLines_ w)))) header
      (sfl_fileId back) (sfl_numBytes back) numBytes (wrap32 (Z.of_nat (length seq)))
      ranges in
  (* Increase counts for the current file. *)
  let back' :=
    mkSeqDBFileLine (sfl_fileId back) (sfl_filename back)
      (wrap32 (sfl_numSequences back + 1))
      (wrap64 (sfl_numBytes back + numBytes))
      (wrap64 (sfl_numUncompressedBases back + numUncompressedBases))
      (wrap64 (sfl_numCompressedBases back + numCompressedBases)) in
  (* Increase the global counts. *)
  let w' :=
    set_files w (fls ++ [back']) (seqLines_ w ++ [sl]) seqBuffer
      (wrap64 (totalOutSeqs_ w + 1)) (wrap64 (totalOutBytes_ w + numBytes))
      (fpOutSeqs_ w) (files_ w) in
  (* Flush the sequences if we reached the buffer size. *)
  if flushSizeBytes_ w <? wrap64 (Z.of_nat (length seqBuffer)) then FlushSequenceBuffer w'
  else mret w'.

(** The last element of a vector and the elements before it. *)
Definition split_back {A} (v : list A) : option (list A * A) :=
  match last v with
  | Some x => Some (removelast v, x)
  | None => None
  end.

(** [SeqDBWriterCompressed::AddSequence]. *)
Definition AddSequence (w : SeqDBWriterCompressed) (header seq : Str)
  : Outcome SeqDBWriterCompressed :=
  match split_back (fileLines_ w) with
  | None => Fail NoSequenceFiles
  | Some (fls, back) =>
      (* Check if we found the file boundary. If so, flush the current
         buffer, and open a new file. *)
      if (fileBlockSize_ w <=? sfl_numBytes back) && (0 <? sfl_numBytes back) then
        w1 ← FlushSequenceBuffer w;
        let w2 := OpenNewSequenceFile_ w1 in
        match split_back (fileLines_ w2) with
        | Some (fls2, back2) => AddSequence_to w2 fls2 back2 header seq
        | None => Fail NoSequenceFiles
        end
      else AddSequence_to w fls back header seq
  end.

(** [SeqDBWriterCompressed::CloseFiles]. *)
Definition CloseFiles (w : SeqDBWriterCompressed) : SeqDBWriterCompressed :=
  mkWriter (filenamePrefix_ w) (parentFolder_ w) (basenamePrefix_ w) (useCompression_ w)
    (flushSizeBytes_ w) (fileBlockSize_ w) (fileLines_ w) (seqLines_ w) (seqBuffer_ w)
    (totalOutSeqs_ w) (totalOutBytes_ w) (outIndexFilename_ w) None None (files_ w).

(** The lines [WriteIndex] prints. *)
Definition index_line_F (f : SeqDBFileLine) : Str :=
  lit "F" ++ [tab] ++ print_Z (sfl_fileId f) ++ [tab] ++ c_str (sfl_filename f)
  ++ [tab] ++ print_Z (sfl_numSequences f) ++ [tab] ++ print_Z (sfl_numBytes f)
  ++ [tab] ++ print_Z (sfl_numCompressedBases f) ++ [nl].

Definition index_ranges (rs : list Range) : Str :=
  [tab] ++ print_Z (Z.of_nat (length rs))
  ++ concat (map (fun r => [tab] ++ print_Z (rg_start r) ++ [tab] ++ print_Z (rg_end r)) rs).

Definition index_line_S (s : SeqDBSequenceLine) : Str :=
  lit "S" ++ [tab] ++ print_Z (ssl_seqId s) ++ [tab] ++ c_str (ssl_header s)
  ++ [tab] ++ print_Z (ssl_fileId s) ++ [tab] ++ print_Z (ssl_fileOffset s)
  ++ [tab] ++ print_Z (ssl_numBytes s) ++ [tab] ++ print_Z (ssl_numBases s)
  ++ index_ranges (ssl_ranges s) ++ [nl].

Definition index_text (w : SeqDBWriterCompressed) : Str :=
  lit "V" ++ [tab] ++ c_str version_ ++ [nl]
  ++ lit "C" ++ [tab] ++ print_bool (useCompression_ w) ++ [nl]
  ++ concat (map index_line_F (fileLines_ w))
  ++ concat (map index_line_S (seqLines_ w)).

(** [SeqDBWriterCompressed::WriteIndex]. *)
Definition WriteIndex (w : SeqDBWriterCompressed) : Outcome SeqDBWriterCompressed :=
  match fpOutIndex_ w with
  | None => Fail IndexFileNotOpen
  | Some fp =>
      mret (set_files w (fileLines_ w) (seqLines_ w) (seqBuffer_ w) (totalOutSeqs_ w)
              (totalOutBytes_ w) (fpOutSeqs_ w) (write_to (files_ w) fp (index_text w)))
  end.

(** The destructor. *)
Definition SeqDBWriterCompressed_delete (w : SeqDBWriterCompressed)
  : Outcome SeqDBWriterCompressed :=
  w1 ← FlushSequenceBuffer w;
  WriteIndex w1.

(** A run of [AddSequence] over (header, sequence) pairs. *)
Fixpoint AddSequences (w : SeqDBWriterCompressed) (seqs : list (Str * Str))
  : Outcome SeqDBWriterCompressed :=
  match seqs with
  | [] => mret w
  | (header, seq) :: seqs' =>
      w' ← AddSequence w header seq;
      AddSequences w' seqs'
  end.

End SeqDBWriter.

(* ===================================================================== *)
(** * Properties *)
(* ===================================================================== *)

(** ** Conversions of integers to floats *)

Section FloatFacts.
Import SpecFloat.
Variables prec emax : Z.
Hypothesis Hprec : 0 < prec.
Hypothesis Hemin : emin prec emax <= 0.

Lemma iter_pos_nat {A} (f : A -> A) (p : positive) (x : A) :
  iter_pos f p x = Nat.iter (Pos.to_nat p) f x.
Proof.
  revert x. induction p as [p IH | p IH |]; intros x; cbn [iter_pos].
  - rewrite !IH, Pos2Nat.inj_xI.
    rewrite <- Nat.iter_succ_r, <- Nat.iter_add. f_equal. lia.
  - rewrite !IH, Pos2Nat.inj_xO, <- Nat.iter_add. f_equal. lia.
  - done.
Qed.

Lemma shr_1_m (mrs : shr_record) :
  0 <= shr_m mrs -> shr_m (shr_1 mrs) = shr_m mrs / 2.
Proof.
  destruct mrs as [m r s_]. simpl. intros Hm.
  destruct m as [|[p|p|]|p]; simpl; [done | | | done | lia].
  - apply Z.div_unique with 1; lia.
  - apply Z.div_unique with 0; lia.
Qed.

Lemma shr_iter_m (n : nat) (mrs : shr_record) :
  0 <= shr_m mrs ->
  shr_m (Nat.iter n shr_1 mrs) = shr_m mrs / 2 ^ Z.of_nat n.
Proof.
  intros Hm. induction n as [|n IH].
  - simpl. by rewrite Z.div_1_r.
  - rewrite Nat2Z.inj_succ, Z.pow_succ_r by lia. simpl.
    rewrite shr_1_m, IH.
    + rewrite Z.div_div by lia. f_equal. lia.
    + rewrite IH. apply Z.div_pos; lia.
Qed.

Lemma digits2_pos_bounds (p : positive) :
  2 ^ (Z.pos (digits2_pos p) - 1) <= Z.pos p < 2 ^ Z.pos (digits2_pos p).
Proof.
  induction p as [p IH | p IH |]; simpl digits2_pos.
  - rewrite Pos2Z.inj_succ.
    replace (Z.succ (Z.pos (digits2_pos p)) - 1) with (Z.succ (Z.pos (digits2_pos p) - 1)) by lia.
    rewrite !Z.pow_succ_r by lia. lia.
  - rewrite Pos2Z.inj_succ.
    replace (Z.succ (Z.pos (digits2_pos p)) - 1) with (Z.succ (Z.pos (digits2_pos p) - 1)) by lia.
    rewrite !Z.pow_succ_r by lia. lia.
  - simpl. lia.
Qed.

Lemma shr_record_of_loc_m (m : Z) (l : location) : shr_m (shr_record_of_loc m l) = m.
Proof. by destruct l as [|[]]. Qed.

(** Shifting to the exponent of the format keeps a positive mantissa
    positive as long as the exponent is not below [emin]. *)
Lemma shr_fexp_positive (m : positive) (e : Z) (l : location) :
  emin prec emax <= e ->
  0 < shr_m (shr_fexp prec emax (Z.pos m) e l).1 /\
  emin prec emax <= (shr_fexp prec emax (Z.pos m) e l).2.
Proof.
  intros He. unfold shr_fexp, shr, Zdigits2.
  pose proof (digits2_pos_bounds m) as [Hlo Hhi].
  set (d := Z.pos (digits2_pos m)) in *.
  destruct (fexp prec emax (d + e) - e) as [|k|k] eqn:Hk; cbn [fst snd].
  - rewrite shr_record_of_loc_m. lia.
  - rewrite iter_pos_nat, shr_iter_m by (rewrite shr_record_of_loc_m; lia).
    rewrite shr_record_of_loc_m, positive_nat_Z.
    assert (Z.pos k < d) as Hkd by (unfold fexp in Hk; lia).
    split; [|lia].
    apply Z.div_str_pos. split; [apply Z.pow_pos_nonneg; lia|].
    etrans; [|exact Hlo]. apply Z.pow_le_mono_r; lia.
  - rewrite shr_record_of_loc_m. lia.
Qed.

Lemma round_nearest_even_ge (m : Z) (l : location) : m <= round_nearest_even m l.
Proof. destruct l as [|[]]; simpl; try lia. destruct (Z.even m); lia. Qed.

Lemma binary_round_aux_nonzero (sx : bool) (m : positive) (e : Z) (l : location) :
  emin prec emax <= e ->
  match binary_round_aux prec emax sx (Z.pos m) e l with
  | S754_finite _ _ _ | S754_infinity _ => True
  | _ => False
  end.
Proof.
  intros He. unfold binary_round_aux.
  destruct (shr_fexp_positive m e l He) as [Hm1 He1].
  destruct (shr_fexp prec emax (Z.pos m) e l) as [mrs1 e1]. cbn [fst snd] in *.
  pose proof (round_nearest_even_ge (shr_m mrs1) (loc_of_shr_record mrs1)) as Hr.
  destruct (round_nearest_even (shr_m mrs1) (loc_of_shr_record mrs1)) as [|m2|m2]; try lia.
  destruct (shr_fexp_positive m2 e1 loc_Exact He1) as [Hm3 _].
  destruct (shr_fexp prec emax (Z.pos m2) e1 loc_Exact) as [mrs3 e3]. cbn [fst snd] in *.
  destruct (shr_m mrs3); try lia.
  by destruct (_ <=? _).
Qed.

Lemma binary_round_nonzero (sx : bool) (m : positive) :
  match binary_round prec emax sx m 0 with
  | S754_finite _ _ _ | S754_infinity _ => True
  | _ => False
  end.
Proof.
  unfold binary_round, shl_align.
  destruct (fexp prec emax (Z.pos (digits2_pos m) + 0) - 0) as [|k|k] eqn:Hk;
    apply binary_round_aux_nonzero; unfold fexp in *; lia.
Qed.

(** An integer converts to the float zero only if it is zero. *)
Lemma binary_normalize_eqb_zero (n : Z) :
  SFeqb (binary_normalize prec emax n 0 false) (S754_zero false) = (n =? 0).
Proof.
  destruct n as [|p|p]; simpl; [done | |].
  - pose proof (binary_round_nonzero false p) as Hnz.
    destruct (binary_round prec emax false p 0) as [|[]| |[] ? ?]; done.
  - pose proof (binary_round_nonzero true p) as Hnz.
    destruct (binary_round prec emax true p 0) as [|[]| |[] ? ?]; done.
Qed.

End FloatFacts.

Lemma Float_of_Z_eqb_zero (n : Z) : Float.eqb (Float.of_Z n) (Float.of_Z 0) = (n =? 0).
Proof. apply binary_normalize_eqb_zero; done. Qed.

(** ** Exact double arithmetic on small integers *)

Section DoubleFacts.
Import SpecFloat.

Lemma shr_1_xO (q : positive) :
  shr_1 (Build_shr_record (Z.pos q~0) false false) = Build_shr_record (Z.pos q) false false.
Proof. done. Qed.

Lemma shr_iter_exact (n : nat) (m : positive) :
  Nat.iter n shr_1 (Build_shr_record (Z.pos (Nat.iter n xO m)) false false)
  = Build_shr_record (Z.pos m) false false.
Proof.
  induction n as [|n IH]; [done|].
  rewrite Nat.iter_succ_r.
  change (Nat.iter (S n) xO m) with (xO (Nat.iter n xO m)).
  by rewrite shr_1_xO.
Qed.

Lemma pos_iter_nat {A} (f : A -> A) (x : A) (p : positive) :
  Pos.iter f x p = Nat.iter (Pos.to_nat p) f x.
Proof. exact (Pos2Nat.inj_iter p f x). Qed.

Lemma shr_exact (k m : positive) (e : Z) :
  shr (Build_shr_record (Z.pos (Pos.iter xO m k)) false false) e (Z.pos k)
  = (Build_shr_record (Z.pos m) false false, e + Z.pos k).
Proof.
  unfold shr. by rewrite iter_pos_nat, pos_iter_nat, shr_iter_exact.
Qed.

Lemma digits2_pos_shift (k : nat) (m : positive) :
  Z.pos (digits2_pos (Nat.iter k xO m)) = Z.pos (digits2_pos m) + Z.of_nat k.
Proof.
  induction k as [|k IH]; [simpl; lia|].
  change (Nat.iter (S k) xO m) with (xO (Nat.iter k xO m)).
  cbn [digits2_pos]. rewrite Pos2Z.inj_succ. lia.
Qed.

Lemma pos_shift_value (k : nat) (m : positive) :
  Z.pos (Nat.iter k xO m) = Z.pos m * 2 ^ Z.of_nat k.
Proof.
  induction k as [|k IH]; [simpl; lia|].
  rewrite Nat2Z.inj_succ, Z.pow_succ_r by lia.
  change (Nat.iter (S k) xO m) with (xO (Nat.iter k xO m)). lia.
Qed.

(** A mantissa of 53 digits at an exponent of the format is not rounded. *)
Lemma double_round_canonical (sx : bool) (m : positive) (e : Z) :
  Z.pos (digits2_pos m) = 53 -> -1074 <= e <= 971 ->
  binary_round_aux 53 1024 sx (Z.pos m) e loc_Exact = S754_finite sx m e.
Proof.
  intros Hd He. unfold binary_round_aux, shr_fexp, Zdigits2. rewrite Hd.
  replace (fexp 53 1024 (53 + e) - e) with 0 by (unfold fexp, emin; lia).
  cbn [shr shr_record_of_loc shr_m loc_of_shr_record round_nearest_even].
  unfold Zdigits2. rewrite Hd.
  replace (fexp 53 1024 (53 + e) - e) with 0 by (unfold fexp, emin; lia).
  cbn [shr shr_record_of_loc shr_m].
  destruct (Z.leb_spec e (1024 - 53)); [done|lia].
Qed.

(** The double of an integer below 2^53 holds it exactly: the mantissa is
    the integer shifted up to 53 digits. *)
Lemma Double_of_Z_exact (p : positive) :
  Z.pos p < 2 ^ 53 ->
  exists (k : nat) (m : positive),
    Double.of_Z (Z.pos p) = S754_finite false m (- Z.of_nat k) /\
    m = Nat.iter k xO p /\ Z.pos (digits2_pos m) = 53 /\ (k <= 52)%nat.
Proof.
  intros Hp. pose proof (digits2_pos_bounds p) as [Hlo Hhi].
  assert (Z.pos (digits2_pos p) <= 53) as Hd.
  { destruct (Z.le_gt_cases (Z.pos (digits2_pos p)) 53) as [?|Hgt]; [done|].
    assert (2 ^ 53 <= 2 ^ (Z.pos (digits2_pos p) - 1)) by (apply Z.pow_le_mono_r; lia).
    lia. }
  unfold Double.of_Z, Double.prec, Double.emax, binary_normalize, binary_round, shl_align.
  replace (fexp 53 1024 (Z.pos (digits2_pos p) + 0)) with (Z.pos (digits2_pos p) - 53)
    by (unfold fexp, emin; lia).
  destruct (Z.pos (digits2_pos p) - 53 - 0) as [|k|k] eqn:Hk; [|lia|].
  - exists 0%nat, p. rewrite double_round_canonical by lia.
    split; [done|]. split; [done|]. split; lia.
  - exists (Pos.to_nat k), (Nat.iter (Pos.to_nat k) xO p).
    rewrite pos_iter_nat.
    pose proof (digits2_pos_shift (Pos.to_nat k) p) as Hshift.
    rewrite positive_nat_Z in *.
    rewrite double_round_canonical by lia.
    split; [f_equal; lia|]. split; [done|]. split; lia.
Qed.

Lemma Double_one : Double.of_Z 1 = S754_finite false 4503599627370496 (-52).
Proof. done. Qed.

(** Multiplying such a double by 1.0 gives it back. *)
Lemma Double_mul_one (m : positive) (e : Z) :
  Z.pos (digits2_pos m) = 53 -> -52 <= e <= 0 ->
  Double.mul (S754_finite false m e) (Double.of_Z 1) = S754_finite false m e.
Proof.
  intros Hd He. rewrite Double_one. unfold Double.mul, SFmul. cbn [xorb].
  rewrite Pos.mul_comm.
  change (4503599627370496 * m)%positive with (Pos.iter xO m 52).
  unfold Double.prec, Double.emax, binary_round_aux, shr_fexp, Zdigits2.
  rewrite pos_iter_nat.
  rewrite (digits2_pos_shift (Pos.to_nat 52) m), Hd.
  change (Z.of_nat (Pos.to_nat 52)) with 52.
  replace (fexp 53 1024 (53 + 52 + (e + -52)) - (e + -52)) with (Z.pos 52)
    by (unfold fexp, emin; lia).
  cbn [shr_record_of_loc]. rewrite <- pos_iter_nat, shr_exact.
  cbn [shr_m loc_of_shr_record round_nearest_even].
  unfold Zdigits2. rewrite Hd.
  replace (fexp 53 1024 (53 + (e + -52 + 52)) - (e + -52 + 52)) with 0
    by (unfold fexp, emin; lia).
  cbn [shr shr_record_of_loc shr_m].
  destruct (Z.leb_spec (e + -52 + 52) (1024 - 53)); [|lia].
  f_equal. lia.
Qed.

(** The rank [floor(N * (1.0 - 0.0))] is [N]. *)
Lemma cutoff_rank_zero (N : Z) :
  0 < N < 2 ^ 53 -> cutoff_rank N (Double.of_Z 0) = Some N.
Proof.
  intros HN. unfold cutoff_rank.
  change (Double.sub (Double.of_Z 1) (Double.of_Z 0)) with (Double.of_Z 1).
  destruct N as [|p|p]; try lia.
  destruct (Double_of_Z_exact p) as (k & m & -> & Hm & Hd & Hk); [lia|].
  rewrite Double_mul_one by lia.
  unfold floor_to_int64, float_floor.
  assert (Z.pos m = Z.pos p * 2 ^ Z.of_nat k) as Hval
    by (rewrite Hm; apply pos_shift_value).
  assert ((if 0 <=? - Z.of_nat k then Z.pos m * 2 ^ (- Z.of_nat k)
           else Z.pos m / 2 ^ (- - Z.of_nat k)) = Z.pos p) as ->.
  { destruct (Z.leb_spec 0 (- Z.of_nat k)).
    - assert (k = 0%nat) as -> by lia. simpl in *. lia.
    - rewrite Z.opp_involutive, Hval. apply Z.div_mul.
      apply Z.pow_nonzero; lia. }
  unfold INT64_MIN, INT64_MAX.
  destruct (Z.leb_spec (- 2 ^ 63) (Z.pos p)); [|lia].
  destruct (Z.leb_spec (Z.pos p) (2 ^ 63 - 1)); [done|lia].
Qed.

End DoubleFacts.

(** ** The seed index: runs of equal keys *)

Section SeedIndexFacts.
Context `{SeedCodec}.

(** A hash entry [(start, end)] for key [k] over the array [seeds]. *)
Definition entry_ok (seeds : list SeedRaw) (k : Z) (se : Z * Z) : Prop :=
  0 <= se.1 < se.2 /\ se.2 <= Z.of_nat (length seeds) /\
  forall j, se.1 <= j < se.2 ->
    exists w, seeds !! Z.to_nat j = Some w /\ DecodeKey w = k.

(** The keys of the array never decrease from left to right. *)
Definition key_sorted (seeds : list SeedRaw) : Prop :=
  forall (i j : nat) (a b : SeedRaw),
    (i <= j)%nat -> seeds !! i = Some a -> seeds !! j = Some b ->
    DecodeKey a <= DecodeKey b.

(** The loop invariant of [BuildHash_] once [i] seeds are consumed. *)
Record build_inv (seeds : list SeedRaw) (i : Z) (st : BuildState) : Prop := {
  inv_hash : forall k se, bs_hash st !! k = Some se -> entry_ok seeds k se;
  inv_bounds : 0 <= bs_start st <= bs_end st /\ bs_end st = i;
  inv_run : forall j, bs_start st <= j < bs_end st ->
      exists w, seeds !! Z.to_nat j = Some w /\ DecodeKey w = bs_prevKey st;
  inv_first : i = 0 ->
      forall w, seeds !! 0%nat = Some w -> DecodeKey w = bs_prevKey st;
  inv_pos : 0 < i -> bs_start st < bs_end st;
  inv_complete : key_sorted seeds ->
      forall (j : nat) w, Z.of_nat j < i -> seeds !! j = Some w ->
        (DecodeKey w = bs_prevKey st /\ bs_start st <= Z.of_nat j)
        \/ (DecodeKey w < bs_prevKey st /\
            exists se, bs_hash st !! DecodeKey w = Some se /\
                       se.1 <= Z.of_nat j < se.2)
}.

Lemma BuildHash_step_inv seeds (i : nat) st seed :
  seeds !! i = Some seed ->
  build_inv seeds (Z.of_nat i) st ->
  build_inv seeds (Z.of_nat i + 1) (BuildHash_step st (Z.of_nat i) seed).
Proof.
  intros Hi [Hh [Hb He] Hr Hf Hp Hc].
  pose proof (lookup_lt_Some _ _ _ Hi) as Hlen.
  unfold BuildHash_step.
  destruct (Z.eqb_spec (DecodeKey seed) (bs_prevKey st)) as [Heq | Hne].
  - split; simpl.
    + exact Hh.
    + lia.
    + intros j Hj. destruct (Z.eq_dec j (Z.of_nat i)) as [-> | Hji].
      * exists seed. by rewrite Nat2Z.id.
      * destruct (Hr j) as (w & Hw & Hk); [lia|]. exists w. split; [done | congruence].
    + lia.
    + lia.
    + intros Hs j w Hj Hw.
      destruct (Z.eq_dec (Z.of_nat j) (Z.of_nat i)) as [Hji | Hji].
      * apply Nat2Z.inj in Hji. subst j. left. split; [congruence | lia].
      * destruct (Hc Hs j w) as [[Hk Hlo] | (Hk & se & Hse & Hin)]; [lia | done | |].
        -- left. split; [congruence | done].
        -- right. split; [lia|]. exists se. rewrite <- Heq in Hk. done.
  - assert (0 < Z.of_nat i) as Hi0.
    { destruct i as [|i']; [|lia]. exfalso. apply Hne. by apply Hf. }
    specialize (Hp Hi0).
    assert (entry_ok seeds (bs_prevKey st) (bs_start st, bs_end st)) as Hnew.
    { repeat split; simpl; [lia | lia | lia |]. exact Hr. }
    split; simpl.
    + intros k se. rewrite lookup_insert_Some.
      intros [[<- <-] | [_ Hk]]; [exact Hnew | by apply Hh].
    + lia.
    + intros j Hj. assert (j = Z.of_nat i) as -> by lia.
      exists seed. by rewrite Nat2Z.id.
    + lia.
    + lia.
    + intros Hs j w Hj Hw.
      destruct (Z.eq_dec (Z.of_nat j) (Z.of_nat i)) as [Hji | Hji].
      * apply Nat2Z.inj in Hji. subst j. left. split; [congruence | lia].
      * right.
        assert (DecodeKey w <= DecodeKey seed) as Hle
          by (apply (Hs j i w seed); [lia | done | done]).
        assert (bs_prevKey st <= DecodeKey seed) as Hprev.
        { destruct (Hr (Z.of_nat i - 1)) as (w' & Hw' & <-); [lia|].
          apply (Hs (Z.to_nat (Z.of_nat i - 1)) i w' seed); [lia | done | done]. }
        destruct (Hc Hs j w) as [[Hk Hlo] | (Hk & se & Hse & Hin)]; [lia | done | |].
        -- split; [lia|]. exists (bs_start st, bs_end st).
           rewrite Hk, lookup_insert_eq. split; [done | simpl; lia].
        -- split; [lia|]. exists se.
           rewrite lookup_insert_ne by lia. done.
Qed.

Lemma BuildHash_loop_inv seeds : forall rest done_ st,
  seeds = done_ ++ rest ->
  build_inv seeds (Z.of_nat (length done_)) st ->
  build_inv seeds (Z.of_nat (length seeds))
    (BuildHash_loop st (Z.of_nat (length done_)) rest).
Proof.
  induction rest as [|seed rest IH]; intros done_ st Hs Hinv; simpl.
  - rewrite app_nil_r in Hs. subst done_. exact Hinv.
  - specialize (IH (done_ ++ [seed]) (BuildHash_step st (Z.of_nat (length done_)) seed)).
    rewrite length_app in IH. simpl in IH.
    replace (Z.of_nat (length done_ + 1)) with (Z.of_nat (length done_) + 1) in IH by lia.
    apply IH.
    + by rewrite <- app_assoc.
    + apply BuildHash_step_inv; [|done].
      subst seeds. by apply list_lookup_middle.
Qed.

Lemma build_inv_init seed0 rest :
  build_inv (seed0 :: rest) 0 (mkBuildState ∅ 0 0 (DecodeKey seed0)).
Proof.
  split; simpl.
  - intros k se. by rewrite lookup_empty.
  - lia.
  - lia.
  - intros _ w [= ->]. done.
  - lia.
  - lia.
Qed.

(** What [BuildHash_] leaves in [hash_], for an array that is already in
    the order the sort produces. *)
Lemma BuildHash_loop_final seed0 rest :
  let seeds := seed0 :: rest in
  let st := BuildHash_loop (mkBuildState ∅ 0 0 (DecodeKey seed0)) 0 seeds in
  let hash := <[bs_prevKey st := (bs_start st, bs_end st)]> (bs_hash st) in
  bs_start st < bs_end st /\
  (forall k se, hash !! k = Some se -> entry_ok seeds k se) /\
  (key_sorted seeds -> forall (j : nat) w, seeds !! j = Some w ->
     exists se, hash !! DecodeKey w = Some se /\ se.1 <= Z.of_nat j < se.2).
Proof.
  intros seeds st hash.
  assert (build_inv seeds (Z.of_nat (length seeds)) st) as [Hh [Hb He] Hr Hf Hp Hc]
    by exact (BuildHash_loop_inv seeds seeds [] _ eq_refl (build_inv_init seed0 rest)).
  assert (0 < Z.of_nat (length seeds)) as Hn by (simpl; lia).
  specialize (Hp Hn).
  split; [done|]. split.
  - intros k se. unfold hash. rewrite lookup_insert_Some.
    intros [[<- <-] | [_ Hk]]; [|by apply Hh].
    repeat split; cbn [fst snd]; [lia | lia | lia | exact Hr].
  - intros Hs j w Hw. pose proof (lookup_lt_Some _ _ _ Hw) as Hj.
    destruct (Hc Hs j w) as [[Hk Hlo] | (Hk & se & Hse & Hin)]; [lia | done | |].
    + exists (bs_start st, bs_end st). unfold hash.
      rewrite Hk, lookup_insert_eq. split; [done | cbn [fst snd]; lia].
    + exists se. unfold hash. rewrite lookup_insert_ne by lia. done.
Qed.

Lemma radix_sort_Permutation (v : list Z) : radix_sort v ≡ₚ v.
Proof. apply merge_sort_Permutation. Qed.

Lemma radix_sort_length (v : list Z) : length (radix_sort v) = length v.
Proof. apply Permutation_length, radix_sort_Permutation. Qed.

Lemma radix_sort_StronglySorted (v : list Z) : StronglySorted Z.le (radix_sort v).
Proof. apply StronglySorted_merge_sort; apply _. Qed.

Lemma StronglySorted_lookup_le (l : list Z) : StronglySorted Z.le l ->
  forall (i j : nat) a b, (i <= j)%nat -> l !! i = Some a -> l !! j = Some b -> a <= b.
Proof.
  induction 1 as [|x l Hl IH Hx]; intros i j a b Hij Ha Hb; [done|].
  destruct i as [|i], j as [|j]; simpl in *; simplify_eq; try lia.
  - rewrite Forall_lookup in Hx. eauto.
  - eapply IH; [|done..]. lia.
Qed.

Lemma radix_sort_key_sorted (v : list SeedRaw) : key_sorted (radix_sort v).
Proof.
  intros i j a b Hij Ha Hb. apply DecodeKey_mono.
  eapply StronglySorted_lookup_le; eauto using radix_sort_StronglySorted.
Qed.

(** The index the constructor builds: the sorted array and a hash of
    valid, complete runs. *)
Lemma SeedIndex_new_spec cache (seeds : list SeedRaw) :
  let idx := SeedIndex_new cache seeds in
  seedDBCache_ idx = cache /\
  seeds_ idx ≡ₚ seeds /\
  (forall k se, hash_ idx !! k = Some se -> entry_ok (seeds_ idx) k se) /\
  (forall (j : nat) w, seeds_ idx !! j = Some w ->
     exists se, hash_ idx !! DecodeKey w = Some se /\ se.1 <= Z.of_nat j < se.2).
Proof.
  unfold SeedIndex_new, BuildHash_.
  destruct seeds as [|a seeds'].
  { simpl. split; [done|]. split; [done|]. split; [intros k se | intros j w]; done. }
  cbv beta iota zeta.
  pose proof (radix_sort_Permutation (a :: seeds')) as Hperm.
  pose proof (radix_sort_key_sorted (a :: seeds')) as Hsorted.
  destruct (radix_sort (a :: seeds')) as [|seed0 rest] eqn:Hsort.
  { by apply Permutation_nil_l in Hperm. }
  destruct (BuildHash_loop_final seed0 rest) as (Hlt & Hok & Hcomp).
  match goal with
  | |- context [if ?c then _ else _] =>
      replace c with true by (symmetry; apply Z.ltb_lt; exact Hlt)
  end.
  cbn [seedDBCache_ seeds_ hash_].
  split; [done|]. split; [done|]. split; [exact Hok|].
  intros j w Hw. by apply Hcomp.
Qed.

Lemma slice_lookup {A} (v : list A) (start end_ : Z) (i : nat) (x : A) :
  0 <= start -> slice v start end_ !! i = Some x ->
  start + Z.of_nat i < end_ /\ v !! Z.to_nat (start + Z.of_nat i) = Some x.
Proof.
  intros Hs. unfold slice. rewrite lookup_take.
  case_decide as Hi; [|done]. rewrite lookup_drop. intros Hx.
  split; [lia|]. rewrite <- Hx. f_equal. lia.
Qed.

Lemma lookup_slice {A} (v : list A) (start end_ : Z) (j : Z) (x : A) :
  0 <= start <= j -> j < end_ -> v !! Z.to_nat j = Some x ->
  slice v start end_ !! Z.to_nat (j - start) = Some x.
Proof.
  intros Hs Hj Hx. unfold slice. rewrite lookup_take_lt by lia.
  rewrite lookup_drop. rewrite <- Hx. f_equal. lia.
Qed.

Lemma slice_length {A} (v : list A) (start end_ : Z) :
  0 <= start <= end_ -> end_ <= Z.of_nat (length v) ->
  Z.of_nat (length (slice v start end_)) = end_ - start.
Proof.
  intros Hs He. unfold slice. rewrite length_take, length_drop. lia.
Qed.

(** ** C1 *)

(** C1.  For every seed index built from a seed array, every hash entry
    [(start, end)] satisfies [0 <= start < end <= len(seeds)] and all seeds
    in [[start, end)] decode to the key of the entry; so for every key [k]
    all elements of [GetSeeds k] decode to [k], their number is the
    returned count, and the slice is empty when [k] is not in the hash,
    which is the case whenever no seed of the array decodes to [k]. *)
Theorem C1_seed_index_runs cache (seeds : list SeedRaw) :
  let idx := SeedIndex_new cache seeds in
  (forall k start end_, hash_ idx !! k = Some (start, end_) ->
     0 <= start < end_ /\ end_ <= Z.of_nat (length (seeds_ idx)) /\
     Z.of_nat (length (seeds_ idx)) = Z.of_nat (length seeds) /\
     forall j, start <= j < end_ ->
       exists w, seeds_ idx !! Z.to_nat j = Some w /\ DecodeKey w = k) /\
  (forall k, Forall (fun w => DecodeKey w = k) (GetSeeds idx k).2) /\
  (forall k, (GetSeeds idx k).1 = Z.of_nat (length (GetSeeds idx k).2)) /\
  (forall k, hash_ idx !! k = None -> GetSeeds idx k = (0, [])) /\
  (forall k, (forall w, w ∈ seeds -> DecodeKey w <> k) -> hash_ idx !! k = None).
Proof.
  intros idx.
  destruct (SeedIndex_new_spec cache seeds) as (_ & Hperm & Hok & _).
  fold idx in Hperm, Hok.
  split; [|split; [|split; [|split]]].
  - intros k start end_ Hk. destruct (Hok _ _ Hk) as (Hb & He & Hrun); simpl in *.
    repeat split; try lia; [|exact Hrun].
    f_equal. by apply Permutation_length.
  - intros k. unfold GetSeeds.
    destruct (hash_ idx !! k) as [[start end_]|] eqn:Hk; simpl; [|constructor].
    destruct (Hok _ _ Hk) as (Hb & He & Hrun); simpl in *.
    apply Forall_lookup. intros i w Hw.
    apply slice_lookup in Hw as [Hlt Hw]; [|lia].
    destruct (Hrun (start + Z.of_nat i)) as (w' & Hw' & Hkey); [lia|].
    congruence.
  - intros k. unfold GetSeeds.
    destruct (hash_ idx !! k) as [[start end_]|] eqn:Hk; simpl; [|done].
    destruct (Hok _ _ Hk) as (Hb & He & _); simpl in *.
    rewrite slice_length; lia.
  - intros k Hk. unfold GetSeeds. by rewrite Hk.
  - intros k Hno. destruct (hash_ idx !! k) as [[start end_]|] eqn:Hk; [|done].
    destruct (Hok _ _ Hk) as (Hb & He & Hrun); simpl in *.
    destruct (Hrun start) as (w & Hw & Hkey); [lia|].
    exfalso. apply (Hno w); [|done].
    rewrite <- Hperm. apply list_elem_of_lookup. eauto.
Qed.

End SeedIndexFacts.

(** ** Hit collection *)

Lemma wrap32_id (x : Z) : in_int32 x -> wrap32 x = x.
Proof.
  unfold in_int32, wrap32, wrap. intros Hx.
  change (2 ^ (32 - 1)) with 2147483648. change (2 ^ 32) with 4294967296.
  change (2 ^ 31) with 2147483648 in Hx.
  rewrite Z.mod_small; lia.
Qed.

Lemma wrap32_range (x : Z) : in_int32 (wrap32 x).
Proof.
  unfold in_int32, wrap32, wrap.
  change (2 ^ (32 - 1)) with 2147483648. change (2 ^ 32) with 4294967296.
  change (2 ^ 31) with 2147483648.
  pose proof (Z.mod_pos_bound (x + 2147483648) 4294967296). lia.
Qed.

Section CollectHitsFacts.
Context `{SeedCodec}.

(** The hit [CollectHits] derives from query seed [q] and target seed [t]. *)
Definition hit_for (cache : SeedDBIndexCache) (q t : SeedRaw) (hit : SeedHit) : Prop :=
  targetId hit = DecodeSeqId t /\ flags hit = 0 /\ queryPos hit = DecodePos q /\
  (DecodeIsRev q <> DecodeIsRev t ->
     targetRev hit = true /\
     exists sl, GetSeedsLine cache (DecodeSeqId t) = Ok sl /\
       let kmerSize := KmerSize (seedParams cache) in
       targetPos hit = wrap32 (sl_numBases sl - wrap32 (DecodePos t + kmerSize)) /\
       (in_int32 (DecodePos t + kmerSize) ->
        in_int32 (sl_numBases sl - (DecodePos t + kmerSize)) ->
        targetPos hit = sl_numBases sl - (DecodePos t + kmerSize))) /\
  (DecodeIsRev q = DecodeIsRev t ->
     targetRev hit = false /\ targetPos hit = DecodePos t).

Lemma CollectHits_target_hit_for cache q t hit :
  CollectHits_target cache (KmerSize (seedParams cache)) (Seed_of_raw q) t = Ok hit ->
  hit_for cache q t hit.
Proof.
  unfold CollectHits_target, hit_for, Seed_of_raw, Seed.IsRev. cbn [Seed.flag Seed.seqID Seed.pos].
  destruct (DecodeIsRev q) eqn:Hq, (DecodeIsRev t) eqn:Ht; cbn [eqb negb].
  all: try (destruct (GetSeedsLine cache (DecodeSeqId t)) as [sl|e] eqn:Hsl; [|done]).
  all: unfold mbind, Result_bind, mret, Result_ret; intros [= <-].
  all: cbn [targetId targetRev targetPos flags queryPos].
  all: split; [done|]; split; [done|]; split; [done|]; split; [|done].
  all: try done; intros _.
  all: split; [done|]; exists sl; split; [done|]; split; [done|].
  all: intros H1 H2; by rewrite (wrap32_id _ H1), (wrap32_id _ H2).
Qed.

Lemma CollectHits_bucket_spec cache kmerSize dq : forall bucket hits0 hits,
  CollectHits_bucket cache kmerSize dq bucket hits0 = Ok hits ->
  exists new, hits = hits0 ++ new /\
    Forall2 (fun t hit => CollectHits_target cache kmerSize dq t = Ok hit) bucket new.
Proof.
  induction bucket as [|t bucket IH]; intros hits0 hits; simpl.
  - intros [= <-]. exists []. by rewrite app_nil_r.
  - destruct (CollectHits_target cache kmerSize dq t) as [hit|e] eqn:Ht; [|done].
    cbn. intros Hrest. destruct (IH _ _ Hrest) as (new & -> & Hnew).
    exists (hit :: new). split; [by rewrite <- app_assoc | by constructor].
Qed.

(** The bucket of a query seed that the frequency filter lets through. *)
Definition bucket_of (idx : SeedIndex) (freqCutoff : Z) (q : SeedRaw) : list SeedRaw :=
  match hash_ idx !! DecodeKey q with
  | Some (start, end_) =>
      if (0 <? freqCutoff) && (freqCutoff <? end_ - start) then []
      else slice (seeds_ idx) start end_
  | None => []
  end.

Lemma CollectHits_loop_spec idx freqCutoff : forall querySeeds hits0 hits,
  CollectHits_loop idx (KmerSize (seedParams (seedDBCache_ idx))) freqCutoff
    querySeeds hits0 = Ok hits ->
  exists news, hits = hits0 ++ concat news /\
    Forall2 (fun q new =>
      Forall2 (fun t hit =>
        CollectHits_target (seedDBCache_ idx) (KmerSize (seedParams (seedDBCache_ idx)))
          (Seed_of_raw q) t = Ok hit) (bucket_of idx freqCutoff q) new)
      querySeeds news.
Proof.
  induction querySeeds as [|q qs IH]; intros hits0 hits; simpl.
  - intros [= <-]. exists []. simpl. by rewrite app_nil_r.
  - unfold bucket_of at 1. cbn [Seed_of_raw Seed.key].
    destruct (hash_ idx !! DecodeKey q) as [[start end_]|] eqn:Hq.
    + destruct ((0 <? freqCutoff) && (freqCutoff <? end_ - start)) eqn:Hskip.
      * intros Hrest. destruct (IH _ _ Hrest) as (news & -> & Hnews).
        exists ([] :: news). split; [done|]. constructor; [|done].
        unfold bucket_of. rewrite Hq, Hskip. constructor.
      * destruct (CollectHits_bucket _ _ _ _ hits0) as [hits1|e] eqn:Hb; [|done].
        cbn. intros Hrest.
        apply CollectHits_bucket_spec in Hb as (new & -> & Hnew).
        destruct (IH _ _ Hrest) as (news & -> & Hnews).
        exists (new :: news). split; [simpl; by rewrite <- app_assoc|].
        constructor; [|done]. unfold bucket_of. by rewrite Hq, Hskip.
    + intros Hrest. destruct (IH _ _ Hrest) as (news & -> & Hnews).
      exists ([] :: news). split; [done|]. constructor; [|done].
      unfold bucket_of. rewrite Hq. constructor.
Qed.

(** In a built index the bucket of a key holds every seed of the array
    with that key, unless the frequency filter drops the bucket. *)
Lemma bucket_of_complete cache seeds freqCutoff q t :
  let idx := SeedIndex_new cache seeds in
  t ∈ seeds -> DecodeKey t = DecodeKey q ->
  ~ (0 < freqCutoff < (GetSeeds idx (DecodeKey q)).1) ->
  t ∈ bucket_of idx freqCutoff q.
Proof.
  intros idx Ht Hkey Hfreq.
  destruct (SeedIndex_new_spec cache seeds) as (_ & Hperm & Hok & Hcomp).
  fold idx in Hperm, Hok, Hcomp.
  rewrite <- Hperm in Ht. apply list_elem_of_lookup in Ht as [j Hj].
  destruct (Hcomp j t Hj) as ([start end_] & Hse & Hin). cbn [fst snd] in Hin.
  rewrite Hkey in Hse. unfold GetSeeds in Hfreq. unfold bucket_of.
  rewrite Hse in *. cbn [fst] in Hfreq.
  destruct ((0 <? freqCutoff) && (freqCutoff <? end_ - start)) eqn:Hskip.
  { apply andb_true_iff in Hskip as [H1%Z.ltb_lt H2%Z.ltb_lt]. lia. }
  destruct (Hok _ _ Hse) as (Hb & _). cbn [fst snd] in Hb.
  apply list_elem_of_lookup. exists (Z.to_nat (Z.of_nat j - start)).
  apply lookup_slice; [lia | lia | by rewrite Nat2Z.id].
Qed.

Lemma bucket_of_sound cache seeds freqCutoff q t :
  let idx := SeedIndex_new cache seeds in
  t ∈ bucket_of idx freqCutoff q -> t ∈ seeds /\ DecodeKey t = DecodeKey q.
Proof.
  intros idx. unfold bucket_of.
  destruct (SeedIndex_new_spec cache seeds) as (_ & Hperm & Hok & _).
  fold idx in Hperm, Hok.
  destruct (hash_ idx !! DecodeKey q) as [[start end_]|] eqn:Hse; [|by intros ?%elem_of_nil].
  destruct (_ && _); [by intros ?%elem_of_nil|].
  destruct (Hok _ _ Hse) as (Hb & He & Hrun). cbn [fst snd] in *.
  intros [i Hi]%list_elem_of_lookup.
  apply slice_lookup in Hi as [Hlt Hi]; [|lia].
  destruct (Hrun (start + Z.of_nat i)) as (w & Hw & Hk); [lia|].
  assert (w = t) as -> by congruence.
  split; [|done]. rewrite <- Hperm. apply list_elem_of_lookup. eauto.
Qed.

Lemma Forall2_concat_elem {A B} (P : A -> list B -> Prop) (l : list A) (ks : list (list B)) x :
  Forall2 P l ks -> x ∈ l -> exists k, k ∈ ks /\ P x k.
Proof.
  induction 1 as [|a k l ks HP _ IH]; [by intros ?%elem_of_nil|].
  intros [-> | Hx]%elem_of_cons.
  - exists k. split; [by left | done].
  - destruct (IH Hx) as (k' & Hk' & HP'). exists k'. split; [by right | done].
Qed.

Lemma Forall2_elem_l {A B} (P : A -> B -> Prop) (l : list A) (k : list B) x :
  Forall2 P l k -> x ∈ l -> exists y, y ∈ k /\ P x y.
Proof.
  induction 1 as [|a b l k HP _ IH]; [by intros ?%elem_of_nil|].
  intros [-> | Hx]%elem_of_cons.
  - exists b. split; [by left | done].
  - destruct (IH Hx) as (y & Hy & HP'). exists y. split; [by right | done].
Qed.

Lemma Forall2_elem_r {A B} (P : A -> B -> Prop) (l : list A) (k : list B) y :
  Forall2 P l k -> y ∈ k -> exists x, x ∈ l /\ P x y.
Proof.
  induction 1 as [|a b l k HP _ IH]; [by intros ?%elem_of_nil|].
  intros [-> | Hy]%elem_of_cons.
  - exists a. split; [by left | done].
  - destruct (IH Hy) as (x & Hx & HP'). exists x. split; [by right | done].
Qed.

Lemma elem_of_concat {A} (x : A) (ls : list (list A)) :
  x ∈ concat ls <-> exists l, x ∈ l /\ l ∈ ls.
Proof.
  rewrite list_elem_of_In, in_concat.
  split; intros (l & H1 & H2); exists l; rewrite ?list_elem_of_In in *; done.
Qed.

Lemma BuildHash_singleton (t : SeedRaw) hash :
  BuildHash_ [t] hash = ([t], <[DecodeKey t := (0, 1)]> ∅).
Proof.
  unfold BuildHash_. change (radix_sort [t]) with [t]. cbv zeta.
  cbn [BuildHash_loop]. unfold BuildHash_step. cbn [bs_prevKey].
  rewrite Z.eqb_refl. reflexivity.
Qed.

(** ** C5 *)

(** C5.  For a built index, whenever [CollectHits] returns: every query
    seed and every seed of the array with the same key (whose bucket the
    frequency filter keeps) yield an emitted hit; when the strands differ
    the hit has [isRev = true] and [targetPos = numBases - (rawPos +
    kmerSize)], the target's forward coordinate, and when they agree it has
    [isRev = false] and the raw position; every emitted hit is of this
    kind.  In particular query seed (K, pos 10, forward) against target
    seed (K, seqId 4, pos 20, reverse) with numBases 100 and kmerSize 30
    emits exactly the hit (4, true, 50, queryPos 10). *)
Theorem C5_collect_hits_strand_reflection cache (seeds : list SeedRaw) :
  let idx := SeedIndex_new cache seeds in
  (forall querySeeds freqCutoff hits flag,
     CollectHits idx querySeeds freqCutoff = Ok (hits, flag) ->
     (forall q t, q ∈ querySeeds -> t ∈ seeds -> DecodeKey t = DecodeKey q ->
        ~ (0 < freqCutoff < (GetSeeds idx (DecodeKey q)).1) ->
        exists hit, hit ∈ hits /\ hit_for cache q t hit) /\
     (forall hit, hit ∈ hits ->
        exists q t, q ∈ querySeeds /\ t ∈ seeds /\ DecodeKey t = DecodeKey q /\
                    hit_for cache q t hit)) /\
  (forall K q t sl freqCutoff,
     seeds = [t] ->
     Seed_of_raw q = Seed.mk K (DecodeSeqId q) 10 false ->
     Seed_of_raw t = Seed.mk K 4 20 true ->
     KmerSize (seedParams cache) = 30 ->
     GetSeedsLine cache 4 = Ok sl -> sl_numBases sl = 100 ->
     CollectHits idx [q] freqCutoff = Ok ([mkSeedHit 4 true 50 0 10], true)).
Proof.
  intros idx.
  assert (seedDBCache_ idx = cache) as Hcache
    by (destruct (SeedIndex_new_spec cache seeds) as (Hc & _); exact Hc).
  split.
  - intros querySeeds freqCutoff hits flag. unfold CollectHits.
    destruct (CollectHits_loop _ _ _ _ _) as [hits'|e] eqn:Hloop; [|done].
    cbn. intros [= -> <-].
    apply CollectHits_loop_spec in Hloop as (news & -> & Hnews).
    rewrite Hcache in Hnews. cbn [app]. split.
    + intros q t Hq Ht Hkey Hfreq.
      destruct (Forall2_concat_elem _ _ _ q Hnews Hq) as (new & Hnew & Hb).
      pose proof (bucket_of_complete cache seeds freqCutoff q t Ht Hkey Hfreq) as Hin.
      destruct (Forall2_elem_l _ _ _ t Hb Hin) as (hit & Hhit & Htarget).
      exists hit. split.
      * apply elem_of_concat. eauto.
      * by apply CollectHits_target_hit_for.
    + intros hit [new [Hhit Hnew]]%elem_of_concat.
      destruct (Forall2_elem_r _ _ _ new Hnews Hnew) as (q & Hq & Hb).
      destruct (Forall2_elem_r _ _ _ hit Hb Hhit) as (t & Ht & Htarget).
      apply bucket_of_sound in Ht as [Ht Hkey].
      exists q, t. split; [done|]. split; [done|]. split; [done|].
      by apply CollectHits_target_hit_for.
  - intros K q t sl freqCutoff -> Hq Ht Hk Hsl Hbases.
    injection Hq as HqK HqP HqR. injection Ht as HtK HtS HtP HtR.
    subst idx. unfold CollectHits, SeedIndex_new. rewrite BuildHash_singleton.
    cbn [seedDBCache_ seeds_ hash_ CollectHits_loop Seed_of_raw Seed.key].
    rewrite HqK, HtK, lookup_insert_eq.
    replace ((0 <? freqCutoff) && (freqCutoff <? 1 - 0)) with false
      by (symmetry; apply andb_false_iff;
          destruct (Z.ltb_spec 0 freqCutoff); [right; apply Z.ltb_ge; lia | by left]).
    change (slice [t] 0 1) with [t].
    cbn [CollectHits_bucket]. unfold CollectHits_target, Seed_of_raw, Seed.IsRev.
    cbn [Seed.flag Seed.seqID Seed.pos].
    rewrite HqR, HtR, HtS, HtP, HqP, Hk. cbn [eqb negb].
    rewrite Hsl. cbn. rewrite Hbases. reflexivity.
Qed.

End CollectHitsFacts.

(** ** The target subsequence fetcher *)

Section FetchFacts.
Context `{Collaborators}.

(** The range test of [FetchTargetSubsequence_], as the spec words it. *)
Definition invalid_range (seqStart seqEnd seqLen : Z) : Prop :=
  seqStart < 0 \/ seqEnd < 0 \/ seqStart > seqLen \/ seqEnd > seqLen \/ seqEnd < seqStart.

Lemma invalid_range_test (seqStart seqEnd seqLen : Z) :
  (seqStart <? 0) || (seqEnd <? 0) || (seqLen <? seqStart)
    || (seqLen <? seqEnd) || (seqEnd <? seqStart) = true
  <-> invalid_range seqStart seqEnd seqLen.
Proof.
  unfold invalid_range. rewrite !orb_true_iff, !Z.ltb_lt. lia.
Qed.

(** C7, amended.  The fetcher fails, and then with [InvalidRange], if and
    only if the range is not empty and [start < 0 || end < 0 || start > len
    || end > len || end < start]; every empty range ([start == end]) gives
    the empty string without error, whatever its position. *)
Theorem C7_fetch_target_subsequence (targetSeq : FastaSequenceId)
    (seqStart seqEnd : Z) (revCmp : bool) :
  let seqLen := size32 (Bases targetSeq) in
  (FetchTargetSubsequence_ targetSeq seqStart seqEnd revCmp = Throw InvalidRange
   <-> seqStart <> seqEnd /\ invalid_range seqStart seqEnd seqLen) /\
  (forall e, FetchTargetSubsequence_ targetSeq seqStart seqEnd revCmp = Throw e ->
             e = InvalidRange) /\
  (seqStart = seqEnd ->
   FetchTargetSubsequence_ targetSeq seqStart seqEnd revCmp = Ok []).
Proof.
  intros seqLen. unfold FetchTargetSubsequence_. fold seqLen.
  destruct (Z.eqb_spec seqEnd seqStart) as [-> | Hne].
  - split; [split; [done | intros [Hn _]; by destruct Hn] |].
    split; [done | done].
  - destruct ((seqStart <? 0) || (seqEnd <? 0) || (seqLen <? seqStart)
              || (seqLen <? seqEnd) || (seqEnd <? seqStart)) eqn:Htest.
    + apply invalid_range_test in Htest.
      split; [split; [intros _; split; [congruence | done] | done] |].
      split; [intros e He; congruence | intros He; congruence].
    + assert (~ invalid_range seqStart seqEnd seqLen) as Hok
        by (rewrite <- invalid_range_test, Htest; done).
      split; [split; [destruct revCmp; done | intros [_ Hbad]; done] |].
      split; [intros e; destruct revCmp; done | intros He; congruence].
Qed.

End FetchFacts.

(** C7 as stated fails: an empty range outside the sequence is answered
    with the empty string, not with [InvalidRange]. *)
Lemma C7_empty_range_out_of_bounds_accepted :
  let targetSeq := mkFastaSequenceId 0 (lit "t") (lit "ACGT") in
  let fetch := @FetchTargetSubsequence_ SampleCollaborators in
  invalid_range (-1) (-1) (size32 (Bases targetSeq)) /\
  fetch targetSeq (-1) (-1) false = Ok [] /\
  ~ (fetch targetSeq (-1) (-1) false = Throw InvalidRange
     <-> invalid_range (-1) (-1) (size32 (Bases targetSeq))).
Proof.
  intros targetSeq fetch. split; [left; lia|]. split; [reflexivity|].
  intros [_ Hfail]. discriminate Hfail. left. lia.
Qed.

(** ** Alignment: score and identity *)

Lemma Ok_inj {A} (a b : A) : Ok a = Ok b -> a = b.
Proof. by intros [= ->]. Qed.

Section AlignFacts.
Context `{Collaborators}.

(** Every overlap [AlignOverlap_] returns went through [finalize]. *)
Lemma AlignOverlap_reverse_finalized targetSeq reverseQuerySeq ovl fwd diffsRight
    alignBandwidth alignMaxDiff ret :
  AlignOverlap_reverse targetSeq reverseQuerySeq ovl fwd diffsRight
    alignBandwidth alignMaxDiff = Ok ret ->
  exists pre, ret = finalize pre.
Proof.
  unfold AlignOverlap_reverse.
  repeat match goal with
  | |- context [mbind _ ?m] =>
      let x := fresh "x" in destruct m as [x|] eqn:?; [cbn [mbind Result_bind] | done]
  end.
  intros Hret%Ok_inj. unfold reverse_update in Hret. eauto.
Qed.

Lemma AlignOverlap_finalized targetSeq querySeq reverseQuerySeq ovl
    alignBandwidth alignMaxDiff ret :
  AlignOverlap_ targetSeq querySeq reverseQuerySeq (Some ovl)
    alignBandwidth alignMaxDiff = Ok (Some ret) ->
  exists pre, ret = finalize pre.
Proof.
  unfold AlignOverlap_.
  destruct (AlignOverlap_forward _ _ _ _ _) as [fwd|]; [cbn [mbind Result_bind] | done].
  destruct (AlignOverlap_reverse _ _ _ _ _ _ _) as [r|] eqn:Hrev;
    [cbn [mbind Result_bind] | done].
  intros Hret%Ok_inj. injection Hret as <-.
  by apply AlignOverlap_reverse_finalized in Hrev.
Qed.

(** ** C6 *)

(** C6, amended.  For every overlap the two-pass alignment returns, with
    [span = max(ASpan, BSpan)]: [Score = -span]; when [span <> 0],
    [Identity = 100 * ((span - EditDistance) / span)] in single precision;
    when [span = 0], [Identity = 100 * -2.0 = -200.0] (the factor 100
    multiplies the fallback as well).  In particular [ASpan = BSpan = 1000]
    and [EditDistance = 10] give [Identity = 99.0] and [Score = -1000]. *)
Theorem C6_align_overlap_finalize targetSeq querySeq reverseQuerySeq ovl
    alignBandwidth alignMaxDiff ret :
  AlignOverlap_ targetSeq querySeq reverseQuerySeq (Some ovl)
    alignBandwidth alignMaxDiff = Ok (Some ret) ->
  let span := Z.max (ASpan ret) (BSpan ret) in
  Score ret = Float.of_Z (wrap32 (- span)) /\
  (span <> 0 ->
     Identity ret =
       Float.mul (Float.of_Z 100)
         (Float.div (Float.sub (Float.of_Z span) (Float.of_Z (EditDistance ret)))
                    (Float.of_Z span))) /\
  (span = 0 -> Identity ret = Float.of_Z (-200)) /\
  (ASpan ret = 1000 -> BSpan ret = 1000 -> EditDistance ret = 10 ->
     Identity ret = Float.of_Z 99 /\ Score ret = Float.of_Z (-1000)).
Proof.
  intros [pre ->]%AlignOverlap_finalized span.
  assert (span = Z.max (ASpan pre) (BSpan pre)) as Hspan by done.
  assert (Score (finalize pre) = Float.of_Z (wrap32 (- span))) as Hscore by done.
  assert (Identity (finalize pre) =
          Float.mul (Float.of_Z 100)
            (if negb (span =? 0)
             then Float.div (Float.sub (Float.of_Z span)
                               (Float.of_Z (EditDistance (finalize pre))))
                            (Float.of_Z span)
             else Float.of_Z (-2))) as Hid.
  { rewrite <- Float_of_Z_eqb_zero. done. }
  clearbody span. split; [done|]. split; [|split].
  - intros Hnz. rewrite Hid. apply Z.eqb_neq in Hnz. by rewrite Hnz.
  - intros ->. rewrite Hid. by vm_compute.
  - intros Ha Hb Hd. rewrite Hscore, Hid.
    change (ASpan (finalize pre)) with (ASpan pre) in Ha.
    change (BSpan (finalize pre)) with (BSpan pre) in Hb.
    rewrite Hd, Hspan, Ha, Hb. by vm_compute.
Qed.

End AlignFacts.

(** The anchor of the sample run: query and target differ around it, so
    neither pass extends it. *)
Definition sample_target : FastaSequenceId := mkFastaSequenceId 1 (lit "t") (lit "CCCC").
Definition sample_query : FastaSequenceId := mkFastaSequenceId 0 (lit "q") (lit "AAAA").
Definition sample_anchor : Overlap :=
  mkOverlap 0 1 (Float.of_Z 2) (Float.of_Z 0) false 2 2 4 false 2 2 4 (-1) 2.

Definition sample_aligned : Result (option Overlap) :=
  @AlignOverlap_ SampleCollaborators sample_target sample_query
    (SampleReverseComplement (Bases sample_query) 0 4) (Some sample_anchor)
    (Double.of_Z 1) (Double.of_Z 0).

(** C6 as stated fails: with [span = 0] the identity is -200.0, not -2.0. *)
Lemma C6_zero_span_identity_is_minus_200 :
  exists ret, sample_aligned = Ok (Some ret) /\
    Z.max (ASpan ret) (BSpan ret) = 0 /\
    Identity ret = Float.of_Z (-200) /\
    Identity ret <> Float.of_Z (-2).
Proof. eexists. split; [by vm_compute|]. by vm_compute. Qed.

Lemma C6_align_overlap_finalize_witness :
  exists ret, sample_aligned = Ok (Some ret) /\
    Score ret = Float.of_Z (wrap32 (- Z.max (ASpan ret) (BSpan ret))) /\
    Identity ret = Float.of_Z (-200).
Proof.
  assert (exists ret, sample_aligned = Ok (Some ret)) as [ret Hret]
    by (eexists; by vm_compute).
  exists ret. split; [exact Hret|].
  destruct (@C6_align_overlap_finalize SampleCollaborators _ _ _ _ _ _ _ Hret)
    as (Hscore & _ & Hzero & _).
  split; [exact Hscore|]. apply Hzero.
  unfold sample_aligned in Hret. vm_compute in Hret. injection Hret as <-. reflexivity.
Defined.

(** ** The hit-sort key *)

Lemma land_mul_pow2_small (a b n : Z) :
  0 <= n -> 0 <= b < 2 ^ n -> Z.land (a * 2 ^ n) b = 0.
Proof.
  intros Hn Hb. apply Z.bits_inj'. intros i Hi.
  rewrite Z.land_spec, Z.bits_0.
  destruct (Z.lt_ge_cases i n) as [Hlt | Hge].
  - by rewrite Z.mul_pow2_bits_low.
  - rewrite andb_false_iff. right.
    destruct (Z.eq_dec b 0) as [-> | Hb0]; [apply Z.bits_0|].
    apply Z.bits_above_log2; [lia|].
    assert (Z.log2 b < n) by (apply Z.log2_lt_pow2; lia). lia.
Qed.

Lemma lor_shiftl_add (a b n : Z) :
  0 <= n -> 0 <= b < 2 ^ n -> Z.lor (Z.shiftl a n) b = a * 2 ^ n + b.
Proof.
  intros Hn Hb. rewrite Z.shiftl_mul_pow2 by done.
  pose proof (Z.add_lor_land (a * 2 ^ n) b) as Hadd.
  rewrite land_mul_pow2_small in Hadd by done. lia.
Qed.

Lemma land_MASK_32bit (x : Z) : Z.land x MASK_32bit = x mod 2 ^ 32.
Proof. change MASK_32bit with (Z.ones 32). by rewrite Z.land_ones. Qed.

(** The (targetId, targetRev) slot of the key, read as the signed top 32
    bits of the 128-bit value. *)
Definition hit_group (sh : SeedHit) : Z :=
  wrap32 (2 * targetId sh + Z.b2z (targetRev sh)).

(** The 96 bits below it: diagonal, target position, query position, each
    as an unsigned 32-bit field. *)
Definition hit_low (sh : SeedHit) : Z :=
  (Diagonal sh mod 2 ^ 32) * 2 ^ 64 + (targetPos sh mod 2 ^ 32) * 2 ^ 32
  + queryPos sh mod 2 ^ 32.

Lemma hit_low_range (sh : SeedHit) : 0 <= hit_low sh < 2 ^ 96.
Proof.
  unfold hit_low.
  pose proof (Z.mod_pos_bound (Diagonal sh) (2 ^ 32)).
  pose proof (Z.mod_pos_bound (targetPos sh) (2 ^ 32)).
  pose proof (Z.mod_pos_bound (queryPos sh) (2 ^ 32)).
  change (2 ^ 96) with (2 ^ 32 * 2 ^ 64). change (2 ^ 64) with (2 ^ 32 * 2 ^ 32).
  nia.
Qed.

Lemma wrap128_group (g l : Z) :
  0 <= l < 2 ^ 96 -> wrap128 (g * 2 ^ 96 + l) = wrap32 g * 2 ^ 96 + l.
Proof.
  intros Hl. unfold wrap128, wrap32, wrap.
  change (2 ^ (128 - 1)) with (2 ^ 31 * 2 ^ 96). change (2 ^ (32 - 1)) with (2 ^ 31).
  assert ((g * 2 ^ 96 + l + 2 ^ 31 * 2 ^ 96) mod 2 ^ 128
          = ((g + 2 ^ 31) mod 2 ^ 32) * 2 ^ 96 + l) as ->; [|lia].
  symmetry. apply Z.mod_unique_pos with ((g + 2 ^ 31) / 2 ^ 32).
  - pose proof (Z.mod_pos_bound (g + 2 ^ 31) (2 ^ 32)).
    change (2 ^ 128) with (2 ^ 32 * 2 ^ 96). nia.
  - pose proof (Z.div_mod (g + 2 ^ 31) (2 ^ 32)).
    change (2 ^ 128) with (2 ^ 32 * 2 ^ 96). nia.
Qed.

Lemma wrap32_mod (x y : Z) : x mod 2 ^ 32 = y mod 2 ^ 32 -> wrap32 x = wrap32 y.
Proof.
  intros Hxy. unfold wrap32, wrap. f_equal.
  rewrite <- (Zplus_mod_idemp_l x), <- (Zplus_mod_idemp_l y). by rewrite Hxy.
Qed.

(** The packed key is the group slot above the 96 low bits. *)
Lemma PackSeedHit_decompose (sh : SeedHit) :
  PackSeedHitWithDiagonalTo128_ sh = hit_group sh * 2 ^ 96 + hit_low sh.
Proof.
  unfold PackSeedHitWithDiagonalTo128_. fold (Diagonal sh).
  rewrite !land_MASK_32bit.
  pose proof (Z.mod_pos_bound (Diagonal sh) (2 ^ 32)).
  pose proof (Z.mod_pos_bound (targetPos sh) (2 ^ 32)).
  pose proof (Z.mod_pos_bound (queryPos sh) (2 ^ 32)).
  pose proof (Z.mod_pos_bound (targetId sh) (2 ^ 32)).
  assert (Z.b2z (targetRev sh) mod 2 ^ 32 = Z.b2z (targetRev sh)) as ->
    by (by destruct (targetRev sh)).
  assert (0 <= Z.b2z (targetRev sh) <= 1) by (destruct (targetRev sh); simpl; lia).
  rewrite (lor_shiftl_add _ (queryPos sh mod 2 ^ 32) 32) by lia.
  rewrite (lor_shiftl_add _ _ 64)
    by (change (2 ^ 64) with (2 ^ 32 * 2 ^ 32); nia).
  rewrite (lor_shiftl_add _ _ 96)
    by (change (2 ^ 96) with (2 ^ 32 * 2 ^ 64); change (2 ^ 64) with (2 ^ 32 * 2 ^ 32); nia).
  rewrite (lor_shiftl_add _ _ 97)
    by (change (2 ^ 97) with (2 * (2 ^ 32 * 2 ^ 64));
        change (2 ^ 96) with (2 ^ 32 * 2 ^ 64);
        change (2 ^ 64) with (2 ^ 32 * 2 ^ 32); nia).
  pose proof (hit_low_range sh) as Hlow. unfold hit_low in *.
  replace (targetId sh mod 2 ^ 32 * 2 ^ 97
           + (Z.b2z (targetRev sh) * 2 ^ 96
              + (Diagonal sh mod 2 ^ 32 * 2 ^ 64
                 + (targetPos sh mod 2 ^ 32 * 2 ^ 32 + queryPos sh mod 2 ^ 32))))
    with ((2 * (targetId sh mod 2 ^ 32) + Z.b2z (targetRev sh)) * 2 ^ 96
          + (Diagonal sh mod 2 ^ 32 * 2 ^ 64 + targetPos sh mod 2 ^ 32 * 2 ^ 32
             + queryPos sh mod 2 ^ 32))
    by (change (2 ^ 97) with (2 * 2 ^ 96); lia).
  rewrite wrap128_group by done. f_equal. f_equal. unfold hit_group.
  apply wrap32_mod.
  rewrite <- (Zplus_mod_idemp_l (2 * (targetId sh mod 2 ^ 32))),
          <- (Zmult_mod_idemp_r (targetId sh mod 2 ^ 32)), Z.mod_mod by lia.
  by rewrite Zmult_mod_idemp_r, Zplus_mod_idemp_l.
Qed.

(** For sequence ids in the non-negative [int32_t] range the group slot
    tells (targetId, targetRev) apart. *)
Lemma hit_group_inj (a b : SeedHit) :
  0 <= targetId a < 2 ^ 31 -> 0 <= targetId b < 2 ^ 31 ->
  hit_group a = hit_group b ->
  targetId a = targetId b /\ targetRev a = targetRev b.
Proof.
  unfold hit_group, wrap32, wrap. intros Ha Hb Heq.
  change (2 ^ (32 - 1)) with (2 ^ 31) in Heq. change (2 ^ 32) with (2 * 2 ^ 31) in Heq.
  assert (forall t r, 0 <= t < 2 ^ 31 ->
    (2 * t + Z.b2z r + 2 ^ 31) mod (2 * 2 ^ 31)
    = if decide (t < 2 ^ 30) then 2 * t + Z.b2z r + 2 ^ 31
      else 2 * t + Z.b2z r - 2 ^ 31) as Hmod.
  { intros t r Ht. assert (0 <= Z.b2z r <= 1) by (destruct r; simpl; lia).
    change (2 ^ 31) with (2 * 2 ^ 30) in *. case_decide.
    - apply Z.mod_small. lia.
    - symmetry. apply Z.mod_unique_pos with 1; lia. }
  rewrite !Hmod in Heq by done. change (2 ^ 31) with (2 * 2 ^ 30) in *.
  assert (0 <= Z.b2z (targetRev a) <= 1) by (destruct (targetRev a); simpl; lia).
  assert (0 <= Z.b2z (targetRev b) <= 1) by (destruct (targetRev b); simpl; lia).
  assert (targetId a = targetId b /\ Z.b2z (targetRev a) = Z.b2z (targetRev b))
    as [Ht Hr] by (repeat case_decide; lia).
  split; [done|]. by destruct (targetRev a), (targetRev b).
Qed.

Lemma hit_le_group (a b : SeedHit) : hit_le a b -> hit_group a <= hit_group b.
Proof.
  unfold hit_le. rewrite !PackSeedHit_decompose.
  pose proof (hit_low_range a). pose proof (hit_low_range b). nia.
Qed.

Lemma hit_le_low (a b : SeedHit) :
  hit_le a b -> hit_group a = hit_group b ->
  Diagonal a mod 2 ^ 32 <= Diagonal b mod 2 ^ 32.
Proof.
  unfold hit_le. rewrite !PackSeedHit_decompose. intros Hle Hg. rewrite Hg in Hle.
  assert (hit_low a <= hit_low b) as Hlow by lia. unfold hit_low in Hlow.
  pose proof (Z.mod_pos_bound (targetPos a) (2 ^ 32)).
  pose proof (Z.mod_pos_bound (targetPos b) (2 ^ 32)).
  pose proof (Z.mod_pos_bound (queryPos a) (2 ^ 32)).
  pose proof (Z.mod_pos_bound (queryPos b) (2 ^ 32)).
  change (2 ^ 64) with (2 ^ 32 * 2 ^ 32) in Hlow. nia.
Qed.

#[export] Instance hit_le_trans : Transitive hit_le.
Proof. unfold hit_le. intros a b c. lia. Qed.

#[export] Instance hit_le_total : Total hit_le.
Proof. unfold hit_le. intros a b. lia. Qed.

Lemma sort_hits_is_sorted (hits : list SeedHit) : is_sorted_hits hits (sort_hits hits).
Proof.
  split; [apply merge_sort_Permutation | apply StronglySorted_merge_sort; apply _].
Qed.

Lemma StronglySorted_lookup {A} (R : relation A) `{!Reflexive R} (l : list A) :
  StronglySorted R l ->
  forall (i j : nat) a b, (i <= j)%nat -> l !! i = Some a -> l !! j = Some b -> R a b.
Proof.
  induction 1 as [|x l Hl IH Hx]; intros i j a b Hij Ha Hb; [done|].
  destruct i as [|i], j as [|j]; simpl in *; simplify_eq; try lia.
  - reflexivity.
  - rewrite Forall_lookup in Hx. eauto.
  - eapply IH; [|done..]. lia.
Qed.

#[export] Instance hit_le_refl : Reflexive hit_le.
Proof. unfold hit_le. intros a. lia. Qed.

Lemma wrap32_sign (x : Z) : in_int32 x ->
  x mod 2 ^ 32 = if decide (0 <= x) then x else x + 2 ^ 32.
Proof.
  unfold in_int32. intros Hx. case_decide.
  - apply Z.mod_small. lia.
  - symmetry. apply Z.mod_unique_pos with (-1); lia.
Qed.

(** ** C4 *)

(** The two hits of the counterexample: one target, one strand, diagonals
    10 and -10. *)
Definition hit_diag_pos : SeedHit := mkSeedHit 0 false 10 0 0.
Definition hit_diag_neg : SeedHit := mkSeedHit 0 false 0 0 10.

(** C4 as stated fails: the sort puts the hit of diagonal 10 before the
    hit of diagonal -10 of the same (targetId, targetRev). *)
Lemma C4_negative_diagonal_sorts_last :
  let hits := [hit_diag_neg; hit_diag_pos] in
  let sorted := [hit_diag_pos; hit_diag_neg] in
  is_sorted_hits hits sorted /\ sort_hits hits = sorted /\
  targetId hit_diag_pos = targetId hit_diag_neg /\
  targetRev hit_diag_pos = targetRev hit_diag_neg /\
  ~ (Diagonal hit_diag_pos <= Diagonal hit_diag_neg).
Proof.
  intros hits sorted.
  assert (sort_hits hits = sorted) as Hsort by (by vm_compute).
  split; [rewrite <- Hsort; apply sort_hits_is_sorted|].
  split; [done|]. split; [done|]. split; [done|]. by vm_compute.
Qed.

(** C4, amended.  For hits with sequence ids in [0, 2^31), sorting by
    the packed key (targetId above bit 97, targetRev at bit 96, then the
    diagonal, the target position and the query position as unsigned
    32-bit fields) places the hits of equal (targetId, targetRev)
    contiguously, and within such a group in non-decreasing order of the
    diagonal read as an unsigned 32-bit number: non-decreasing among the
    diagonals of one sign, every negative diagonal after every
    non-negative one. *)
Theorem C4_hit_sort_groups (hits sorted : list SeedHit) :
  is_sorted_hits hits sorted ->
  Forall (fun sh => 0 <= targetId sh < 2 ^ 31) hits ->
  (forall (i j k : nat) a b c,
     (i <= j <= k)%nat ->
     sorted !! i = Some a -> sorted !! j = Some b -> sorted !! k = Some c ->
     targetId a = targetId c -> targetRev a = targetRev c ->
     targetId b = targetId a /\ targetRev b = targetRev a) /\
  (forall (i j : nat) a b,
     (i <= j)%nat -> sorted !! i = Some a -> sorted !! j = Some b ->
     targetId a = targetId b -> targetRev a = targetRev b ->
     Diagonal a mod 2 ^ 32 <= Diagonal b mod 2 ^ 32 /\
     ((0 <= Diagonal a <-> 0 <= Diagonal b) -> Diagonal a <= Diagonal b) /\
     (Diagonal a < 0 -> Diagonal b < 0)).
Proof.
  intros [Hperm Hsorted] Hids.
  assert (forall (i : nat) a, sorted !! i = Some a -> 0 <= targetId a < 2 ^ 31) as Hid.
  { intros i a Ha. rewrite <- Hperm in Hids. rewrite Forall_lookup in Hids. eauto. }
  pose proof (StronglySorted_lookup hit_le sorted Hsorted) as Hle.
  split.
  - intros i j k a b c [Hij Hjk] Ha Hb Hc Hid_ac Hrev_ac.
    assert (hit_group a = hit_group c) as Hac by (unfold hit_group; congruence).
    pose proof (hit_le_group _ _ (Hle i j a b Hij Ha Hb)).
    pose proof (hit_le_group _ _ (Hle j k b c Hjk Hb Hc)).
    apply hit_group_inj; eauto. lia.
  - intros i j a b Hij Ha Hb Hid_ab Hrev_ab.
    assert (hit_group a = hit_group b) as Hab by (unfold hit_group; congruence).
    pose proof (hit_le_low _ _ (Hle i j a b Hij Ha Hb) Hab) as Hlow.
    rewrite (wrap32_sign (Diagonal a)), (wrap32_sign (Diagonal b)) in Hlow
      by apply wrap32_range.
    pose proof (wrap32_range (targetPos a - queryPos a)) as Hra.
    pose proof (wrap32_range (targetPos b - queryPos b)) as Hrb.
    fold (Diagonal a) in Hra. fold (Diagonal b) in Hrb. unfold in_int32 in *.
    rewrite (wrap32_sign (Diagonal a)), (wrap32_sign (Diagonal b)) by done.
    repeat case_decide; lia.
Qed.

Lemma C4_hit_sort_groups_witness :
  let hits := [hit_diag_neg; hit_diag_pos] in
  let sorted := sort_hits hits in
  sorted = [hit_diag_pos; hit_diag_neg] /\
  Diagonal hit_diag_pos mod 2 ^ 32 <= Diagonal hit_diag_neg mod 2 ^ 32.
Proof.
  intros hits sorted. split; [by vm_compute|].
  assert (Forall (fun sh => 0 <= targetId sh < 2 ^ 31) hits) as Hids
    by (repeat constructor; simpl; lia).
  destruct (C4_hit_sort_groups hits sorted (sort_hits_is_sorted hits) Hids) as [_ Hdiag].
  apply (Hdiag 0%nat 1%nat hit_diag_pos hit_diag_neg); [lia | by vm_compute..].
Defined.

(** ** Diagonal chaining *)

Section ChainFacts.
Variables (sortedHits : list SeedHit) (querySeq : FastaSequenceId)
          (indexCache : SeedDBIndexCache).
Variables (chainBandwidth minNumSeeds minChainSpan : Z)
          (skipSelfHits skipSymmetricOverlaps : bool).

Local Abbreviation step :=
  (chain_step sortedHits querySeq indexCache chainBandwidth minNumSeeds
     minChainSpan skipSelfHits skipSymmetricOverlaps).
Local Abbreviation loop :=
  (chain_loop sortedHits querySeq indexCache chainBandwidth minNumSeeds
     minChainSpan skipSelfHits skipSymmetricOverlaps).
Local Abbreviation accepted ovl :=
  (accept_overlap ovl minNumSeeds minChainSpan skipSelfHits skipSymmetricOverlaps = true).

Definition same_target (a b : SeedHit) : Prop :=
  targetId a = targetId b /\ targetRev a = targetRev b.

(** An emitted overlap and the group of hits [[b, e)] it was made from:
    [hmin] and [hmax] are the hits its coordinates are read from. *)
Definition made_from (ovl : Overlap) (b e : Z) (hmin hmax : SeedHit) : Prop :=
  0 <= b <= e /\ e <= Z.of_nat (length sortedHits) /\
  (exists mn mx, vec_at_hit sortedHits mn = Some hmin /\
                 vec_at_hit sortedHits mx = Some hmax /\
                 MakeOverlap_ sortedHits querySeq indexCache b e mn mx = Ok ovl) /\
  (forall j h, b <= j < e -> sortedHits !! Z.to_nat j = Some h -> same_target h hmin) /\
  accepted ovl.

Definition emitted_ok (ovl : Overlap) : Prop :=
  exists b e hmin hmax, made_from ovl b e hmin hmax.

(** The invariant of the sweep once [i] hits are consumed. *)
Record chain_inv (i : Z) (st : ChainState) : Prop := {
  ci_begin : 0 <= cs_beginId st <= i;
  ci_hits : exists hb hmin hmax,
      vec_at_hit sortedHits (cs_beginId st) = Some hb /\
      vec_at_hit sortedHits (cs_minPosId st) = Some hmin /\
      vec_at_hit sortedHits (cs_maxPosId st) = Some hmax /\
      same_target hmin hb /\ same_target hmax hb;
  ci_group : forall j h hb,
      cs_beginId st <= j < i -> sortedHits !! Z.to_nat j = Some h ->
      vec_at_hit sortedHits (cs_beginId st) = Some hb -> same_target h hb;
  ci_out : Forall emitted_ok (cs_overlaps st)
}.

Lemma vec_at_hit_nat (i : nat) : vec_at_hit sortedHits (Z.of_nat i) = sortedHits !! i.
Proof.
  unfold vec_at_hit. destruct (Z.ltb_spec (Z.of_nat i) 0); [lia|]. by rewrite Nat2Z.id.
Qed.

Lemma track_min_max_inv (i : nat) st currHit hb :
  sortedHits !! i = Some currHit ->
  vec_at_hit sortedHits (cs_beginId st) = Some hb ->
  same_target currHit hb ->
  chain_inv (Z.of_nat i) st \/
    (cs_beginId st = Z.of_nat i /\ cs_minPosId st = Z.of_nat i /\
     cs_maxPosId st = Z.of_nat i /\ Forall emitted_ok (cs_overlaps st)) ->
  chain_inv (Z.of_nat i + 1)
    (track_min_max st (Z.of_nat i) (TargetQueryPosCombo currHit)).
Proof.
  intros Hi Hb Hsame Hinv.
  assert (vec_at_hit sortedHits (Z.of_nat i) = Some currHit) as Hvi
    by (by rewrite vec_at_hit_nat).
  assert (exists hmin hmax,
            vec_at_hit sortedHits (cs_minPosId st) = Some hmin /\
            vec_at_hit sortedHits (cs_maxPosId st) = Some hmax /\
            same_target hmin hb /\ same_target hmax hb) as (hmin & hmax & Hmn & Hmx & Hs1 & Hs2).
  { destruct Hinv as [[_ (hb' & hmin & hmax & Hb' & ?) _ _] | (Hbi & -> & -> & _)].
    - exists hmin, hmax. assert (hb' = hb) as -> by congruence. done.
    - exists currHit, currHit. done. }
  assert (0 <= cs_beginId st <= Z.of_nat i) as Hbeg
    by (destruct Hinv as [[? _ _ _] | (-> & _)]; lia).
  assert (Forall emitted_ok (cs_overlaps st)) as Hout
    by (destruct Hinv as [[_ _ _ ?] | (_ & _ & _ & ?)]; done).
  assert (forall j h, cs_beginId st <= j < Z.of_nat i + 1 ->
            sortedHits !! Z.to_nat j = Some h -> same_target h hb) as Hgroup.
  { intros j h Hj Hh. destruct (Z.eq_dec j (Z.of_nat i)) as [-> | Hne].
    - rewrite Nat2Z.id in Hh. by assert (h = currHit) as -> by congruence.
    - destruct Hinv as [[_ _ Hg _] | (Hbi & _)]; [|lia].
      apply (Hg j h hb); [lia | done | done]. }
  unfold track_min_max.
  destruct (_ <? cs_minCombo st); destruct (_ <? _); cbn.
  all: split; cbn; [lia | | | done].
  all: try (intros j h hb' Hj Hh Hb'; assert (hb' = hb) as -> by congruence; eauto).
  - exists hb, currHit, currHit. done.
  - exists hb, currHit, hmax. done.
  - exists hb, hmin, currHit. done.
  - exists hb, hmin, hmax. done.
Qed.

Lemma chain_step_inv (i : nat) st st' currHit :
  sortedHits !! i = Some currHit ->
  chain_inv (Z.of_nat i) st ->
  step st (Z.of_nat i) currHit = Ok st' ->
  chain_inv (Z.of_nat i + 1) st'.
Proof.
  intros Hi Hinv. unfold chain_step.
  pose proof Hinv as [Hbeg (hb & hmin & hmax & Hb & Hmn & Hmx & Hs1 & Hs2) Hgroup Hout].
  rewrite Hb.
  pose proof (lookup_lt_Some _ _ _ Hi) as Hlen.
  destruct (negb (targetId currHit =? targetId hb)
            || negb (eqb (targetRev currHit) (targetRev hb))
            || (chainBandwidth <? _)) eqn:Hclose.
  - destruct (MakeOverlap_ _ _ _ _ _ _ _) as [ovl|] eqn:Hmk; [|done].
    cbn [mbind Result_bind mret Result_ret]. intros [= <-].
    assert (vec_at_hit sortedHits (Z.of_nat i) = Some currHit) as Hvi
      by (by rewrite vec_at_hit_nat).
    apply (track_min_max_inv i _ currHit currHit Hi); [done | done |].
    right. cbn. repeat split.
    destruct (accept_overlap ovl _ _ _ _) eqn:Hacc; [|done].
    apply Forall_app. split; [done|]. constructor; [|done].
    exists (cs_beginId st), (Z.of_nat i), hmin, hmax.
    split; [lia|]. split; [lia|]. split; [eauto|]. split; [|done].
    intros j h Hj Hh. pose proof (Hgroup j h hb Hj Hh Hb) as Hjb.
    unfold same_target in *. split; destruct Hjb, Hs1; congruence.
  - cbn [mret Result_ret]. intros [= <-].
    apply (track_min_max_inv i _ currHit hb Hi Hb); [|by left].
    apply orb_false_iff in Hclose as [Hclose _].
    apply orb_false_iff in Hclose as [Hid Hrev].
    apply negb_false_iff in Hid, Hrev.
    apply Z.eqb_eq in Hid. apply eqb_prop in Hrev. done.
Qed.

Lemma chain_loop_inv : forall rest done_ st st',
  sortedHits = done_ ++ rest ->
  chain_inv (Z.of_nat (length done_)) st ->
  loop st (Z.of_nat (length done_)) rest = Ok st' ->
  chain_inv (Z.of_nat (length sortedHits)) st'.
Proof.
  induction rest as [|currHit rest IH]; intros done_ st st' Hs Hinv; simpl.
  - intros [= <-]. rewrite app_nil_r in Hs. by subst done_.
  - destruct (step st _ currHit) as [st1|] eqn:Hstep; [|done].
    cbn [mbind Result_bind]. intros Hloop.
    apply (IH (done_ ++ [currHit]) st1 st').
    + by rewrite <- app_assoc.
    + rewrite length_app. simpl.
      replace (Z.of_nat (length done_ + 1)) with (Z.of_nat (length done_) + 1) by lia.
      eapply chain_step_inv; [|done..]. rewrite Hs. by apply list_lookup_middle.
    + rewrite length_app. simpl.
      by replace (Z.of_nat (length done_ + 1)) with (Z.of_nat (length done_) + 1) by lia.
Qed.

(** Every overlap of the result was made from a group of consecutive
    hits of one target and one strand, and passed the admission test. *)
Lemma FormDiagonalAnchors_emitted overlaps :
  Z.of_nat (length sortedHits) < 2 ^ 31 ->
  FormDiagonalAnchors_ sortedHits querySeq indexCache chainBandwidth minNumSeeds
    minChainSpan skipSelfHits skipSymmetricOverlaps = Ok overlaps ->
  Forall emitted_ok overlaps.
Proof.
  intros Hlen. unfold FormDiagonalAnchors_.
  destruct sortedHits as [|hit0 rest] eqn:Hhits; [by intros [= <-]|].
  rewrite <- Hhits in *.
  destruct (chain_loop _ _ _ _ _ _ _ _ _ _ _) as [st|] eqn:Hloop; [|done].
  cbn [mbind Result_bind].
  assert (chain_inv 0 (mkChainState [] 0 (Diagonal hit0) (TargetQueryPosCombo hit0)
                         (TargetQueryPosCombo hit0) 0 0)) as Hinit.
  { split; cbn; [lia | | lia | done].
    exists hit0, hit0, hit0. rewrite Hhits. done. }
  pose proof (chain_loop_inv sortedHits [] _ _ eq_refl Hinit Hloop)
    as [Hbeg (hb & hmin & hmax & Hb & Hmn & Hmx & Hs1 & Hs2) Hgroup Hout].
  assert (wrap32 (Z.of_nat (length sortedHits)) = Z.of_nat (length sortedHits)) as ->
    by (apply wrap32_id; unfold in_int32; lia).
  destruct (0 <? _); [|by intros [= <-]].
  destruct (MakeOverlap_ _ _ _ _ _ _ _) as [ovl|] eqn:Hmk; [|done].
  cbn [mbind Result_bind].
  destruct (accept_overlap ovl _ _ _ _) eqn:Hacc; intros [= <-]; [|done].
  apply Forall_app. split; [done|]. constructor; [|done].
  exists (cs_beginId st), (Z.of_nat (length sortedHits)), hmin, hmax.
  split; [lia|]. split; [lia|]. split; [eauto|]. split; [|done].
  intros j h Hj Hh. pose proof (Hgroup j h hb Hj Hh Hb) as Hjb.
  unfold same_target in *. split; destruct Hjb, Hs1; congruence.
Qed.

(** The fields [MakeOverlap_] fills in. *)
Lemma MakeOverlap_fields ovl b e mn mx hmin hmax :
  vec_at_hit sortedHits mn = Some hmin ->
  vec_at_hit sortedHits mx = Some hmax ->
  MakeOverlap_ sortedHits querySeq indexCache b e mn mx = Ok ovl ->
  targetId hmax = targetId hmin /\
  exists sl, GetSeedsLine indexCache (targetId hmin) = Ok sl /\
    ovl = createOverlap (Id querySeq) (targetId hmin) (Float.of_Z (wrap32 (e - b)))
            (Float.of_Z 0) false (queryPos hmin) (queryPos hmax)
            (size32 (Bases querySeq)) (targetRev hmin) (targetPos hmin)
            (targetPos hmax) (sl_numBases sl) (-1) (wrap32 (e - b)).
Proof.
  unfold MakeOverlap_. intros -> ->.
  destruct (Z.eqb_spec (targetId hmax) (targetId hmin)) as [Heq | Hne]; [|done].
  cbn [negb]. destruct (GetSeedsLine _ _) as [sl|]; [|done].
  cbn. intros [= <-]. eauto.
Qed.

End ChainFacts.

Lemma vec_at_hit_elem (v : list SeedHit) (i : Z) (h : SeedHit) :
  vec_at_hit v i = Some h -> h ∈ v.
Proof.
  unfold vec_at_hit. destruct (i <? 0); [done|].
  intros Hh. apply list_elem_of_lookup. eauto.
Qed.

(** ** C3 *)

(** The positions of a hit lie inside the query and inside its target. *)
Definition hit_in_bounds (querySeq : FastaSequenceId) (indexCache : SeedDBIndexCache)
    (sh : SeedHit) : Prop :=
  0 <= queryPos sh <= Z.of_nat (length (Bases querySeq)) /\
  forall sl, GetSeedsLine indexCache (targetId sh) = Ok sl ->
    0 <= targetPos sh <= sl_numBases sl /\ sl_numBases sl < 2 ^ 31.

(** C3, amended.  Every overlap the chaining stage emits comes from a
    run of consecutive hits [[beginId, endId)] that all have its (Bid,
    Brev), for every hit list.  When moreover every hit lies inside the
    query and inside its target and [minChainSpan >= 0], the overlap
    satisfies [0 <= Astart < Aend <= Alen] and [0 <= Bstart < Bend <=
    Blen]. *)
Theorem C3_chained_overlap_bounds (sortedHits : list SeedHit)
    (querySeq : FastaSequenceId) (indexCache : SeedDBIndexCache)
    (chainBandwidth minNumSeeds minChainSpan : Z)
    (skipSelfHits skipSymmetricOverlaps : bool) (overlaps : list Overlap)
    (ovl : Overlap) :
  Z.of_nat (length sortedHits) < 2 ^ 31 ->
  FormDiagonalAnchors_ sortedHits querySeq indexCache chainBandwidth minNumSeeds
    minChainSpan skipSelfHits skipSymmetricOverlaps = Ok overlaps ->
  ovl ∈ overlaps ->
  (exists beginId endId,
     0 <= beginId <= endId /\ endId <= Z.of_nat (length sortedHits) /\
     NumSeeds ovl = endId - beginId /\
     forall j h, beginId <= j < endId -> sortedHits !! Z.to_nat j = Some h ->
       targetId h = Bid ovl /\ targetRev h = Brev ovl) /\
  (Z.of_nat (length (Bases querySeq)) < 2 ^ 31 -> 0 <= minChainSpan ->
   Forall (hit_in_bounds querySeq indexCache) sortedHits ->
   0 <= Astart ovl < Aend ovl /\ Aend ovl <= Alen ovl /\
   0 <= Bstart ovl < Bend ovl /\ Bend ovl <= Blen ovl).
Proof.
  intros Hlen Hret Hin.
  pose proof (FormDiagonalAnchors_emitted _ _ _ _ _ _ _ _ _ Hlen Hret) as Hall.
  rewrite Forall_forall in Hall.
  destruct (Hall ovl Hin)
    as (b & e & hmin & hmax & Hbe & He & (mn & mx & Hmn & Hmx & Hmk) & Hgroup & Hacc).
  destruct (MakeOverlap_fields _ _ _ _ _ _ _ _ _ _ Hmn Hmx Hmk) as (Hid & sl & Hsl & ->).
  unfold createOverlap in *. split.
  - exists b, e. cbn [NumSeeds Bid Brev].
    split; [done|]. split; [done|].
    split; [apply wrap32_id; unfold in_int32; lia|].
    intros j h Hj Hh. by apply (Hgroup j h).
  - intros Hq Hspan Hbounds. rewrite Forall_forall in Hbounds.
    destruct (Hbounds hmin (vec_at_hit_elem _ _ _ Hmn)) as [Hqmin Htmin].
    destruct (Hbounds hmax (vec_at_hit_elem _ _ _ Hmx)) as [Hqmax Htmax].
    rewrite Hid in Htmax.
    destruct (Htmin sl Hsl) as [Htmin' Hsl31]. destruct (Htmax sl Hsl) as [Htmax' _].
    unfold accept_overlap in Hacc. rewrite !andb_true_iff in Hacc.
    destruct Hacc as [[[[_ Ha%Z.ltb_lt] Hb%Z.ltb_lt] _] _].
    unfold ASpan, BSpan in Ha, Hb. cbn in Ha, Hb.
    rewrite wrap32_id in Ha by (unfold in_int32; lia).
    rewrite wrap32_id in Hb by (unfold in_int32; lia).
    cbn [Astart Aend Alen Bstart Bend Blen]. unfold size32.
    rewrite wrap32_id by (unfold in_int32; lia). lia.
Qed.

(** Two hits on one diagonal of target 0, 50 bases apart. *)
Definition chain_hits : list SeedHit :=
  [mkSeedHit 0 false 0 0 0; mkSeedHit 0 false 50 0 50].

Definition chain_cache : SeedDBIndexCache :=
  mkCache [] [] [] (lit "0.1.0") (mkParams 30 80 false 10 true) []
    [mkSeedsLine 0 (lit "t") 0 0 0 100 2] [].

(** A query of 10 bases, shorter than the query position of the second hit. *)
Definition chain_query_short : FastaSequenceId :=
  mkFastaSequenceId 1 (lit "q") (lit "ACGTACGTAC").

(** A query of 60 bases. *)
Definition chain_query : FastaSequenceId :=
  mkFastaSequenceId 1 (lit "q") (concat (replicate 6 (lit "ACGTACGTAC"))).

(** C3 as stated fails: the hit list is sorted, and the emitted overlap has
    [Aend = 50] on a query of length 10. *)
Lemma C3_overlap_past_query_end :
  exists ovl,
    is_sorted_hits chain_hits chain_hits /\
    FormDiagonalAnchors_ chain_hits chain_query_short chain_cache 100 0 0 true false
      = Ok [ovl] /\
    Alen ovl = 10 /\ Aend ovl = 50 /\ ~ (Aend ovl <= Alen ovl).
Proof.
  eexists. split; [|split; [by vm_compute|]].
  - assert (sort_hits chain_hits = chain_hits) as Hsort by (by vm_compute).
    rewrite <- Hsort at 2. apply sort_hits_is_sorted.
  - by vm_compute.
Qed.

(** With a negative [minChainSpan] the end points can also come out in
    the wrong order, for hits that lie inside the query and the target. *)
Lemma MakeOverlap_end_before_start :
  exists ovl,
    FormDiagonalAnchors_ [mkSeedHit 0 false 20 0 15; mkSeedHit 0 false 21 0 10]
      chain_query chain_cache 100 0 (-10) true false = Ok [ovl] /\
    Astart ovl = 15 /\ Aend ovl = 10.
Proof. eexists. split; [by vm_compute|]. by vm_compute. Qed.

Lemma chain_hits_in_bounds : Forall (hit_in_bounds chain_query chain_cache) chain_hits.
Proof.
  assert (forall tp qp, 0 <= qp <= 60 -> 0 <= tp <= 100 ->
            hit_in_bounds chain_query chain_cache (mkSeedHit 0 false tp 0 qp)) as Hhit.
  { intros tp qp Hqp Htp. split; [exact Hqp|].
    intros sl Hsl. vm_compute in Hsl. injection Hsl as <-. cbn. lia. }
  unfold chain_hits. constructor; [apply Hhit; lia|].
  constructor; [apply Hhit; lia|]. constructor.
Qed.

Lemma C3_chained_overlap_bounds_witness :
  exists ovl,
    FormDiagonalAnchors_ chain_hits chain_query chain_cache 100 0 0 true false = Ok [ovl] /\
    (0 <= Astart ovl < Aend ovl /\ Aend ovl <= Alen ovl /\
     0 <= Bstart ovl < Bend ovl /\ Bend ovl <= Blen ovl).
Proof.
  assert (exists ovl, FormDiagonalAnchors_ chain_hits chain_query chain_cache
                        100 0 0 true false = Ok [ovl]) as [ovl Hret]
    by (eexists; by vm_compute).
  exists ovl. split; [exact Hret|].
  assert (Z.of_nat (length chain_hits) < 2 ^ 31) as Hlen by (by vm_compute).
  assert (ovl ∈ [ovl]) as Hin by (by left).
  destruct (C3_chained_overlap_bounds _ _ _ _ _ _ _ _ _ ovl Hlen Hret Hin) as [_ Hbounds].
  apply Hbounds; [by vm_compute | lia | exact chain_hits_in_bounds].
Defined.

(** ** Printing and reading numbers *)

Definition isdigit (c : ascii) : Prop := digit_val c <> None.

(** Nothing, or something that is not a digit, comes next. *)
Definition no_digit_next (x : Str) : Prop :=
  match x with
  | [] => True
  | c :: _ => digit_val c = None
  end.

(** Nothing, or a whitespace character, comes next. *)
Definition space_next (x : Str) : Prop :=
  match x with
  | [] => True
  | c :: _ => isspace c = true
  end.

Lemma digit_val_char (d : Z) : 0 <= d <= 9 -> digit_val (digit_char d) = Some d.
Proof.
  intros Hd.
  assert (d = 0 \/ d = 1 \/ d = 2 \/ d = 3 \/ d = 4 \/ d = 5 \/ d = 6 \/ d = 7
          \/ d = 8 \/ d = 9) as Hcases by lia.
  repeat (destruct Hcases as [-> | Hcases]; [reflexivity|]). by subst.
Qed.

Lemma read_digits_stop (x : Str) (acc : Z) (any : bool) :
  no_digit_next x -> read_digits x acc any = (acc, any, x).
Proof. destruct x as [|c x]; simpl; [done|]. by intros ->. Qed.

(** [print_digits] puts a non-empty run of digits in front of [acc], and
    [read_digits] reads the number back. *)
Lemma print_digits_spec : forall (fuel : nat) (n : Z) (acc : Str),
  0 <= n < 2 ^ Z.of_nat fuel -> (0 < fuel)%nat ->
  exists ds, print_digits fuel n acc = ds ++ acc /\ ds <> [] /\ Forall isdigit ds /\
    forall rest a any,
      read_digits (ds ++ rest) a any
      = read_digits rest (a * 10 ^ Z.of_nat (length ds) + n) true.
Proof.
  induction fuel as [|fuel IH]; intros n acc Hn Hfuel; [lia|].
  cbn [print_digits].
  pose proof (Z.mod_pos_bound n 10) as Hmod.
  pose proof (Z.div_mod n 10) as Hdiv.
  assert (digit_val (digit_char (n mod 10)) = Some (n mod 10)) as Hdv
    by (apply digit_val_char; lia).
  destruct (Z.eqb_spec (n / 10) 0) as [Hq | Hq].
  - exists [digit_char (n mod 10)]. split; [done|]. split; [done|].
    split; [constructor; [unfold isdigit; by rewrite Hdv | constructor]|].
    intros rest a any. cbn [app read_digits length]. rewrite Hdv.
    f_equal. change (10 ^ Z.of_nat 1) with 10. lia.
  - assert (0 <= n / 10 < 2 ^ Z.of_nat fuel) as Hn'.
    { rewrite Nat2Z.inj_succ, Z.pow_succ_r in Hn by lia.
      split; [apply Z.div_pos; lia|].
      apply Z.div_lt_upper_bound; lia. }
    assert (0 < fuel)%nat as Hfuel'.
    { destruct fuel as [|fuel']; [|lia]. exfalso. apply Hq.
      apply Z.div_small. change (2 ^ Z.of_nat 1) with 2 in Hn. lia. }
    destruct (IH (n / 10) (digit_char (n mod 10) :: acc) Hn' Hfuel')
      as (ds & Hds & Hne & Hdig & Hread).
    exists (ds ++ [digit_char (n mod 10)]).
    split; [by rewrite <- app_assoc|].
    split; [by destruct ds|].
    split; [apply Forall_app; split; [done|];
            constructor; [unfold isdigit; by rewrite Hdv | constructor]|].
    intros rest a any. rewrite <- app_assoc, Hread. cbn [app read_digits].
    rewrite Hdv. f_equal. rewrite length_app, Nat2Z.inj_add. cbn [length].
    rewrite Z.pow_add_r by lia. change (10 ^ Z.of_nat 1) with 10. lia.
Qed.

Lemma print_unsigned_spec (n : Z) : 0 <= n ->
  print_unsigned n <> [] /\ Forall isdigit (print_unsigned n) /\
  forall rest, no_digit_next rest ->
    read_digits (print_unsigned n ++ rest) 0 false = (n, true, rest).
Proof.
  intros Hn. unfold print_unsigned.
  assert (0 <= n < 2 ^ Z.of_nat (S (Z.to_nat (Z.log2 n)))) as Hfuel.
  { split; [done|]. rewrite Nat2Z.inj_succ, Z2Nat.id by apply Z.log2_nonneg.
    destruct (Z.eq_dec n 0) as [-> | Hn0]; [done|].
    apply Z.log2_spec. lia. }
  destruct (print_digits_spec _ n [] Hfuel) as (ds & -> & Hne & Hdig & Hread); [lia|].
  rewrite app_nil_r. split; [done|]. split; [done|].
  intros rest Hrest. rewrite Hread. simpl. by apply read_digits_stop.
Qed.

(** The characters [print_Z] writes: digits and the minus sign. *)
Definition numchar (c : ascii) : Prop := isdigit c \/ c = "-"%char.

Lemma print_Z_chars (z : Z) : print_Z z <> [] /\ Forall numchar (print_Z z).
Proof.
  unfold print_Z. destruct (Z.ltb_spec z 0).
  - split; [done|]. constructor; [by right|].
    destruct (print_unsigned_spec (- z)) as (_ & Hdig & _); [lia|].
    eapply Forall_impl; [exact Hdig|]. by left.
  - destruct (print_unsigned_spec z) as (Hne & Hdig & _); [lia|].
    split; [done|]. eapply Forall_impl; [exact Hdig|]. by left.
Qed.

Lemma isdigit_not_sign (c : ascii) : isdigit c -> c <> "-"%char /\ c <> "+"%char.
Proof. unfold isdigit. split; intros ->; done. Qed.

(** [read_number] reads back what [print_Z] wrote. *)
Lemma read_number_print_Z (z : Z) (rest : Str) :
  no_digit_next rest -> read_number (print_Z z ++ rest) = Some (z, rest).
Proof.
  intros Hrest. unfold print_Z, read_number. destruct (Z.ltb_spec z 0).
  - destruct (print_unsigned_spec (- z)) as (_ & _ & Hread); [lia|].
    cbn [app read_sign]. rewrite Hread by done. f_equal. f_equal. lia.
  - destruct (print_unsigned_spec z) as (Hne & Hdig & Hread); [lia|].
    destruct (print_unsigned z) as [|c ds] eqn:Hp; [done|].
    apply Forall_cons_1 in Hdig as [Hc _].
    destruct (isdigit_not_sign c Hc) as [Hminus Hplus].
    cbn [app].
    assert (read_sign (c :: ds ++ rest) = (false, c :: ds ++ rest)) as ->.
    { destruct c as [[] [] [] [] [] [] [] []]; done. }
    change (c :: ds ++ rest) with ((c :: ds) ++ rest). by rewrite Hread.
Qed.

Lemma numchar_not_space (c : ascii) : numchar c -> isspace c = false.
Proof.
  intros [Hc | ->]; [|done]. unfold isdigit in Hc.
  destruct c as [[] [] [] [] [] [] [] []]; done.
Qed.

Lemma skip_ws_numchar (z : Z) (rest : Str) :
  skip_ws (print_Z z ++ rest) = print_Z z ++ rest.
Proof.
  destruct (print_Z_chars z) as [Hne Hchars].
  destruct (print_Z z) as [|c ds]; [done|].
  apply Forall_cons_1 in Hchars as [Hc _]. cbn [app skip_ws].
  by rewrite (numchar_not_space c Hc).
Qed.

Lemma stoi_print_Z (z : Z) (rest : Str) :
  in_int32 z -> no_digit_next rest -> stoi (print_Z z ++ rest) = Ok z.
Proof.
  intros Hz Hrest. unfold stoi.
  rewrite skip_ws_numchar, read_number_print_Z by done.
  unfold in_int32, INT32_MIN, INT32_MAX in *.
  destruct (Z.leb_spec (- 2 ^ 31) z); [|lia].
  destruct (Z.leb_spec z (2 ^ 31 - 1)); [done|lia].
Qed.

(** ** Tokens and lines *)

Definition no_space (x : Str) : Prop := Forall (fun c => isspace c = false) x.

Lemma read_token_app (tok rest : Str) :
  no_space tok -> space_next rest -> read_token (tok ++ rest) = (tok, rest).
Proof.
  intros Htok Hrest. induction Htok as [|c tok Hc _ IH]; cbn [app].
  - destruct rest as [|c rest]; [done|]. simpl in *. by rewrite Hrest.
  - cbn [read_token]. by rewrite Hc, IH.
Qed.

Lemma skip_ws_no_space (c : ascii) (x : Str) :
  isspace c = false -> skip_ws (c :: x) = c :: x.
Proof. intros Hc. simpl. by rewrite Hc. Qed.

Lemma print_Z_no_space (z : Z) : no_space (print_Z z).
Proof.
  destruct (print_Z_chars z) as [_ Hchars].
  eapply Forall_impl; [exact Hchars|]. apply numchar_not_space.
Qed.

(** [is >> n] after a tab reads back a printed number. *)
Lemma get_int_print (lo hi z : Z) (rest : Str) (old : Z) :
  lo <= z <= hi -> no_digit_next rest ->
  get_int lo hi (mkIstream (tab :: print_Z z ++ rest) false) old
  = (mkIstream rest false, z).
Proof.
  intros Hz Hrest. unfold get_int. cbn [is_fail is_buf skip_ws isspace tab].
  rewrite skip_ws_numchar.
  destruct (print_Z_chars z) as [Hne _].
  destruct (print_Z z ++ rest) as [|c x] eqn:Hx.
  { by destruct (print_Z z). }
  rewrite <- Hx, read_number_print_Z by done.
  destruct (Z.leb_spec lo z); [|lia]. destruct (Z.leb_spec z hi); [done|lia].
Qed.

(** [is >> str] after a tab reads a token without whitespace. *)
Lemma get_string_token (tok rest old : Str) :
  tok <> [] -> no_space tok -> space_next rest ->
  get_string (mkIstream (tab :: tok ++ rest) false) old = (mkIstream rest false, tok).
Proof.
  intros Hne Htok Hrest. unfold get_string. cbn [is_fail is_buf skip_ws isspace tab].
  destruct tok as [|c tok]; [done|].
  pose proof (Forall_inv Htok) as Hc. cbn [app].
  rewrite skip_ws_no_space by done.
  change (c :: tok ++ rest) with ((c :: tok) ++ rest).
  rewrite read_token_app by done. done.
Qed.

Lemma getline_all_segment (delim : ascii) : forall (tok rest cur : Str) (pending : bool),
  delim ∉ tok ->
  getline_all delim (tok ++ delim :: rest) cur pending
  = (rev cur ++ tok) :: getline_all delim rest [] false.
Proof.
  induction tok as [|c tok IH]; intros rest cur pending Hno; cbn [app getline_all].
  - rewrite Ascii.eqb_refl. by rewrite app_nil_r.
  - apply not_elem_of_cons in Hno as [Hc Hno].
    destruct (Ascii.eqb_spec c delim) as [-> | _]; [done|].
    rewrite IH by done. cbn [rev]. by rewrite <- app_assoc.
Qed.

Lemma getline_all_last (delim : ascii) : forall (tok cur : Str) (pending : bool),
  delim ∉ tok -> tok <> [] ->
  getline_all delim tok cur pending = [rev cur ++ tok].
Proof.
  induction tok as [|c tok IH]; intros cur pending Hno Hne; [done|].
  apply not_elem_of_cons in Hno as [Hc Hno]. cbn [getline_all].
  destruct (Ascii.eqb_spec c delim) as [-> | _]; [done|].
  destruct tok as [|c' tok].
  - cbn [getline_all rev]. done.
  - rewrite IH by done. cbn [rev]. by rewrite <- app_assoc.
Qed.

(** ** The parameter line *)

Lemma numchar_not (c : ascii) (x : Str) :
  Forall numchar x -> ~ numchar c -> c ∉ x.
Proof.
  intros Hx Hc Hin. rewrite Forall_forall in Hx. by apply Hc, Hx.
Qed.

Lemma not_numchar_comma : ~ numchar ","%char.
Proof. by intros [Hc | Hc]. Qed.

Lemma not_numchar_equals : ~ numchar "="%char.
Proof. by intros [Hc | Hc]. Qed.

Lemma not_numchar_nl : ~ numchar nl.
Proof. by intros [Hc | Hc]. Qed.

Lemma not_numchar_NUL : ~ numchar NUL.
Proof. by intros [Hc | Hc]. Qed.

Lemma Split_name_value (name value : Str) :
  "="%char ∉ name -> "="%char ∉ value -> value <> [] ->
  Split (name ++ "="%char :: value) "="%char = [name; value].
Proof.
  intros Hname Hvalue Hne. unfold Split.
  rewrite getline_all_segment by done. cbn [rev app].
  by rewrite getline_all_last.
Qed.

(** The text of the five parameters as the emitter writes it, between a
    prefix and a suffix. *)
Definition params_text (pre : Str) (p : SeedDBParameters) (post : Str) : Str :=
  (pre ++ lit "k=" ++ print_Z (KmerSize p)) ++ ","%char ::
  (lit "w=" ++ print_Z (MinimizerWindow p)) ++ ","%char ::
  (lit "hpc=" ++ print_bool (UseHPC p)) ++ ","%char ::
  (lit "hpc_len=" ++ print_Z (MaxHPCLen p)) ++ ","%char ::
  (lit "rc=" ++ print_bool (UseRC p) ++ post).

Lemma elem_of_lit_app (c : ascii) (l : string) (x : Str) :
  c ∉ lit l -> c ∉ x -> c ∉ lit l ++ x.
Proof. intros H1 H2. rewrite elem_of_app. tauto. Qed.

Lemma not_elem_of_lit (c : ascii) (l : string) :
  forallb (fun d => negb (Ascii.eqb c d)) (lit l) = true -> c ∉ lit l.
Proof.
  rewrite forallb_forall. intros Hall Hin. apply list_elem_of_In in Hin.
  specialize (Hall c Hin). by rewrite Ascii.eqb_refl in Hall.
Qed.

Lemma print_Z_no (c : ascii) (z : Z) : ~ numchar c -> c ∉ print_Z z.
Proof. intros Hc. apply numchar_not; [apply print_Z_chars | done]. Qed.

Lemma not_in_field (c : ascii) (pre : Str) (l : string) (z : Z) (post : Str) :
  c ∉ pre -> forallb (fun d => negb (Ascii.eqb c d)) (lit l) = true ->
  ~ numchar c -> c ∉ post ->
  c ∉ pre ++ lit l ++ print_Z z ++ post.
Proof.
  intros Hpre Hl Hc Hpost. rewrite !elem_of_app.
  intros [?|[?|[?|?]]]; [done | by eapply not_elem_of_lit | by eapply print_Z_no | done].
Qed.

Lemma Split_params_text (pre post : Str) (p : SeedDBParameters) :
  ","%char ∉ pre -> ","%char ∉ post ->
  Split (params_text pre p post) ","%char
  = [pre ++ lit "k=" ++ print_Z (KmerSize p);
     lit "w=" ++ print_Z (MinimizerWindow p);
     lit "hpc=" ++ print_bool (UseHPC p);
     lit "hpc_len=" ++ print_Z (MaxHPCLen p);
     lit "rc=" ++ print_bool (UseRC p) ++ post].
Proof.
  intros Hpre Hpost. unfold Split, params_text, print_bool.
  pose proof not_numchar_comma as Hc.
  pose proof (not_elem_of_nil ","%char) as Hnil.
  rewrite getline_all_segment.
  2: { rewrite <- (app_nil_r (print_Z _)). by apply not_in_field. }
  rewrite getline_all_segment.
  2: { rewrite <- (app_nil_r (print_Z _)). by apply (not_in_field _ []). }
  rewrite getline_all_segment.
  2: { rewrite <- (app_nil_r (print_Z _)). by apply (not_in_field _ []). }
  rewrite getline_all_segment.
  2: { rewrite <- (app_nil_r (print_Z _)). by apply (not_in_field _ []). }
  rewrite getline_all_last; [done | by apply (not_in_field _ []) | done].
Qed.

Section ParamFacts.
Context `{CacheHeader}.

Local Opaque print_Z.

Lemma step_param (field name : Str) (v : Z) (post : Str)
    (ret ret' : SeedDBParameters) (params : list Str) :
  field = name ++ "="%char :: print_Z v ++ post ->
  "="%char ∉ name -> "="%char ∉ post -> name <> [] ->
  set_param ret name (print_Z v ++ post) = Ok ret' ->
  ParseSeedDBParams_loop (field :: params) ret = ParseSeedDBParams_loop params ret'.
Proof.
  intros -> Hname Hpost Hne Hset. cbn [ParseSeedDBParams_loop].
  destruct (name ++ "="%char :: print_Z v ++ post) as [|c x] eqn:Hparam.
  { by destruct name. }
  rewrite <- Hparam, Split_name_value.
  - by rewrite Hset.
  - done.
  - rewrite elem_of_app.
    intros [Hin|?]; [exact (print_Z_no _ _ not_numchar_equals Hin) | done].
  - destruct (print_Z_chars v) as [Hp _]. by destruct (print_Z v).
Qed.

Lemma b2z_nonzero (b : bool) : negb (Z.b2z b =? 0) = b.
Proof. by destruct b. Qed.

Lemma in_int32_b2z (b : bool) : in_int32 (Z.b2z b).
Proof. unfold in_int32. destruct b; simpl; lia. Qed.

(** The parameters [w], [hpc], [hpc_len] and [rc] of the emitted text are
    read back whatever precedes the name [k]; the first parameter is
    handed to [set_param] under the name [pre ++ "k"]. *)
Lemma ParseSeedDBParams_text (pre post : Str) (p ret1 : SeedDBParameters) :
  ","%char ∉ pre -> "="%char ∉ pre -> ","%char ∉ post -> "="%char ∉ post ->
  no_digit_next post ->
  in_int32 (MinimizerWindow p) -> in_int32 (MaxHPCLen p) ->
  set_param default_seedParams (pre ++ lit "k") (print_Z (KmerSize p)) = Ok ret1 ->
  ParseSeedDBParams (params_text pre p post)
  = Ok (mkParams (KmerSize ret1) (MinimizerWindow p) (UseHPC p) (MaxHPCLen p) (UseRC p)).
Proof.
  intros Hpre1 Hpre2 Hpost1 Hpost2 Hpost Hw Hl Hk.
  unfold ParseSeedDBParams. rewrite Split_params_text by done.
  pose proof (not_elem_of_nil "="%char) as Hnil.
  (* k *)
  rewrite (step_param _ (pre ++ lit "k") (KmerSize p) [] _ ret1);
    [ | by rewrite <- app_assoc, app_nil_r
      | rewrite elem_of_app; intros [?|?]; [done | by apply (not_elem_of_lit "=" "k")]
      | done | by destruct pre | by rewrite app_nil_r ].
  (* w *)
  rewrite (step_param _ (lit "w") (MinimizerWindow p) [] _
             (mkParams (KmerSize ret1) (MinimizerWindow p) (UseHPC ret1)
                (MaxHPCLen ret1) (UseRC ret1)));
    [ | by rewrite app_nil_r | by apply not_elem_of_lit | done | done | ].
  2: { unfold set_param. change (str_eqb (lit "w") (lit "k")) with false.
       change (str_eqb (lit "w") (lit "w")) with true. cbv iota.
       by rewrite stoi_print_Z. }
  (* hpc *)
  unfold print_bool.
  rewrite (step_param _ (lit "hpc") (Z.b2z (UseHPC p)) [] _
             (mkParams (KmerSize ret1) (MinimizerWindow p) (UseHPC p)
                (MaxHPCLen ret1) (UseRC ret1)));
    [ | by rewrite app_nil_r | by apply not_elem_of_lit | done | done | ].
  2: { unfold set_param. change (str_eqb (lit "hpc") (lit "k")) with false.
       change (str_eqb (lit "hpc") (lit "w")) with false.
       change (str_eqb (lit "hpc") (lit "hpc")) with true. cbv iota.
       rewrite stoi_print_Z by (done || apply in_int32_b2z).
       cbn [mbind Result_bind mret Result_ret MinimizerWindow KmerSize MaxHPCLen UseRC].
       by rewrite b2z_nonzero. }
  (* hpc_len *)
  rewrite (step_param _ (lit "hpc_len") (MaxHPCLen p) [] _
             (mkParams (KmerSize ret1) (MinimizerWindow p) (UseHPC p)
                (MaxHPCLen p) (UseRC ret1)));
    [ | by rewrite app_nil_r | by apply not_elem_of_lit | done | done | ].
  2: { unfold set_param. change (str_eqb (lit "hpc_len") (lit "k")) with false.
       change (str_eqb (lit "hpc_len") (lit "w")) with false.
       change (str_eqb (lit "hpc_len") (lit "hpc")) with false.
       change (str_eqb (lit "hpc_len") (lit "hpc_len")) with true. cbv iota.
       by rewrite stoi_print_Z. }
  (* rc *)
  rewrite (step_param _ (lit "rc") (Z.b2z (UseRC p)) post _
             (mkParams (KmerSize ret1) (MinimizerWindow p) (UseHPC p)
                (MaxHPCLen p) (UseRC p)));
    [ done | done | by apply not_elem_of_lit | done | done | ].
  unfold set_param. change (str_eqb (lit "rc") (lit "k")) with false.
  change (str_eqb (lit "rc") (lit "w")) with false.
  change (str_eqb (lit "rc") (lit "hpc")) with false.
  change (str_eqb (lit "rc") (lit "hpc_len")) with false.
  change (str_eqb (lit "rc") (lit "rc")) with true. cbv iota.
  rewrite stoi_print_Z by (done || apply in_int32_b2z).
  cbn [mbind Result_bind mret Result_ret MinimizerWindow KmerSize MaxHPCLen UseHPC].
  by rewrite b2z_nonzero.
Qed.

(** The stream loader hands over the text from [k] on: all five are read. *)
Lemma ParseSeedDBParams_emitted (p : SeedDBParameters) :
  in_int32 (KmerSize p) -> in_int32 (MinimizerWindow p) -> in_int32 (MaxHPCLen p) ->
  ParseSeedDBParams (params_text [] p []) = Ok p.
Proof.
  intros Hk Hw Hl.
  rewrite (ParseSeedDBParams_text [] [] p
             (mkParams (KmerSize p) (MinimizerWindow default_seedParams)
                (UseHPC default_seedParams) (MaxHPCLen default_seedParams)
                (UseRC default_seedParams)));
    try done; try apply not_elem_of_nil.
  - by destruct p.
  - cbn [app]. unfold set_param. change (str_eqb (lit "k") (lit "k")) with true.
    cbv iota. rewrite <- (app_nil_r (print_Z (KmerSize p))).
    by rewrite stoi_print_Z.
Qed.

(** The FILE loader hands over the text from the character after [P]: the
    separator stays in front of [k], the name matches no parameter, and
    [KmerSize] keeps its default. *)
Lemma ParseSeedDBParams_after_P (sep : ascii) (p : SeedDBParameters) :
  isspace sep = true ->
  in_int32 (MinimizerWindow p) -> in_int32 (MaxHPCLen p) ->
  ParseSeedDBParams (params_text [sep] p [nl])
  = Ok (mkParams (KmerSize default_seedParams) (MinimizerWindow p) (UseHPC p)
          (MaxHPCLen p) (UseRC p)).
Proof.
  intros Hsep Hw Hl.
  assert (sep <> ","%char /\ sep <> "="%char) as [Hc He]
    by (split; intros ->; done).
  assert (forall c d : ascii, d <> c -> c ∉ [d]) as Hsingle.
  { intros c d Hcd [->|?%elem_of_nil]%elem_of_cons; done. }
  rewrite (ParseSeedDBParams_text [sep] [nl] p default_seedParams);
    try done; try (by apply Hsingle).
  unfold set_param. cbn [app].
  assert (forall name : Str, sep :: lit "k" <> name ->
            str_eqb (sep :: lit "k") name = false) as Hneq
    by (intros name Hname; by apply bool_decide_eq_false_2).
  rewrite !Hneq; [done|..].
  all: intros Heq; cbv in Heq; discriminate Heq.
Qed.

End ParamFacts.

(** ** The [P] record of the FILE loader *)

Lemma P_offset_loop_stays (fuel : nat) (lineLen : Z) : P_offset_loop fuel 1 lineLen = 1.
Proof.
  destruct fuel as [|fuel]; [done|]. cbn [P_offset_loop].
  change (1 =? Z.of_nat (nat_of_ascii " ")) with false.
  change (1 =? Z.of_nat (nat_of_ascii tab)) with false.
  by rewrite andb_false_r.
Qed.

Lemma c_str_id (x : Str) : NUL ∉ x -> c_str x = x.
Proof.
  induction x as [|c x IH]; [done|].
  intros [Hc Hx]%not_elem_of_cons. cbn [c_str].
  destruct (Ascii.eqb_spec c NUL) as [-> | _]; [done|]. by rewrite IH.
Qed.

(** A property of characters holds of the whole parameter text when it
    holds around it, of the five names and of digits and signs. *)
Lemma params_text_Forall (P : ascii -> Prop) (pre post : Str) (p : SeedDBParameters) :
  Forall P pre -> Forall P post -> (forall c, numchar c -> P c) ->
  Forall P (lit "k=,w=,hpc=,hpc_len=,rc=") ->
  Forall P (params_text pre p post).
Proof.
  intros Hpre Hpost Hnum Hlit.
  assert (forall z, Forall P (print_Z z)) as Hz.
  { intros z. eapply Forall_impl; [apply print_Z_chars | done]. }
  rewrite Forall_forall in Hlit.
  assert (forall l : string,
            forallb (fun c => existsb (Ascii.eqb c) (lit "k=,w=,hpc=,hpc_len=,rc=")) (lit l)
            = true -> Forall P (lit l)) as Hseg.
  { intros l Hl. rewrite forallb_forall in Hl. apply Forall_forall. intros c Hc.
    apply Hlit. apply list_elem_of_In in Hc. specialize (Hl c Hc).
    apply existsb_exists in Hl as (d & Hd & Heq). apply Ascii.eqb_eq in Heq.
    subst d. by apply list_elem_of_In. }
  unfold params_text, print_bool.
  repeat (first [ exact Hpre | exact Hpost | apply Hz
                | apply Hseg; reflexivity
                | apply Forall_app; split | apply Forall_cons; split
                | apply (Hlit ","%char); apply list_elem_of_In; simpl; tauto ]).
Qed.

Lemma params_text_no_NUL (p : SeedDBParameters) (sep : ascii) :
  isspace sep = true -> NUL ∉ sep :: params_text [] p [nl].
Proof.
  intros Hsep Hin.
  assert (Forall (fun c => c <> NUL) (sep :: params_text [] p [nl])) as Hall.
  { constructor; [by intros ->|].
    apply params_text_Forall; [done | by repeat constructor | | by repeat constructor].
    intros c Hc ->. by apply not_numchar_NUL. }
  rewrite Forall_forall in Hall. by apply (Hall NUL).
Qed.

Section FileLoaderFacts.
Context `{CacheHeader}.

(** ** C10 *)


End FileLoaderFacts.

(** A whole index with [k=28], read both ways. *)
Definition sample_index : SeedDBIndexCache :=
  mkCache (lit "x.seeddb") [] (lit "x.seeddb") (lit "0.1.0")
    (mkParams 28 70 true 5 false)
    [mkFileLine 0 (lit "x.0.seeds") 2 480]
    [mkSeedsLine 0 (lit "read0") 0 0 160 1000 10;
     mkSeedsLine 1 (lit "read1") 0 160 320 2000 20]
    [mkBlockLine 0 0 2 480].

Example FILE_loader_drops_k :
  (KmerSize <$> (seedParams <$>
     option_of (@LoadSeedDBIndexCache_FILE SampleCacheHeader (emit sample_index)
                  (lit "x.seeddb")))) = Some 30 /\
  @LoadSeedDBIndexCache_stream SampleCacheHeader "x"%char (emit sample_index)
     (lit "x.seeddb") = Ok sample_index.
Proof. split; by vm_compute. Qed.

(** ** The stream loader on the emitted text *)

(** The lines of the emitter, without their newline. *)
Definition line_V (v : Str) : Str := "V"%char :: tab :: v.

Definition line_P (p : SeedDBParameters) : Str :=
  "P"%char :: tab :: params_text [] p [].

Definition line_F (fl : SeedDBFileLine) : Str :=
  "F"%char :: tab :: print_Z (fl_fileId fl) ++ tab :: fl_filename fl
  ++ tab :: print_Z (fl_numSequences fl) ++ tab :: print_Z (fl_numBytes fl).

Definition line_S (sl : SeedDBSeedsLine) : Str :=
  "S"%char :: tab :: print_Z (sl_seqId sl) ++ tab :: sl_header sl
  ++ tab :: print_Z (sl_fileId sl) ++ tab :: print_Z (sl_fileOffset sl)
  ++ tab :: print_Z (sl_numBytes sl) ++ tab :: print_Z (sl_numBases sl)
  ++ tab :: print_Z (sl_numSeeds sl).

Definition line_B (bl : SeedDBBlockLine) : Str :=
  "B"%char :: tab :: print_Z (bl_blockId bl) ++ tab :: print_Z (bl_startSeqId bl)
  ++ tab :: print_Z (bl_endSeqId bl) ++ tab :: print_Z (bl_numBytes bl).

Definition emitted_lines (r : SeedDBIndexCache) : list Str :=
  [line_V (version r); line_P (seedParams r)]
  ++ map line_F (fileLines r) ++ map line_S (seedLines r) ++ map line_B (blockLines r).

Definition with_nl (l : Str) : Str := l ++ [nl].

Lemma emit_V_line v : emit_V v = with_nl (line_V v).
Proof. done. Qed.

Lemma emit_P_line p : emit_P p = with_nl (line_P p).
Proof.
  unfold emit_P, with_nl, line_P, params_text.
  cbv [lit list_ascii_of_string]. cbn [app].
  repeat (rewrite <- ?app_assoc; cbn [app]). done.
Qed.

Lemma emit_F_line fl : emit_F fl = with_nl (line_F fl).
Proof.
  unfold emit_F, with_nl, line_F. cbv [lit list_ascii_of_string]. cbn [app].
  repeat (rewrite <- ?app_assoc; cbn [app]). done.
Qed.

Lemma emit_S_line sl : emit_S sl = with_nl (line_S sl).
Proof.
  unfold emit_S, with_nl, line_S. cbv [lit list_ascii_of_string]. cbn [app].
  repeat (rewrite <- ?app_assoc; cbn [app]). done.
Qed.

Lemma emit_B_line bl : emit_B bl = with_nl (line_B bl).
Proof.
  unfold emit_B, with_nl, line_B. cbv [lit list_ascii_of_string]. cbn [app].
  repeat (rewrite <- ?app_assoc; cbn [app]). done.
Qed.

(** The emitter writes the lines [emitted_lines], each closed by a newline:
    a V line, one P line, then the F, the S and the B lines. *)
Lemma emit_lines (r : SeedDBIndexCache) :
  emit r = concat (map with_nl (emitted_lines r)).
Proof.
  unfold emit, emitted_lines. rewrite !map_app, !concat_app, !map_map.
  cbn [map concat app]. rewrite app_nil_r, <- emit_V_line, <- emit_P_line.
  rewrite <- app_assoc. f_equal. f_equal.
  f_equal; [|f_equal]; f_equal; apply map_ext; intros x;
    [apply emit_F_line | apply emit_S_line | apply emit_B_line].
Qed.

Lemma stream_lines_join (ls : list Str) :
  Forall (fun l => nl ∉ l) ls -> stream_lines (concat (map with_nl ls)) = ls.
Proof.
  unfold stream_lines, with_nl. induction 1 as [|l ls Hl _ IH]; [done|].
  cbn [map concat]. rewrite <- app_assoc. cbn [app].
  rewrite getline_all_segment by done. cbn [rev app]. by rewrite IH.
Qed.

(** Tokens the stream loader reads back whole: not empty, no whitespace. *)
Definition token_ok (x : Str) : Prop := x <> [] /\ no_space x.

Definition wf_params (p : SeedDBParameters) : Prop :=
  in_int32 (KmerSize p) /\ in_int32 (MinimizerWindow p) /\ in_int32 (MaxHPCLen p).

Definition wf_FileLine (fl : SeedDBFileLine) : Prop :=
  in_int32 (fl_fileId fl) /\ token_ok (fl_filename fl) /\
  in_int32 (fl_numSequences fl) /\ in_int64 (fl_numBytes fl).

Definition wf_SeedsLine (sl : SeedDBSeedsLine) : Prop :=
  in_int32 (sl_seqId sl) /\ token_ok (sl_header sl) /\ in_int32 (sl_fileId sl) /\
  in_int64 (sl_fileOffset sl) /\ in_int64 (sl_numBytes sl) /\
  in_int32 (sl_numBases sl) /\ in_int32 (sl_numSeeds sl).

Definition wf_BlockLine (bl : SeedDBBlockLine) : Prop :=
  in_int32 (bl_blockId bl) /\ in_int32 (bl_startSeqId bl) /\
  in_int32 (bl_endSeqId bl) /\ in_int64 (bl_numBytes bl).

(** [seqId] equals the ordinal, counting from [base]. *)
Definition ordinals_from (base : nat) (sls : list SeedDBSeedsLine) : Prop :=
  forall (i : nat) sl, sls !! i = Some sl -> sl_seqId sl = Z.of_nat (base + i).

(** An index cache the text format can carry: numbers in the range of
    their C++ types, version, file names and headers single tokens, the
    sequence ids equal to the ordinals, at least one sequence. *)
Definition canonical (c : SeedDBIndexCache) : Prop :=
  token_ok (version c) /\ wf_params (seedParams c) /\
  Forall wf_FileLine (fileLines c) /\ Forall wf_SeedsLine (seedLines c) /\
  Forall wf_BlockLine (blockLines c) /\
  ordinals_from 0 (seedLines c) /\ seedLines c <> [].

Lemma no_space_no_nl (x : Str) : no_space x -> nl ∉ x.
Proof.
  intros Hx Hin. unfold no_space in Hx. rewrite Forall_forall in Hx.
  by specialize (Hx nl Hin).
Qed.

Lemma no_space_app (x y : Str) : no_space x -> no_space y -> no_space (x ++ y).
Proof. intros. by apply Forall_app. Qed.

Lemma no_space_tab_false (x : Str) : ~ no_space (tab :: x).
Proof. intros Hx. by apply Forall_inv in Hx. Qed.

(** Fields joined by tabs hold no newline when the fields hold none. *)
Lemma nl_not_in_cons (c : ascii) (x : Str) : c <> nl -> nl ∉ x -> nl ∉ c :: x.
Proof. intros Hc Hx. by apply not_elem_of_cons. Qed.

Lemma nl_not_in_app (x y : Str) : nl ∉ x -> nl ∉ y -> nl ∉ x ++ y.
Proof. intros Hx Hy. rewrite elem_of_app. tauto. Qed.

Lemma nl_not_in_print_Z (z : Z) : nl ∉ print_Z z.
Proof. apply print_Z_no, not_numchar_nl. Qed.

Lemma params_text_no_space (p : SeedDBParameters) : no_space (params_text [] p []).
Proof.
  apply params_text_Forall; [done | done | apply numchar_not_space | by repeat constructor].
Qed.

Ltac no_nl :=
  repeat first
    [ apply nl_not_in_print_Z
    | apply no_space_no_nl; assumption
    | apply nl_not_in_cons; [done|]
    | apply nl_not_in_app
    | apply not_elem_of_nil ].

Lemma emitted_lines_no_nl (c : SeedDBIndexCache) :
  canonical c -> Forall (fun l => nl ∉ l) (emitted_lines c).
Proof.
  intros ([_ Hv] & _ & Hfl & Hsl & Hbl & _). unfold emitted_lines.
  apply Forall_app; split; [|apply Forall_app; split; [|apply Forall_app; split]].
  - constructor; [unfold line_V; no_nl|]. constructor; [|done].
    unfold line_P. apply nl_not_in_cons; [done|]. apply nl_not_in_cons; [done|].
    apply no_space_no_nl, params_text_no_space.
  - apply Forall_fmap. eapply Forall_impl; [exact Hfl|].
    intros fl (_ & [_ Hname] & _). unfold line_F. cbn. no_nl.
  - apply Forall_fmap. eapply Forall_impl; [exact Hsl|].
    intros sl (_ & [_ Hname] & _). unfold line_S. cbn. no_nl.
  - apply Forall_fmap. eapply Forall_impl; [exact Hbl|].
    intros bl _. unfold line_B. cbn. no_nl.
Qed.

Lemma get_char_first (c : ascii) (x : Str) (old : ascii) :
  isspace c = false -> get_char (istringstream (c :: x)) old = (mkIstream x false, c).
Proof. intros Hc. unfold get_char, istringstream. cbn. by rewrite Hc. Qed.

Lemma get_int_print_end (lo hi z : Z) (old : Z) :
  lo <= z <= hi ->
  get_int lo hi (mkIstream (tab :: print_Z z) false) old = (mkIstream [] false, z).
Proof.
  intros Hz. pose proof (get_int_print lo hi z [] old Hz I) as Hg.
  by rewrite app_nil_r in Hg.
Qed.

Lemma get_string_token_end (tok old : Str) :
  token_ok tok -> get_string (mkIstream (tab :: tok) false) old = (mkIstream [] false, tok).
Proof.
  intros [Hne Htok]. pose proof (get_string_token tok [] old Hne Htok I) as Hg.
  by rewrite app_nil_r in Hg.
Qed.

Lemma in_int32_bounds (z : Z) : in_int32 z -> INT32_MIN <= z <= INT32_MAX.
Proof. unfold in_int32, INT32_MIN, INT32_MAX. lia. Qed.

Lemma in_int64_bounds (z : Z) : in_int64 z -> INT64_MIN <= z <= INT64_MAX.
Proof. unfold in_int64, INT64_MIN, INT64_MAX. lia. Qed.

Section StreamLoaderFacts.
Context `{CacheHeader}.

Local Opaque print_Z get_int get_string.

Ltac read_field :=
  first
    [ rewrite get_int_print by (first [by apply in_int32_bounds | by apply in_int64_bounds | done])
    | rewrite get_int_print_end by (first [by apply in_int32_bounds | by apply in_int64_bounds])
    | rewrite get_string_token by done
    | rewrite get_string_token_end by done ];
  cbv beta iota.

Lemma stream_record_V cache token v :
  token_ok v ->
  stream_record cache token (line_V v) = Ok (set_version cache v, "V"%char).
Proof.
  intros Hv. unfold stream_record, line_V.
  rewrite get_char_first by done. cbv beta iota. by read_field.
Qed.

Lemma stream_record_P cache token p :
  wf_params p ->
  stream_record cache token (line_P p) = Ok (set_seedParams cache p, "P"%char).
Proof.
  intros (Hk & Hw & Hl). unfold stream_record, line_P.
  rewrite get_char_first by done. cbv beta iota.
  rewrite get_string_token_end.
  - cbv beta iota. by rewrite ParseSeedDBParams_emitted.
  - split; [|apply params_text_no_space].
    unfold params_text. cbn [app lit list_ascii_of_string]. done.
Qed.

Lemma stream_record_F cache token fl :
  wf_FileLine fl ->
  stream_record cache token (line_F fl) = Ok (add_fileLine cache fl, "F"%char).
Proof.
  intros (H1 & [H2 H2'] & H3 & H4). unfold stream_record, line_F.
  rewrite get_char_first by done. cbv beta iota.
  unfold get_int32, get_int64. do 4 read_field. by destruct fl.
Qed.

Lemma stream_record_S cache token sl :
  wf_SeedsLine sl ->
  sl_seqId sl = Z.of_nat (length (seedLines cache)) ->
  stream_record cache token (line_S sl) = Ok (add_seedLine cache sl, "S"%char).
Proof.
  intros (H1 & [H2 H2'] & H3 & H4 & H5 & H6 & H7) Hid. unfold stream_record, line_S.
  rewrite get_char_first by done. cbv beta iota.
  unfold get_int32, get_int64. do 7 read_field.
  rewrite <- Hid, wrap32_id, Z.eqb_refl by done. cbn [negb]. by destruct sl.
Qed.

Lemma stream_record_B cache token bl :
  wf_BlockLine bl ->
  stream_record cache token (line_B bl) = Ok (add_blockLine cache bl, "B"%char).
Proof.
  intros (H1 & H2 & H3 & H4). unfold stream_record, line_B.
  rewrite get_char_first by done. cbv beta iota.
  unfold get_int32, get_int64. do 4 read_field. by destruct bl.
Qed.

Lemma stream_loop_app lines1 lines2 cache token :
  stream_loop (lines1 ++ lines2) cache token
  = (st ← stream_loop lines1 cache token; stream_loop lines2 st.1 st.2).
Proof.
  revert cache token. induction lines1 as [|l lines1 IH]; intros cache token; [done|].
  cbn [app stream_loop]. destruct (stream_record cache token l) as [st|]; [|done].
  cbn [mbind Result_bind]. apply IH.
Qed.

(** The tables of a cache, with the fields of the header left alone. *)
Definition with_tables (c : SeedDBIndexCache) (fls : list SeedDBFileLine)
    (sls : list SeedDBSeedsLine) (bls : list SeedDBBlockLine) : SeedDBIndexCache :=
  mkCache (indexFilename c) (indexParentFolder c) (indexBasename c) (version c)
    (seedParams c) fls sls bls.

Lemma with_tables_id c : with_tables c (fileLines c) (seedLines c) (blockLines c) = c.
Proof. by destruct c. Qed.

Lemma stream_loop_F (fls : list SeedDBFileLine) : forall cache token,
  Forall wf_FileLine fls ->
  exists token',
    stream_loop (map line_F fls) cache token
    = Ok (with_tables cache (fileLines cache ++ fls) (seedLines cache) (blockLines cache),
          token').
Proof.
  induction fls as [|fl fls IH]; intros cache token Hwf.
  - exists token. cbn. by rewrite app_nil_r, with_tables_id.
  - apply Forall_cons_1 in Hwf as [Hfl Hfls]. cbn [map stream_loop].
    rewrite stream_record_F by done. cbn [mbind Result_bind fst snd].
    destruct (IH (add_fileLine cache fl) "F"%char Hfls) as [token' ->].
    exists token'. unfold with_tables, add_fileLine. cbn. by rewrite <- app_assoc.
Qed.

Lemma stream_loop_B (bls : list SeedDBBlockLine) : forall cache token,
  Forall wf_BlockLine bls ->
  exists token',
    stream_loop (map line_B bls) cache token
    = Ok (with_tables cache (fileLines cache) (seedLines cache) (blockLines cache ++ bls),
          token').
Proof.
  induction bls as [|bl bls IH]; intros cache token Hwf.
  - exists token. cbn. by rewrite app_nil_r, with_tables_id.
  - apply Forall_cons_1 in Hwf as [Hbl Hbls]. cbn [map stream_loop].
    rewrite stream_record_B by done. cbn [mbind Result_bind fst snd].
    destruct (IH (add_blockLine cache bl) "B"%char Hbls) as [token' ->].
    exists token'. unfold with_tables, add_blockLine. cbn. by rewrite <- app_assoc.
Qed.

Lemma stream_loop_S (sls : list SeedDBSeedsLine) : forall cache token,
  Forall wf_SeedsLine sls ->
  ordinals_from (length (seedLines cache)) sls ->
  exists token',
    stream_loop (map line_S sls) cache token
    = Ok (with_tables cache (fileLines cache) (seedLines cache ++ sls) (blockLines cache),
          token').
Proof.
  induction sls as [|sl sls IH]; intros cache token Hwf Hord.
  - exists token. cbn. by rewrite app_nil_r, with_tables_id.
  - apply Forall_cons_1 in Hwf as [Hsl Hsls]. cbn [map stream_loop].
    rewrite stream_record_S; [|done|].
    2: { rewrite (Hord 0%nat sl) by done. f_equal. lia. }
    cbn [mbind Result_bind fst snd].
    destruct (IH (add_seedLine cache sl) "S"%char Hsls) as [token' ->].
    + intros i sl' Hi. rewrite (Hord (S i) sl') by done.
      unfold add_seedLine. cbn [seedLines]. rewrite length_app. cbn [length]. f_equal. lia.
    + exists token'. unfold with_tables, add_seedLine. cbn. by rewrite <- app_assoc.
Qed.

(** The loop of the stream loader over the emitted lines of a canonical
    cache rebuilds its version, parameters and tables. *)
Lemma stream_loop_emitted (c cache0 : SeedDBIndexCache) (token0 : ascii) :
  canonical c ->
  fileLines cache0 = [] -> seedLines cache0 = [] -> blockLines cache0 = [] ->
  exists token',
    stream_loop (emitted_lines c) cache0 token0
    = Ok (mkCache (indexFilename cache0) (indexParentFolder cache0) (indexBasename cache0)
            (version c) (seedParams c) (fileLines c) (seedLines c) (blockLines c),
          token').
Proof.
  intros (Hv & Hp & Hfl & Hsl & Hbl & Hord & _) Hf0 Hs0 Hb0.
  unfold emitted_lines. cbn [app stream_loop].
  rewrite stream_record_V by done. cbn [mbind Result_bind fst snd].
  rewrite stream_record_P by done. cbn [mbind Result_bind fst snd].
  rewrite stream_loop_app.
  destruct (stream_loop_F (fileLines c)
              (set_seedParams (set_version cache0 (version c)) (seedParams c))
              "P"%char Hfl) as [t1 ->].
  cbn [mbind Result_bind fst snd]. rewrite stream_loop_app.
  match goal with |- context [stream_loop (map line_S _) ?cache ?t] =>
    destruct (stream_loop_S (seedLines c) cache t Hsl) as [t2 ->]
  end.
  { cbn. by rewrite Hs0. }
  cbn [mbind Result_bind fst snd].
  match goal with |- context [stream_loop (map line_B _) ?cache ?t] =>
    destruct (stream_loop_B (blockLines c) cache t Hbl) as [t3 ->]
  end.
  exists t3. cbn. by rewrite Hf0, Hs0, Hb0.
Qed.

End StreamLoaderFacts.

(** ** C2 *)

(** An index whose one sequence has a header of two words. *)
Definition spaced_index : SeedDBIndexCache :=
  mkCache (lit "x.seeddb") [] (lit "x.seeddb") (lit "0.1.0")
    (mkParams 28 70 true 5 false)
    [mkFileLine 0 (lit "x.0.seeds") 1 160]
    [mkSeedsLine 0 (lit "read0 ccs") 0 0 160 1000 10]
    [mkBlockLine 0 0 1 160].

(** C2 as stated fails: a cache with one S record whose header holds a
    blank is emitted, and the text loads into different S records. *)
Lemma C2_header_with_blank_not_reproduced :
  seedLines spaced_index <> [] /\
  exists c', @LoadSeedDBIndexCache_stream SampleCacheHeader "x"%char
               (emit spaced_index) (lit "x.seeddb") = Ok c' /\
             seedLines c' = [mkSeedsLine 0 (lit "read0") 0 0 0 0 0] /\
             seedLines c' <> seedLines spaced_index.
Proof.
  split; [done|]. eexists. split; [by vm_compute|]. split; [by vm_compute|].
  by vm_compute.
Qed.

Section RoundTrip.
Context `{CacheHeader}.

(** C2, amended.  The emitter writes, each on its own line and with tabs
    between the fields, a V line, one P line with the keys in the order
    k, w, hpc, hpc_len, rc, then all F, all S and all B lines.  For every
    index cache that the text format can carry (at least one S record,
    sequence ids equal to the ordinals, version, file names and headers
    non-empty and free of whitespace, numbers in the range of their types),
    the stream loader reads the emitted text back into the same version,
    parameters and F, S and B tables. *)
Theorem C2_emit_load_roundtrip (c : SeedDBIndexCache) (token0 : ascii) (filename : Str) :
  canonical c ->
  emit c = concat (map with_nl (emitted_lines c)) /\
  stream_lines (emit c) = emitted_lines c /\
  LoadSeedDBIndexCache_stream token0 (emit c) filename
  = Ok (mkCache filename (SplitPath filename).1 (SplitPath filename).2
          (version c) (seedParams c) (fileLines c) (seedLines c) (blockLines c)).
Proof.
  intros Hc. pose proof (emit_lines c) as Hemit.
  assert (stream_lines (emit c) = emitted_lines c) as Hlines
    by (rewrite Hemit; by apply stream_lines_join, emitted_lines_no_nl).
  split; [done|]. split; [done|].
  unfold LoadSeedDBIndexCache_stream. rewrite Hlines.
  destruct (stream_loop_emitted c (new_cache filename) token0 Hc) as [token' ->];
    [done..|].
  cbn [mbind Result_bind fst snd seedLines].
  destruct Hc as (_ & _ & _ & _ & _ & _ & Hne).
  by rewrite bool_decide_eq_false_2.
Qed.

End RoundTrip.

Lemma token_ok_check (x : Str) :
  forallb (fun c => negb (isspace c)) x = true -> x <> [] -> token_ok x.
Proof.
  rewrite forallb_forall. intros Hall Hne. split; [done|].
  apply Forall_forall. intros c Hc.
  apply list_elem_of_In in Hc. by apply negb_true_iff, Hall.
Qed.

Lemma sample_index_canonical : canonical sample_index.
Proof.
  assert (forall z, -1000000 <= z <= 1000000 -> in_int32 z) as H32
    by (unfold in_int32; intros; lia).
  assert (forall z, -1000000 <= z <= 1000000 -> in_int64 z) as H64
    by (unfold in_int64; intros; lia).
  unfold canonical, sample_index.
  cbn [version seedParams fileLines seedLines blockLines].
  split; [by apply token_ok_check|].
  split; [repeat split; apply H32; cbn; lia|].
  split; [|split; [|split; [|split; [|done]]]].
  - constructor; [|constructor].
    split; [apply H32; cbn; lia|]. split; [by apply token_ok_check|].
    split; [apply H32 | apply H64]; cbn; lia.
  - constructor; [|constructor; [|constructor]].
    all: split; [apply H32; cbn; lia|]; split; [by apply token_ok_check|].
    all: repeat split; first [apply H32 | apply H64]; cbn; lia.
  - constructor; [|constructor].
    repeat split; first [apply H32 | apply H64]; cbn; lia.
  - intros [|[|i]] sl; cbn; intros [= <-]; done.
Qed.

Lemma C2_emit_load_roundtrip_witness :
  @LoadSeedDBIndexCache_stream SampleCacheHeader "x"%char (emit sample_index)
    (lit "x.seeddb") = Ok sample_index.
Proof.
  exact (proj2 (proj2 (@C2_emit_load_roundtrip SampleCacheHeader sample_index "x"%char
                         (lit "x.seeddb") sample_index_canonical))).
Defined.

(** ** Indexes without sequences *)

(** The first character of a line that is not whitespace is not [S]. *)
Definition not_S_record (line : Str) : Prop :=
  match skip_ws line with
  | c :: _ => c <> "S"%char
  | [] => True
  end.

Section EmptyIndexFacts.
Context `{CacheHeader}.

Lemma get_char_token (line : Str) (token : ascii) :
  (get_char (istringstream line) token).2
  = match skip_ws line with c :: _ => c | [] => token end.
Proof. unfold get_char, istringstream. cbn. by destruct (skip_ws line). Qed.

Ltac split_lets :=
  repeat match goal with
  | |- context [let '(_, _) := ?x in _] => destruct x
  end.

(** A record of the stream loader that is not dispatched on [S] leaves the
    S table alone; the token it returns is the one it dispatched on. *)
Lemma stream_record_not_S cache token line st :
  stream_record cache token line = Ok st ->
  st.2 = (match line with
          | [] => token
          | _ => (get_char (istringstream line) token).2
          end) /\
  (st.2 <> "S"%char -> seedLines st.1 = seedLines cache).
Proof.
  unfold stream_record. destruct line as [|c0 line]; [by intros [= <-]|].
  destruct (get_char (istringstream (c0 :: line)) token) as [iss t]. cbn [snd].
  destruct t as [[] [] [] [] [] [] [] []]; try done.
  all: split_lets.
  all: try (destruct (negb _); [done|]).
  all: try (destruct (ParseSeedDBParams _); [|done]).
  all: cbn [mbind Result_bind mret Result_ret]; by intros [= <-].
Qed.

Lemma stream_loop_not_S : forall lines cache token st,
  token <> "S"%char -> Forall not_S_record lines ->
  stream_loop lines cache token = Ok st ->
  seedLines st.1 = seedLines cache.
Proof.
  induction lines as [|line lines IH]; intros cache token st Htok Hlines.
  { by intros [= <-]. }
  apply Forall_cons_1 in Hlines as [Hline Hlines]. cbn [stream_loop].
  destruct (stream_record cache token line) as [st1|] eqn:Hrec; [|done].
  cbn [mbind Result_bind]. intros Hloop.
  destruct (stream_record_not_S _ _ _ _ Hrec) as [Htok1 Hseeds].
  assert (st1.2 <> "S"%char) as Hst1.
  { rewrite Htok1. destruct line as [|c0 line]; [done|].
    rewrite get_char_token. unfold not_S_record in Hline.
    by destruct (skip_ws (c0 :: line)). }
  rewrite (IH _ _ _ Hst1 Hlines Hloop). by apply Hseeds.
Qed.

(** A record of the FILE loader that does not begin with [S] leaves the S
    table alone. *)
Lemma file_record_not_S cache totalNumSeqs raw st :
  hd NUL (c_str raw) <> "S"%char ->
  file_record cache totalNumSeqs raw = Ok st ->
  seedLines st.1 = seedLines cache.
Proof.
  unfold file_record. intros Htok.
  destruct (hd NUL (c_str raw)) as [[] [] [] [] [] [] [] []]; try done.
  all: repeat match goal with
       | |- context [match ?x with Some _ => _ | None => _ end] => destruct x
       | |- context [let '(_, _) := ?x in _] => destruct x
       | |- context [if ?b then _ else _] => destruct b
       | |- context [mbind _ ?x] => destruct x; cbn [mbind Result_bind mret Result_ret]
       end; try done.
  all: by intros [= <-].
Qed.

Lemma file_loop_not_S : forall lines cache totalNumSeqs c,
  Forall (fun raw => hd NUL (c_str raw) <> "S"%char) lines ->
  file_loop lines cache totalNumSeqs = Ok c ->
  seedLines c = seedLines cache.
Proof.
  induction lines as [|line lines IH]; intros cache totalNumSeqs c Hlines.
  { by intros [= <-]. }
  apply Forall_cons_1 in Hlines as [Hline Hlines]. cbn [file_loop].
  destruct (file_record cache totalNumSeqs line) as [st1|] eqn:Hrec; [|done].
  cbn [mbind Result_bind]. intros Hloop.
  rewrite (IH _ _ _ Hlines Hloop). by eapply file_record_not_S.
Qed.

End EmptyIndexFacts.

(** ** C8 *)

(** An index with a version, parameters, a file and a block, and no
    sequence. *)
Definition index_without_sequences : SeedDBIndexCache :=
  mkCache (lit "x.seeddb") [] (lit "x.seeddb") (lit "0.1.0")
    (mkParams 30 80 false 10 true)
    [mkFileLine 0 (lit "x.0.seeds") 0 0] [] [mkBlockLine 0 0 0 0].

(** C8 fails on the FILE loader.  On an input without S records the stream
    loader never returns a cache, and throws [EmptyIndex] when its loop
    ran through; the FILE loader has no such test: whenever it returns, it
    returns a cache with an empty S table, as it does on the text of
    [index_without_sequences]. *)
Theorem C8_file_loader_returns_empty_index :
  (forall (H : CacheHeader) token0 input filename,
     token0 <> "S"%char -> Forall not_S_record (stream_lines input) ->
     (forall c, LoadSeedDBIndexCache_stream token0 input filename <> Ok c) /\
     (forall st, stream_loop (stream_lines input) (new_cache filename) token0 = Ok st ->
        LoadSeedDBIndexCache_stream token0 input filename = Throw EmptyIndex)) /\
  (forall (H : CacheHeader) input filename c,
     Forall (fun raw => hd NUL (c_str raw) <> "S"%char) (file_lines input []) ->
     LoadSeedDBIndexCache_FILE input filename = Ok c -> seedLines c = []) /\
  (@LoadSeedDBIndexCache_stream SampleCacheHeader "x"%char
     (emit index_without_sequences) (lit "x.seeddb") = Throw EmptyIndex /\
   @LoadSeedDBIndexCache_FILE SampleCacheHeader
     (emit index_without_sequences) (lit "x.seeddb") = Ok index_without_sequences /\
   seedLines index_without_sequences = []).
Proof.
  split; [|split].
  - intros H token0 input filename Htok Hlines.
    unfold LoadSeedDBIndexCache_stream.
    destruct (stream_loop _ _ _) as [st|] eqn:Hloop; cbn [mbind Result_bind]; [|done].
    apply stream_loop_not_S in Hloop; [|done..]. cbn [new_cache seedLines] in Hloop.
    rewrite bool_decide_eq_true_2 by done. split; [done|]. by intros st' [= <-].
  - intros H input filename c Hlines Hload.
    by apply file_loop_not_S in Hload.
  - split; [by vm_compute|]. split; by vm_compute.
Qed.

(* ===================================================================== *)
(** ** C9: the rank of the frequency cutoff *)
(* ===================================================================== *)

(** The sanity check of [ComputeFrequencyStats] lets the cutoff through. *)
Definition in_unit_interval (p : double) : Prop :=
  Double.ltb p (Double.of_Z 0) || Double.ltb (Double.of_Z 1) p = false.

Lemma vec_at_in_range (v : list Z) (i : Z) :
  0 <= i < Z.of_nat (length v) -> exists x, vec_at v i = Some x.
Proof.
  intros Hi. unfold vec_at. destruct (Z.ltb_spec i 0); [lia|].
  apply lookup_lt_is_Some_2. lia.
Qed.

Lemma vec_at_out_of_range (v : list Z) (i : Z) :
  ~ 0 <= i < Z.of_nat (length v) -> vec_at v i = None.
Proof.
  intros Hi. unfold vec_at. destruct (Z.ltb_spec i 0); [done|].
  apply lookup_ge_None_2. lia.
Qed.

Lemma half_in_range (n : Z) : 0 <= n -> 0 <= Z.quot n 2 <= n.
Proof.
  intros Hn. rewrite Z.quot_div_nonneg by lia. split.
  - apply Z.div_pos; lia.
  - apply Z.div_le_upper_bound; lia.
Qed.

Lemma bucket_sizes_empty : bucket_sizes ∅ = [].
Proof. unfold bucket_sizes. by rewrite map_to_list_empty. Qed.

(** With [N] nonzero buckets and a cutoff the check accepts, the outcome is
    decided by the rank alone: the sorted frequency at the rank when the
    rank is below [N], a read outside the vector otherwise. *)
Lemma ComputeFrequencyStats_by_rank (idx : SeedIndex) (p : double) (r : Z) :
  let freqs := radix_sort (bucket_sizes (hash_ idx)) in
  let N := Z.of_nat (length freqs) in
  0 < N -> in_unit_interval p -> cutoff_rank N p = Some r ->
  if bool_decide (0 <= r < N)
  then exists st, ComputeFrequencyStats idx p = Ok st /\
                  vec_at freqs r = Some (retFreqCutoff st)
  else ComputeFrequencyStats idx p = Throw OutOfBoundsRead.
Proof.
  intros freqs N HN Hp Hr. unfold ComputeFrequencyStats. rewrite Hp.
  subst N freqs. rewrite radix_sort_length in *.
  destruct (bool_decide_reflect (hash_ idx = ∅)) as [Hempty|Hempty].
  { rewrite Hempty, bucket_sizes_empty in HN. simpl in HN. lia. }
  cbv zeta.
  destruct (Z.leb_spec (Z.of_nat (length (bucket_sizes (hash_ idx)))) 0); [lia|].
  rewrite Hr.
  set (freqs := radix_sort (bucket_sizes (hash_ idx))).
  assert (Z.of_nat (length freqs) = Z.of_nat (length (bucket_sizes (hash_ idx)))) as Hlen
    by (unfold freqs; by rewrite radix_sort_length).
  destruct (last freqs) as [freqMax|] eqn:Hlast.
  2:{ apply last_None in Hlast. rewrite Hlast in Hlen. simpl in Hlen. lia. }
  pose proof (half_in_range (Z.of_nat (length (bucket_sizes (hash_ idx))))) as Hhi.
  pose proof (half_in_range (Z.of_nat (length (bucket_sizes (hash_ idx))) - 1)) as Hlo.
  assert (Z.quot (Z.of_nat (length (bucket_sizes (hash_ idx)))) 2
          <> Z.of_nat (length (bucket_sizes (hash_ idx)))) as Hne.
  { rewrite Z.quot_div_nonneg by lia. intros Heq.
    pose proof (Z.div_lt (Z.of_nat (length (bucket_sizes (hash_ idx)))) 2). lia. }
  destruct (vec_at_in_range freqs
              (Z.quot (Z.of_nat (length (bucket_sizes (hash_ idx)))) 2)) as [hi Hhi'];
    [lia|].
  destruct (vec_at_in_range freqs
              (Z.quot (Z.of_nat (length (bucket_sizes (hash_ idx))) - 1) 2)) as [lo Hlo'];
    [lia|].
  rewrite Hhi', Hlo'.
  case_bool_decide as Hin.
  - destruct (vec_at_in_range freqs r) as [c Hc]; [lia|]. rewrite Hc.
    eexists. split; [done|]. done.
  - rewrite (vec_at_out_of_range freqs r) by lia. done.
Qed.

(** At [percentileCutoff = 0.0] the rank is [N]: one past the last
    frequency. *)
Lemma ComputeFrequencyStats_zero (idx : SeedIndex) :
  0 < Z.of_nat (length (radix_sort (bucket_sizes (hash_ idx)))) < 2 ^ 53 ->
  ComputeFrequencyStats idx (Double.of_Z 0) = Throw OutOfBoundsRead.
Proof.
  intros HN.
  pose proof (ComputeFrequencyStats_by_rank idx (Double.of_Z 0) _
                ltac:(lia) eq_refl (cutoff_rank_zero _ HN)) as Hrank.
  cbv zeta in Hrank. case_bool_decide; [lia|done].
Qed.

Section FrequencyFacts.
Context `{SeedCodec}.

(** A built index over at least one seed has a nonzero bucket. *)
Lemma built_index_has_bucket cache (seeds : list SeedRaw) :
  seeds <> [] -> bucket_sizes (hash_ (SeedIndex_new cache seeds)) <> [].
Proof.
  intros Hne.
  destruct (SeedIndex_new_spec cache seeds) as (_ & Hperm & Hok & Hcomp).
  destruct (seeds_ (SeedIndex_new cache seeds)) as [|w ws] eqn:Hs.
  { apply Permutation_nil_l in Hperm. by subst. }
  destruct (Hcomp 0%nat w eq_refl) as (se & Hse & _).
  destruct (Hok _ _ Hse) as (Hspan & _).
  intros Hnil.
  assert (se.2 - se.1 ∈ bucket_sizes (hash_ (SeedIndex_new cache seeds))) as Hin.
  { unfold bucket_sizes. apply list_elem_of_filter. split; [lia|].
    apply list_elem_of_fmap. exists (DecodeKey w, se). split; [done|].
    by apply elem_of_map_to_list. }
  rewrite Hnil in Hin. by apply not_elem_of_nil in Hin.
Qed.

(** C9 fails at [percentileCutoff = 0.0].  For an index built from at least
    one seed, with [N] nonzero buckets, a cutoff in [0, 1] whose rank
    [floor(N * (1 - percentileCutoff))] is [r] yields the sorted frequency
    at [r] when [r < N]; the rank of [0.0] is [N] itself, and the read
    [freqs[N]] is outside the [N] sorted frequencies. *)
Theorem C9_frequency_cutoff_rank cache (seeds : list SeedRaw) :
  let idx := SeedIndex_new cache seeds in
  let freqs := radix_sort (bucket_sizes (hash_ idx)) in
  let N := Z.of_nat (length freqs) in
  seeds <> [] -> N < 2 ^ 53 ->
  0 < N /\
  (forall p r, in_unit_interval p -> cutoff_rank N p = Some r ->
     if bool_decide (0 <= r < N)
     then exists st, ComputeFrequencyStats idx p = Ok st /\
                     vec_at freqs r = Some (retFreqCutoff st)
     else ComputeFrequencyStats idx p = Throw OutOfBoundsRead) /\
  in_unit_interval (Double.of_Z 0) /\
  cutoff_rank N (Double.of_Z 0) = Some N /\
  vec_at freqs N = None /\
  ComputeFrequencyStats idx (Double.of_Z 0) = Throw OutOfBoundsRead.
Proof.
  intros idx freqs N Hne HN.
  assert (0 < N) as Hpos.
  { subst N freqs. rewrite radix_sort_length.
    pose proof (built_index_has_bucket cache seeds Hne) as Hb. fold idx in Hb.
    destruct (bucket_sizes (hash_ idx)); [done|]. simpl. lia. }
  split; [done|]. split.
  { intros p r Hp Hr. by apply ComputeFrequencyStats_by_rank. }
  split; [done|]. split; [by apply cutoff_rank_zero|]. split.
  - apply vec_at_out_of_range. subst N. lia.
  - apply ComputeFrequencyStats_zero. subst N freqs. lia.
Qed.

End FrequencyFacts.

(** Three seeds over two keys: the buckets have sizes 2 and 1. *)
Definition stats_seeds : list SeedRaw :=
  [Encode 7 0 0 false; Encode 9 0 3 true; Encode 7 1 5 false].

Definition stats_cache : SeedDBIndexCache :=
  mkCache [] [] [] (lit "0.1.0") (mkParams 30 80 false 10 true) []
    [mkSeedsLine 0 (lit "s0") 0 0 0 100 2; mkSeedsLine 1 (lit "s1") 0 0 0 100 1] [].

Definition stats_index : SeedIndex :=
  @SeedIndex_new PackedSeedCodec stats_cache stats_seeds.

Lemma C9_frequency_cutoff_rank_witness :
  radix_sort (bucket_sizes (hash_ stats_index)) = [1; 2] /\
  cutoff_rank 2 (Double.of_Z 0) = Some 2 /\
  ComputeFrequencyStats stats_index (Double.of_Z 0) = Throw OutOfBoundsRead.
Proof.
  split; [by vm_compute|].
  assert (stats_seeds <> []) as Hne by done.
  assert (Z.of_nat (length (radix_sort (bucket_sizes (hash_ stats_index)))) < 2 ^ 53)
    as Hlt by (by vm_compute).
  pose proof (@C9_frequency_cutoff_rank PackedSeedCodec stats_cache stats_seeds Hne Hlt)
    as (_ & _ & _ & Hrank & _ & Hthrow).
  split; [exact Hrank | exact Hthrow].
Defined.

(** The same index at cutoffs whose rank is below [N]. *)
Example ComputeFrequencyStats_in_range :
  (retFreqCutoff <$> option_of (ComputeFrequencyStats stats_index (Double.of_Z 1))) = Some 1 /\
  (retFreqMax <$> option_of (ComputeFrequencyStats stats_index (Double.of_Z 1))) = Some 2.
Proof. by vm_compute. Qed.

(* ===================================================================== *)
(** * Further properties *)
(* ===================================================================== *)

(** ** The seed index as a multimap *)

Lemma filter_keep_all {A} (P : A -> Prop) `{!forall x, Decision (P x)} (l : list A) :
  Forall P l -> filter P l = l.
Proof.
  induction 1 as [|x l Hx _ IH]; [done|].
  rewrite filter_cons_True by done. by rewrite IH.
Qed.

Lemma filter_drop_all {A} (P : A -> Prop) `{!forall x, Decision (P x)} (l : list A) :
  Forall (fun x => ~ P x) l -> filter P l = [].
Proof.
  induction 1 as [|x l Hx _ IH]; [done|].
  by rewrite filter_cons_False.
Qed.

(** When the elements that satisfy [P] are those at the positions
    [[s, e)], filtering cuts out that slice. *)
Lemma filter_run {A} (P : A -> Prop) `{!forall x, Decision (P x)}
    (l : list A) (s e : nat) :
  (s <= e <= length l)%nat ->
  (forall (j : nat) x, l !! j = Some x -> P x <-> (s <= j < e)%nat) ->
  filter P l = take (e - s) (drop s l).
Proof.
  intros Hse HP.
  rewrite <- (take_drop s l) at 1.
  rewrite <- (take_drop (e - s) (drop s l)) at 1.
  rewrite !filter_app.
  rewrite (filter_drop_all P (take s l)), (filter_keep_all P (take (e - s) (drop s l))),
    (filter_drop_all P (drop (e - s) (drop s l))).
  - by rewrite app_nil_r.
  - apply Forall_lookup_2. intros j x Hx.
    rewrite !lookup_drop in Hx. rewrite (HP _ _ Hx). lia.
  - apply Forall_lookup_2. intros j x Hx.
    apply lookup_take_Some in Hx as [Hx Hj]. rewrite lookup_drop in Hx.
    rewrite (HP _ _ Hx). lia.
  - apply Forall_lookup_2. intros j x Hx.
    apply lookup_take_Some in Hx as [Hx Hj]. rewrite (HP _ _ Hx). lia.
Qed.

Section SeedIndexLookup.
Context `{SeedCodec}.

Lemma SeedIndex_new_seeds cache (seeds : list SeedRaw) :
  seeds_ (SeedIndex_new cache seeds) = radix_sort seeds.
Proof.
  unfold SeedIndex_new, BuildHash_. destruct seeds as [|a seeds']; [done|].
  cbv zeta. destruct (radix_sort (a :: seeds')) as [|seed0 rest]; [done|].
  by destruct (_ <? _).
Qed.

(** The bucket of a key is the run of the seeds with this key in the
    sorted array. *)
Lemma GetSeeds_filter cache (seeds : list SeedRaw) (k : Z) :
  let idx := SeedIndex_new cache seeds in
  (GetSeeds idx k).2 = filter (fun w => DecodeKey w = k) (radix_sort seeds) /\
  (GetSeeds idx k).1 = Z.of_nat (length (GetSeeds idx k).2).
Proof.
  intros idx.
  destruct (SeedIndex_new_spec cache seeds) as (_ & _ & Hok & Hcomp).
  fold idx in Hok, Hcomp.
  rewrite <- (SeedIndex_new_seeds cache seeds). fold idx.
  unfold GetSeeds. destruct (hash_ idx !! k) as [[s e]|] eqn:Hk; cbn [fst snd].
  - destruct (Hok _ _ Hk) as (Hse & Hlen & Hrun). cbn [fst snd] in *.
    unfold slice. split.
    + symmetry.
      replace (Z.to_nat (e - s)) with (Z.to_nat e - Z.to_nat s)%nat by lia.
      apply filter_run; [lia|].
      intros j x Hx. split.
      * intros Hkey. destruct (Hcomp j x Hx) as (se & Hse' & Hj).
        rewrite Hkey, Hk in Hse'. injection Hse' as <-. cbn [fst snd] in Hj. lia.
      * intros Hj. destruct (Hrun (Z.of_nat j)) as (w & Hw & Hkey); [lia|].
        rewrite Nat2Z.id, Hx in Hw. by injection Hw as <-.
    + rewrite length_take, length_drop. lia.
  - split; [|done]. symmetry. apply filter_drop_all, Forall_lookup_2.
    intros j x Hx Hkey. destruct (Hcomp j x Hx) as (se & Hse' & _).
    rewrite Hkey, Hk in Hse'. done.
Qed.

(** X1.  [GetSeeds] on a built index returns, for every key, exactly the
    seeds of the input that decode to this key (each as often as the input
    holds it), with their number as the return value; so every seed handed
    to the constructor is found under its own key. *)
Theorem GetSeeds_returns_all_seeds_of_key cache (seeds : list SeedRaw) (k : Z) :
  let idx := SeedIndex_new cache seeds in
  (GetSeeds idx k).2 ≡ₚ filter (fun w => DecodeKey w = k) seeds /\
  (GetSeeds idx k).1 = Z.of_nat (length (filter (fun w => DecodeKey w = k) seeds)) /\
  (forall w, w ∈ seeds -> DecodeKey w = k -> w ∈ (GetSeeds idx k).2).
Proof.
  intros idx. destruct (GetSeeds_filter cache seeds k) as [Hl Hn]. fold idx in Hl, Hn.
  assert ((GetSeeds idx k).2 ≡ₚ filter (fun w => DecodeKey w = k) seeds) as Hperm.
  { rewrite Hl. by rewrite radix_sort_Permutation. }
  split; [done|]. split.
  - rewrite Hn. by rewrite Hperm.
  - intros w Hw Hkey. rewrite Hperm. by apply list_elem_of_filter.
Qed.

End SeedIndexLookup.

(** ** The hits of a query, in order *)

Lemma Forall2_concat_both {A B} (P : A -> B -> Prop) (ls : list (list A))
    (ks : list (list B)) :
  Forall2 (Forall2 P) ls ks -> Forall2 P (concat ls) (concat ks).
Proof.
  induction 1 as [|l k ls ks Hlk _ IH]; [constructor|].
  simpl. by apply Forall2_app.
Qed.

Lemma checked_at_in_range {A} (v : list A) (i : Z) :
  0 <= i < Z.of_nat (length v) -> exists x, checked_at v i = Ok x.
Proof.
  intros Hi. unfold checked_at.
  destruct (Z.ltb_spec i 0); [lia|]. destruct (Z.leb_spec (Z.of_nat (length v)) i); [lia|].
  cbn [orb]. destruct (lookup_lt_is_Some_2 v (Z.to_nat i)) as [x ->]; [lia|]. by exists x.
Qed.

Section CollectHitsOrder.
Context `{SeedCodec}.

(** The seeds a query seed is paired with: those of its key, in the order
    of the sorted array, unless the frequency filter drops the bucket. *)
Definition kept_bucket (seeds : list SeedRaw) (freqCutoff : Z) (q : SeedRaw)
  : list SeedRaw :=
  let bucket := filter (fun t => DecodeKey t = DecodeKey q) (radix_sort seeds) in
  if bool_decide (0 < freqCutoff < Z.of_nat (length bucket)) then [] else bucket.

(** The (query seed, target seed) pairs in the order [CollectHits] visits
    them. *)
Definition hit_pairs (seeds : list SeedRaw) (freqCutoff : Z) (querySeeds : list SeedRaw)
  : list (SeedRaw * SeedRaw) :=
  concat (map (fun q => map (pair q) (kept_bucket seeds freqCutoff q)) querySeeds).

Lemma bucket_of_kept_bucket cache (seeds : list SeedRaw) freqCutoff q :
  bucket_of (SeedIndex_new cache seeds) freqCutoff q = kept_bucket seeds freqCutoff q.
Proof.
  destruct (GetSeeds_filter cache seeds (DecodeKey q)) as [Hl Hn].
  unfold bucket_of, kept_bucket. cbv zeta. rewrite <- Hl.
  unfold GetSeeds in *.
  destruct (hash_ (SeedIndex_new cache seeds) !! DecodeKey q) as [[s e]|];
    cbn [fst snd] in *.
  - unfold SeedRaw in *.
    destruct (Z.ltb_spec 0 freqCutoff), (Z.ltb_spec freqCutoff (e - s));
      cbn [andb]; case_bool_decide; try done; lia.
  - by case_bool_decide.
Qed.

Lemma CollectHits_target_total cache kmerSize dq t :
  0 <= DecodeSeqId t < Z.of_nat (length (seedLines cache)) ->
  exists hit, CollectHits_target cache kmerSize dq t = Ok hit.
Proof.
  intros Hid. unfold CollectHits_target. cbv zeta.
  destruct (negb _); [|by eexists].
  unfold GetSeedsLine. cbn [Seed_of_raw Seed.seqID].
  destruct (checked_at_in_range (seedLines cache) (DecodeSeqId t) Hid) as [sl ->].
  by eexists.
Qed.

Lemma CollectHits_bucket_total cache kmerSize dq : forall bucket hits0,
  Forall (fun t => 0 <= DecodeSeqId t < Z.of_nat (length (seedLines cache))) bucket ->
  exists hits, CollectHits_bucket cache kmerSize dq bucket hits0 = Ok hits.
Proof.
  induction bucket as [|t bucket IH]; intros hits0 Hb; [by eexists|].
  apply Forall_cons_1 in Hb as [Ht Hb]. cbn [CollectHits_bucket].
  destruct (CollectHits_target_total cache kmerSize dq t Ht) as [hit ->].
  cbn [mbind Result_bind]. by apply IH.
Qed.

Lemma CollectHits_loop_total (idx : SeedIndex) kmerSize freqCutoff :
  Forall (fun t => 0 <= DecodeSeqId t < Z.of_nat (length (seedLines (seedDBCache_ idx))))
    (seeds_ idx) ->
  forall querySeeds hits0,
    exists hits, CollectHits_loop idx kmerSize freqCutoff querySeeds hits0 = Ok hits.
Proof.
  intros Hids. induction querySeeds as [|q qs IH]; intros hits0; [by eexists|].
  cbn [CollectHits_loop]. cbv zeta.
  destruct (hash_ idx !! Seed.key (Seed_of_raw q)) as [[s e]|]; [|apply IH].
  destruct (_ && _); [apply IH|].
  destruct (CollectHits_bucket_total (seedDBCache_ idx) kmerSize (Seed_of_raw q)
              (slice (seeds_ idx) s e) hits0) as [hits' ->].
  { unfold slice. by apply Forall_take, Forall_drop. }
  cbn [mbind Result_bind]. apply IH.
Qed.

(** X2.  When the sequence id of every indexed seed is a sequence of the
    cache, [CollectHits] returns, and its hits are, in this order, one per
    pair of a query seed (in the order given) and a seed of its bucket (in
    the order of the sorted array), the buckets longer than a positive
    [freqCutoff] left out; the flag tells whether there is a hit. *)
Theorem CollectHits_hits_in_order cache (seeds querySeeds : list SeedRaw)
    (freqCutoff : Z) :
  Forall (fun t => 0 <= DecodeSeqId t < Z.of_nat (length (seedLines cache))) seeds ->
  exists hits,
    CollectHits (SeedIndex_new cache seeds) querySeeds freqCutoff
    = Ok (hits, bool_decide (hits <> [])) /\
    Forall2 (fun qt hit => hit_for cache qt.1 qt.2 hit)
      (hit_pairs seeds freqCutoff querySeeds) hits.
Proof.
  intros Hids. set (idx := SeedIndex_new cache seeds).
  assert (seedDBCache_ idx = cache) as Hcache
    by apply (SeedIndex_new_spec cache seeds).
  destruct (CollectHits_loop_total idx (KmerSize (seedParams (seedDBCache_ idx)))
              freqCutoff) with (querySeeds := querySeeds) (hits0 := @nil SeedHit)
    as [hits Hloop].
  { rewrite Hcache. unfold idx. rewrite SeedIndex_new_seeds.
    by rewrite radix_sort_Permutation. }
  exists hits. split.
  - unfold CollectHits. cbv zeta. rewrite Hloop. cbn [mbind Result_bind mret Result_ret].
    do 2 f_equal. destruct hits; [by rewrite bool_decide_eq_false_2 by (by intros [])|].
    rewrite bool_decide_eq_true_2 by done. simpl. apply Z.ltb_lt. lia.
  - apply CollectHits_loop_spec in Hloop as (news & -> & Hnews). simpl.
    unfold hit_pairs. apply Forall2_concat_both.
    apply Forall2_fmap_l. eapply Forall2_impl; [exact Hnews|].
    intros q new Hnew. cbv beta in Hnew.
    unfold idx in Hnew. rewrite bucket_of_kept_bucket in Hnew. fold idx in Hnew.
    apply Forall2_fmap_l. eapply Forall2_impl; [exact Hnew|].
    intros t hit Hhit. cbn [fst snd]. rewrite Hcache in Hhit.
    by apply CollectHits_target_hit_for.
Qed.

End CollectHitsOrder.

(** Two seeds of key 7 on sequences 0 and 1 and one of key 9, queried with
    a seed of key 7 on the other strand. *)
Lemma CollectHits_hits_in_order_witness :
  exists hits,
    CollectHits stats_index [Encode 7 0 11 true] 0 = Ok (hits, bool_decide (hits <> [])) /\
    Forall2 (fun qt hit => hit_for stats_cache qt.1 qt.2 hit)
      (hit_pairs stats_seeds 0 [Encode 7 0 11 true]) hits.
Proof.
  apply (@CollectHits_hits_in_order PackedSeedCodec stats_cache stats_seeds
           [Encode 7 0 11 true] 0).
  repeat constructor; by vm_compute.
Defined.

Example CollectHits_sample_hits :
  CollectHits stats_index [Encode 7 0 11 true] 0
  = Ok ([mkSeedHit 0 true 70 0 11; mkSeedHit 1 true 65 0 11], true).
Proof. by vm_compute. Qed.

(** ** Frequency statistics: largest and smallest bucket *)

Lemma cutoff_rank_one (N : Z) :
  0 < N < 2 ^ 53 -> cutoff_rank N (Double.of_Z 1) = Some 0.
Proof.
  intros HN. unfold cutoff_rank.
  change (Double.sub (Double.of_Z 1) (Double.of_Z 1)) with (SpecFloat.S754_zero false).
  destruct N as [|p|p]; try lia.
  destruct (Double_of_Z_exact p) as (k & m & -> & _); [lia|]. done.
Qed.

Lemma StronglySorted_last_le (l : list Z) (x m : Z) :
  StronglySorted Z.le l -> last l = Some m -> x ∈ l -> x <= m.
Proof.
  intros Hs Hm Hx. apply list_elem_of_lookup in Hx as [i Hi].
  rewrite last_lookup in Hm.
  eapply (StronglySorted_lookup_le l Hs i); [|done..].
  apply lookup_lt_Some in Hi. lia.
Qed.

Lemma StronglySorted_first_le (l : list Z) (x m : Z) :
  StronglySorted Z.le l -> l !! 0%nat = Some m -> x ∈ l -> m <= x.
Proof.
  intros Hs Hm Hx. apply list_elem_of_lookup in Hx as [i Hi].
  eapply (StronglySorted_lookup_le l Hs 0 i); [lia|done..].
Qed.

Lemma vec_at_elem (v : list Z) (i x : Z) : vec_at v i = Some x -> x ∈ v.
Proof.
  unfold vec_at. destruct (i <? 0); [done|]. apply list_elem_of_lookup_2.
Qed.

(** What a returned result is read from. *)
Lemma ComputeFrequencyStats_returned (idx : SeedIndex) (p : double) (st : FrequencyStats) :
  bucket_sizes (hash_ idx) <> [] ->
  ComputeFrequencyStats idx p = Ok st ->
  let freqs := radix_sort (bucket_sizes (hash_ idx)) in
  last freqs = Some (retFreqMax st) /\
  exists r, cutoff_rank (Z.of_nat (length freqs)) p = Some r /\
            vec_at freqs r = Some (retFreqCutoff st).
Proof.
  intros Hne. unfold ComputeFrequencyStats.
  destruct (_ || _); [done|].
  destruct (bool_decide_reflect (hash_ idx = ∅)) as [Hempty|Hempty].
  { rewrite Hempty, bucket_sizes_empty in Hne. done. }
  cbv zeta. destruct (_ <=? 0); [done|].
  rewrite radix_sort_length.
  destruct (cutoff_rank _ p) as [r|]; [|done].
  destruct (last _) as [freqMax|]; [|done].
  destruct (vec_at _ r) as [freqCutoff|] eqn:Hc; [|done].
  destruct (vec_at _ (Z.quot _ 2)) as [hi|]; [|done].
  destruct (vec_at _ (Z.quot (_ - 1) 2)) as [lo|]; [|done].
  intros [= <-]. cbn [retFreqMax retFreqCutoff]. split; [done|]. by exists r.
Qed.

(** X3.  For an index with at least one nonzero bucket: whatever cutoff
    [ComputeFrequencyStats] returns for, [retFreqMax] is the largest bucket
    size and [retFreqCutoff] is one of the bucket sizes; and at
    [percentileCutoff = 1.0] it does return, with the smallest bucket size
    as the cutoff. *)
Theorem ComputeFrequencyStats_largest_and_smallest (idx : SeedIndex) :
  let sizes := bucket_sizes (hash_ idx) in
  sizes <> [] -> Z.of_nat (length sizes) < 2 ^ 53 ->
  (forall p st, ComputeFrequencyStats idx p = Ok st ->
     retFreqMax st ∈ sizes /\ retFreqCutoff st ∈ sizes /\
     forall x, x ∈ sizes -> x <= retFreqMax st) /\
  (exists st, ComputeFrequencyStats idx (Double.of_Z 1) = Ok st /\
     retFreqCutoff st ∈ sizes /\ forall x, x ∈ sizes -> retFreqCutoff st <= x).
Proof.
  intros sizes Hne Hlen.
  pose proof (radix_sort_Permutation sizes) as Hperm.
  pose proof (radix_sort_StronglySorted sizes) as Hsorted.
  assert (forall p st, ComputeFrequencyStats idx p = Ok st ->
     retFreqMax st ∈ sizes /\ retFreqCutoff st ∈ sizes /\
     forall x, x ∈ sizes -> x <= retFreqMax st) as Hany.
  { intros p st Hst.
    destruct (ComputeFrequencyStats_returned idx p st Hne Hst) as (Hlast & r & _ & Hr).
    fold sizes in Hlast, Hr. split; [|split].
    - rewrite <- Hperm. rewrite last_lookup in Hlast. by eapply list_elem_of_lookup_2.
    - rewrite <- Hperm. by eapply vec_at_elem.
    - intros x Hx. eapply StronglySorted_last_le; [done..|]. by rewrite Hperm. }
  split; [done|].
  assert (0 < Z.of_nat (length (radix_sort sizes)) < 2 ^ 53) as HN.
  { rewrite radix_sort_length. destruct sizes; [done|]. simpl in *. lia. }
  pose proof (ComputeFrequencyStats_by_rank idx (Double.of_Z 1) 0
                ltac:(fold sizes; lia) eq_refl (cutoff_rank_one _ HN)) as Hrank.
  cbv zeta in Hrank. fold sizes in Hrank.
  rewrite bool_decide_eq_true_2 in Hrank by lia.
  destruct Hrank as (st & Hst & Hmin). exists st. split; [done|].
  split; [by apply (Hany _ _ Hst)|].
  intros x Hx. eapply (StronglySorted_first_le (radix_sort sizes)); [done|exact Hmin|].
  by rewrite Hperm.
Qed.

Lemma ComputeFrequencyStats_largest_and_smallest_witness :
  exists st, ComputeFrequencyStats stats_index (Double.of_Z 1) = Ok st /\
    retFreqCutoff st ∈ bucket_sizes (hash_ stats_index) /\
    forall x, x ∈ bucket_sizes (hash_ stats_index) -> retFreqCutoff st <= x.
Proof.
  apply (ComputeFrequencyStats_largest_and_smallest stats_index);
    by vm_compute.
Defined.

(** ** The buckets partition the seed array *)

Lemma count_key_once (keys : list Z) (k : Z) :
  NoDup keys -> k ∈ keys ->
  sum_list_with (fun k' => if decide (k = k') then 1%nat else 0%nat) keys = 1%nat.
Proof.
  induction 1 as [|k0 keys Hk0 Hnd IH]; [by intros ?%elem_of_nil|].
  intros Hk. cbn [sum_list_with]. destruct (decide (k = k0)) as [->|Hne].
  - assert (sum_list_with (fun k' => if decide (k0 = k') then 1%nat else 0%nat) keys
            = 0%nat) as ->; [|done].
    clear IH Hk Hnd. induction keys as [|k1 keys IH]; [done|].
    apply not_elem_of_cons in Hk0 as [Hne Hk0]. cbn [sum_list_with].
    rewrite decide_False by done. by rewrite IH.
  - apply elem_of_cons in Hk as [?|Hk]; [done|]. by rewrite IH.
Qed.

Lemma sum_list_fmap_add {A} (f g : A -> nat) (l : list A) :
  sum_list_with (fun x => (f x + g x)%nat) l
  = (sum_list_with f l + sum_list_with g l)%nat.
Proof. induction l as [|x l IH]; [done|]. cbn [sum_list_with]. lia. Qed.

Lemma sum_list_with_ext {A} (f g : A -> nat) (l : list A) :
  (forall x, f x = g x) -> sum_list_with f l = sum_list_with g l.
Proof. intros Hfg. induction l as [|x l IH]; [done|]. cbn [sum_list_with]. by rewrite Hfg, IH. Qed.

Section BucketPartition.
Context `{SeedCodec}.

(** Counting a list key by key, over keys that are pairwise different and
    cover the list, counts the list. *)
Lemma count_by_key (keys : list Z) (l : list SeedRaw) :
  NoDup keys -> (forall w, w ∈ l -> DecodeKey w ∈ keys) ->
  sum_list_with (fun k => length (filter (fun w => DecodeKey w = k) l)) keys = length l.
Proof.
  intros Hnd. induction l as [|w l IH]; intros Hcover.
  - clear. induction keys as [|k keys IHk]; [done|]. cbn [sum_list_with].
    by rewrite IHk.
  - rewrite (sum_list_with_ext _
               (fun k => ((if decide (DecodeKey w = k) then 1 else 0)
                          + length (filter (fun w => DecodeKey w = k) l))%nat)).
    2: { intros k. destruct (decide (DecodeKey w = k)) as [Heq|Hne].
         - by rewrite filter_cons_True.
         - by rewrite filter_cons_False. }
    rewrite sum_list_fmap_add, count_key_once, IH; [done | | done |].
    + intros w' Hw'. apply Hcover. by right.
    + apply Hcover. by left.
Qed.

(** X17.  The buckets of a built index partition the seed array: every
    bucket is non-empty, there is one bucket per key of the input, and
    the bucket sizes (the frequencies [ComputeFrequencyStats] works on)
    add up to the number of seeds. *)
Theorem bucket_sizes_add_up_to_seed_count cache (seeds : list SeedRaw) :
  let idx := SeedIndex_new cache seeds in
  Forall (fun n => 0 < n) (bucket_sizes (hash_ idx)) /\
  length (bucket_sizes (hash_ idx)) = size (hash_ idx) /\
  (forall k, is_Some (hash_ idx !! k) <-> exists w, w ∈ seeds /\ DecodeKey w = k) /\
  foldr Z.add 0 (bucket_sizes (hash_ idx)) = Z.of_nat (length seeds).
Proof.
  intros idx.
  destruct (SeedIndex_new_spec cache seeds) as (_ & Hperm & Hok & Hcomp).
  fold idx in Hperm, Hok, Hcomp.
  set (spans := (fun kv : Z * (Z * Z) => kv.2.2 - kv.2.1) <$> map_to_list (hash_ idx)).
  set (count := fun k => length (filter (fun w => DecodeKey w = k) (radix_sort seeds))).
  assert (spans = (fun kv : Z * (Z * Z) => Z.of_nat (count kv.1)) <$> map_to_list (hash_ idx))
    as Hspans.
  { unfold spans. apply list_fmap_ext. intros i [k [s e]] Hkv.
    apply list_elem_of_lookup_2, elem_of_map_to_list in Hkv.
    destruct (GetSeeds_filter cache seeds k) as [Hl Hn]. fold idx in Hl, Hn.
    unfold GetSeeds in Hl, Hn. rewrite Hkv in Hl, Hn. cbn [fst snd] in *.
    unfold count. by rewrite <- Hl. }
  assert (Forall (fun n => 0 < n) spans) as Hpos.
  { unfold spans. apply Forall_fmap, Forall_forall. intros [k [s e]] Hkv.
    apply elem_of_map_to_list in Hkv. destruct (Hok _ _ Hkv) as [Hse _]. cbn in *. lia. }
  assert (bucket_sizes (hash_ idx) = spans) as Hsizes.
  { unfold bucket_sizes. fold spans. apply filter_keep_all.
    eapply Forall_impl; [exact Hpos|]. intros n Hn. cbv beta in *. lia. }
  rewrite Hsizes. split; [done|]. split; [|split].
  - unfold spans. by rewrite length_fmap, length_map_to_list.
  - intros k. split.
    + intros [[s e] Hk]. destruct (Hok _ _ Hk) as (Hse & Hlen & Hrun).
      destruct (Hrun s) as (w & Hw & Hkey); [cbn in *; lia|].
      exists w. split; [|done]. rewrite <- Hperm. by eapply list_elem_of_lookup_2.
    + intros (w & Hw & <-). rewrite <- Hperm in Hw.
      apply list_elem_of_lookup in Hw as [j Hj].
      destruct (Hcomp j w Hj) as (se & Hse & _). by exists se.
  - rewrite Hspans.
    assert (forall l : list (Z * (Z * Z)),
              foldr Z.add 0 ((fun kv => Z.of_nat (count kv.1)) <$> l)
              = Z.of_nat (sum_list_with count l.*1)) as Hsum.
    { induction l as [|kv l IH]; [done|]. cbn [fmap list_fmap foldr sum_list_with].
      rewrite IH. lia. }
    rewrite Hsum. unfold count. rewrite count_by_key.
    + by rewrite radix_sort_length.
    + apply NoDup_fst_map_to_list.
    + intros w Hw. rewrite <- (SeedIndex_new_seeds cache seeds) in Hw. fold idx in Hw.
      apply list_elem_of_lookup in Hw as [j Hj].
      destruct (Hcomp j w Hj) as (se & Hse & _).
      apply list_elem_of_fmap. exists (DecodeKey w, se). split; [done|].
      by apply elem_of_map_to_list.
Qed.

End BucketPartition.

(** ** The sort key of a hit determines the hit *)

(** A hit as [CollectHits] makes them from sequence ids that are not
    negative: 32-bit positions, [flags] 0. *)
Definition hit_in_range (sh : SeedHit) : Prop :=
  0 <= targetId sh < 2 ^ 31 /\ in_int32 (targetPos sh) /\ in_int32 (queryPos sh) /\
  flags sh = 0.

Lemma mod_2_32_inj (x y : Z) :
  in_int32 x -> in_int32 y -> x mod 2 ^ 32 = y mod 2 ^ 32 -> x = y.
Proof.
  intros Hx Hy Heq. rewrite <- (wrap32_id x Hx), <- (wrap32_id y Hy).
  by apply wrap32_mod.
Qed.

Lemma PackSeedHit_inj (a b : SeedHit) :
  hit_in_range a -> hit_in_range b ->
  PackSeedHitWithDiagonalTo128_ a = PackSeedHitWithDiagonalTo128_ b -> a = b.
Proof.
  intros (Hida & Hta & Hqa & Hfa) (Hidb & Htb & Hqb & Hfb) Heq.
  rewrite !PackSeedHit_decompose in Heq.
  pose proof (hit_low_range a) as Hla. pose proof (hit_low_range b) as Hlb.
  assert (hit_group a = hit_group b /\ hit_low a = hit_low b) as [Hg Hl] by lia.
  destruct (hit_group_inj a b Hida Hidb Hg) as [Hid Hrev].
  unfold hit_low in Hl.
  pose proof (Z.mod_pos_bound (Diagonal a) (2 ^ 32) ltac:(lia)).
  pose proof (Z.mod_pos_bound (Diagonal b) (2 ^ 32) ltac:(lia)).
  pose proof (Z.mod_pos_bound (targetPos a) (2 ^ 32) ltac:(lia)).
  pose proof (Z.mod_pos_bound (targetPos b) (2 ^ 32) ltac:(lia)).
  pose proof (Z.mod_pos_bound (queryPos a) (2 ^ 32) ltac:(lia)).
  pose proof (Z.mod_pos_bound (queryPos b) (2 ^ 32) ltac:(lia)).
  assert (targetPos a mod 2 ^ 32 = targetPos b mod 2 ^ 32 /\
          queryPos a mod 2 ^ 32 = queryPos b mod 2 ^ 32) as [Htp Hqp] by lia.
  apply mod_2_32_inj in Htp; [|done..]. apply mod_2_32_inj in Hqp; [|done..].
  destruct a, b; simpl in *; congruence.
Qed.

Lemma StronglySorted_hit_keys (l : list SeedHit) :
  StronglySorted hit_le l -> StronglySorted Z.le (PackSeedHitWithDiagonalTo128_ <$> l).
Proof.
  induction 1 as [|x l _ IH Hx]; [constructor|].
  rewrite fmap_cons. constructor; [done|]. by apply Forall_fmap.
Qed.

Lemma fmap_inj_on {A B} (f : A -> B) (P : A -> Prop) :
  (forall a b, P a -> P b -> f a = f b -> a = b) ->
  forall l k, Forall P l -> Forall P k -> f <$> l = f <$> k -> l = k.
Proof.
  intros Hf. induction l as [|a l IH]; intros [|b k] Hl Hk Heq; try done.
  apply Forall_cons_1 in Hl as [Ha Hl]. apply Forall_cons_1 in Hk as [Hb Hk].
  rewrite !fmap_cons in Heq. injection Heq as Hab Heq.
  f_equal; [by apply Hf | by apply IH].
Qed.

(** X4.  The packed sort key determines a hit whose sequence id is in
    [0, 2^31), whose positions are 32-bit values and whose [flags] are 0;
    hence [std::sort] with the comparator of [Mapper::Map], although not
    stable, has one possible result on such hits. *)
Theorem sorted_hits_unique (hits sorted1 sorted2 : list SeedHit) :
  Forall hit_in_range hits ->
  is_sorted_hits hits sorted1 -> is_sorted_hits hits sorted2 ->
  sorted1 = sorted2.
Proof.
  intros Hr [Hp1 Hs1] [Hp2 Hs2].
  apply (fmap_inj_on PackSeedHitWithDiagonalTo128_ hit_in_range PackSeedHit_inj).
  - by rewrite Hp1.
  - by rewrite Hp2.
  - apply (StronglySorted_unique Z.le); [by apply StronglySorted_hit_keys..|].
    by rewrite Hp1, Hp2.
Qed.

Lemma sorted_hits_unique_witness :
  sort_hits [hit_diag_neg; hit_diag_pos] = [hit_diag_pos; hit_diag_neg].
Proof.
  apply (sorted_hits_unique [hit_diag_neg; hit_diag_pos]).
  - repeat constructor; by vm_compute.
  - apply sort_hits_is_sorted.
  - split; [apply Permutation_swap|].
    repeat constructor. by vm_compute.
Defined.

(** ** One overlap per target *)

Lemma tandem_le_spec (a b : Overlap) :
  tandem_le a b <-> Bid a < Bid b \/ (Bid a = Bid b /\ max_span b <= max_span a).
Proof.
  unfold tandem_le, tandem_before.
  destruct (Z.ltb_spec (Bid b) (Bid a)), (Z.eqb_spec (Bid b) (Bid a)),
    (Z.ltb_spec (max_span a) (max_span b)); cbn [orb andb]; split; intros; try done; lia.
Qed.

#[export] Instance tandem_le_trans : Transitive tandem_le.
Proof. intros a b c. rewrite !tandem_le_spec. lia. Qed.

#[export] Instance tandem_le_total : Total tandem_le.
Proof. intros a b. rewrite !tandem_le_spec. lia. Qed.

(** The loop keeps, of the sorted overlaps, the first of each [Bid]. *)
Lemma tandem_accumulate_spec : forall (rest ret : list Overlap) (back : Overlap),
  last ret = Some back ->
  StronglySorted tandem_le rest ->
  Forall (tandem_le back) rest ->
  exists new,
    tandem_accumulate ret rest = ret ++ new /\
    new ⊆ rest /\
    StronglySorted (fun a b => Bid a < Bid b) new /\
    Forall (fun r => Bid back < Bid r) new /\
    Forall (fun x => (Bid x = Bid back /\ max_span x <= max_span back) \/
                     exists r, r ∈ new /\ Bid r = Bid x /\ max_span x <= max_span r) rest.
Proof.
  induction rest as [|ovl rest IH]; intros ret back Hback Hsorted Hafter.
  { exists []. rewrite app_nil_r. repeat split; try done; constructor. }
  apply StronglySorted_inv in Hsorted as [Hsorted Hovl].
  apply Forall_cons_1 in Hafter as [Hfirst Hafter].
  cbn [tandem_accumulate]. rewrite Hback.
  apply tandem_le_spec in Hfirst.
  destruct (Z.eqb_spec (Bid ovl) (Bid back)) as [Heq|Hne].
  - destruct (IH ret back Hback Hsorted Hafter) as (new & -> & Hsub & Hinc & Hgt & Hcov).
    exists new. split; [done|]. split; [set_solver|]. split; [done|]. split; [done|].
    constructor; [left; lia | done].
  - destruct (IH (ret ++ [ovl]) ovl) as (new & -> & Hsub & Hinc & Hgt & Hcov);
      [by rewrite last_snoc | done | done |].
    exists (ovl :: new). split; [by rewrite <- app_assoc|].
    split; [set_solver|]. split; [by constructor|]. split.
    + constructor; [lia|]. eapply Forall_impl; [exact Hgt|]. simpl. lia.
    + constructor.
      * right. exists ovl. split; [set_solver|]. lia.
      * eapply Forall_impl; [exact Hcov|]. simpl.
        intros x [[Hb Hm]|(r & Hr & Hb & Hm)]; right.
        -- exists ovl. split; [set_solver|]. lia.
        -- exists r. split; [set_solver|]. done.
Qed.

Lemma FilterTandemOverlaps_spec `{StdSort} (overlaps : list Overlap) :
  let ret := FilterTandemOverlaps_ overlaps in
  StronglySorted (fun a b => Bid a < Bid b) ret /\
  (forall r, r ∈ ret -> r ∈ overlaps) /\
  (forall ovl, ovl ∈ overlaps ->
     exists r, r ∈ ret /\ Bid r = Bid ovl /\ max_span ovl <= max_span r).
Proof.
  unfold FilterTandemOverlaps_. destruct overlaps as [|o overlaps'].
  { simpl. split; [constructor|]. split; intros ?; set_solver. }
  destruct (std_sort_overlaps_sorted (o :: overlaps')) as [Hperm Hsorted].
  set (input := o :: overlaps') in *.
  destruct (std_sort_overlaps input) as [|front rest] eqn:Hs.
  { by apply Permutation_nil_l in Hperm. }
  unfold FilterTandemOverlaps_sorted.
  cbn [tandem_accumulate last]. rewrite Z.eqb_refl.
  apply StronglySorted_inv in Hsorted as [Hsorted Hfront].
  destruct (tandem_accumulate_spec rest [front] front eq_refl Hsorted Hfront)
    as (new & -> & Hsub & Hinc & Hgt & Hcov).
  cbv zeta. split; [|split].
  - simpl. by constructor.
  - intros r Hr. rewrite <- Hperm. set_solver.
  - intros ovl Hovl. rewrite <- Hperm in Hovl.
    apply elem_of_cons in Hovl as [->|Hovl].
    + exists front. split; [set_solver|]. lia.
    + rewrite Forall_forall in Hcov.
      destruct (Hcov _ Hovl) as [[Hb Hm]|(r & Hr & Hb & Hm)].
      * exists front. split; [set_solver|]. lia.
      * exists r. split; [set_solver|]. done.
Qed.

Lemma FilterTandemOverlaps_from_input `{StdSort}
    (overlaps : list Overlap) (r : Overlap) :
  r ∈ FilterTandemOverlaps_ overlaps -> r ∈ overlaps.
Proof. apply (FilterTandemOverlaps_spec overlaps). Qed.

Lemma FilterTandemOverlaps_sorted_by_Bid `{StdSort} (overlaps : list Overlap) :
  StronglySorted (fun a b => Bid a < Bid b) (FilterTandemOverlaps_ overlaps).
Proof. apply (FilterTandemOverlaps_spec overlaps). Qed.

(** X5.  Whatever ascending rearrangement [std::sort] produces,
    [FilterTandemOverlaps_] returns overlaps of its input with strictly
    increasing [Bid] (one per target), and for every overlap of the input
    the one returned for its target spans at least as much. *)
Theorem FilterTandemOverlaps_keeps_longest_per_target `{StdSort}
    (overlaps : list Overlap) :
  let ret := FilterTandemOverlaps_ overlaps in
  StronglySorted (fun a b => Bid a < Bid b) ret /\
  (forall r, r ∈ ret -> r ∈ overlaps) /\
  (forall ovl, ovl ∈ overlaps ->
     exists r, r ∈ ret /\ Bid r = Bid ovl /\ max_span ovl <= max_span r).
Proof. apply FilterTandemOverlaps_spec. Qed.

(** ** Chaining: when it returns, and what it lets through *)

Section ChainOutcome.
Variables (sortedHits : list SeedHit) (querySeq : FastaSequenceId)
          (indexCache : SeedDBIndexCache).
Variables (chainBandwidth minNumSeeds minChainSpan : Z)
          (skipSelfHits skipSymmetricOverlaps : bool).

Local Abbreviation step' :=
  (chain_step sortedHits querySeq indexCache chainBandwidth minNumSeeds
     minChainSpan skipSelfHits skipSymmetricOverlaps).
Local Abbreviation loop' :=
  (chain_loop sortedHits querySeq indexCache chainBandwidth minNumSeeds
     minChainSpan skipSelfHits skipSymmetricOverlaps).
Local Abbreviation inv :=
  (chain_inv sortedHits querySeq indexCache minNumSeeds minChainSpan
     skipSelfHits skipSymmetricOverlaps).

(** The target of the hit is a sequence of the cache. *)
Definition target_known (h : SeedHit) : Prop :=
  exists sl, GetSeedsLine indexCache (targetId h) = Ok sl.

(** The hits of the groups already closed have known targets. *)
Definition closed_known (st : ChainState) : Prop :=
  forall (j : nat) h, Z.of_nat j < cs_beginId st -> sortedHits !! j = Some h ->
    target_known h.

(** An emitted overlap: made by [MakeOverlap_] and let through by the
    admission test. *)
Definition made_and_accepted (ovl : Overlap) : Prop :=
  accept_overlap ovl minNumSeeds minChainSpan skipSelfHits skipSymmetricOverlaps = true /\
  exists b e mn mx, MakeOverlap_ sortedHits querySeq indexCache b e mn mx = Ok ovl.

Lemma track_min_max_frame st i combo :
  cs_overlaps (track_min_max st i combo) = cs_overlaps st /\
  cs_beginId (track_min_max st i combo) = cs_beginId st.
Proof. unfold track_min_max. by destruct (_ <? cs_minCombo st), (_ <? _). Qed.

Lemma GetSeedsLine_throws seqId e :
  GetSeedsLine indexCache seqId = Throw e -> e = IndexOutOfRange.
Proof.
  unfold GetSeedsLine, checked_at. destruct (_ || _); [by intros [= <-]|].
  destruct (_ !! _); [done | by intros [= <-]].
Qed.

(** [MakeOverlap_] on the hits the sweep tracks: it returns exactly when
    the target is known, and throws nothing but the error of
    [GetSeedsLine]. *)
Lemma MakeOverlap_outcome b e mn mx hmin hmax :
  vec_at_hit sortedHits mn = Some hmin ->
  vec_at_hit sortedHits mx = Some hmax ->
  targetId hmax = targetId hmin ->
  match MakeOverlap_ sortedHits querySeq indexCache b e mn mx with
  | Ok _ => target_known hmin
  | Throw err => err = IndexOutOfRange /\ ~ target_known hmin
  end.
Proof.
  intros Hmn Hmx Hid. unfold MakeOverlap_. rewrite Hmn, Hmx. cbv zeta.
  rewrite Hid, Z.eqb_refl. cbn [negb].
  destruct (GetSeedsLine indexCache (targetId hmin)) as [sl|err] eqn:Hsl;
    cbn [mbind Result_bind mret Result_ret].
  - by exists sl.
  - split; [by eapply GetSeedsLine_throws|]. intros [sl' Hsl']. congruence.
Qed.

Lemma chain_step_outcome (i : nat) st currHit :
  sortedHits !! i = Some currHit ->
  inv (Z.of_nat i) st -> closed_known st ->
  Forall made_and_accepted (cs_overlaps st) ->
  match step' st (Z.of_nat i) currHit with
  | Ok st' => closed_known st' /\ Forall made_and_accepted (cs_overlaps st')
  | Throw err => err = IndexOutOfRange /\ ~ Forall target_known sortedHits
  end.
Proof.
  intros Hi Hinv Hknown Hacc. unfold chain_step.
  pose proof Hinv as [Hbeg (hb & hmin & hmax & Hb & Hmn & Hmx & Hs1 & Hs2) Hgroup _].
  rewrite Hb. cbv zeta.
  destruct (negb (targetId currHit =? targetId hb)
            || negb (eqb (targetRev currHit) (targetRev hb))
            || (chainBandwidth <? _)).
  - assert (targetId hmax = targetId hmin) as Hid
      by (destruct Hs1, Hs2; congruence).
    pose proof (MakeOverlap_outcome (cs_beginId st) (Z.of_nat i) _ _ _ _ Hmn Hmx Hid)
      as Hmk.
    destruct (MakeOverlap_ _ _ _ _ _ _ _) as [ovl|err] eqn:Hovl;
      cbn [mbind Result_bind mret Result_ret].
    + destruct (track_min_max_frame
                  (mkChainState
                     (if accept_overlap ovl minNumSeeds minChainSpan skipSelfHits
                           skipSymmetricOverlaps
                      then cs_overlaps st ++ [ovl] else cs_overlaps st)
                     (Z.of_nat i) (Diagonal currHit) (TargetQueryPosCombo currHit)
                     (TargetQueryPosCombo currHit) (Z.of_nat i) (Z.of_nat i))
                  (Z.of_nat i) (TargetQueryPosCombo currHit)) as [-> Hbid].
      split.
      * intros j h Hj Hh. rewrite Hbid in Hj. cbn [cs_beginId] in Hj.
        destruct (Z.lt_ge_cases (Z.of_nat j) (cs_beginId st)) as [Hlt|Hge];
          [by eapply Hknown|].
        assert (same_target h hb) as [Hjb _].
        { apply (Hgroup (Z.of_nat j) h hb); [lia | by rewrite Nat2Z.id | done]. }
        destruct Hmk as [sl Hsl]. exists sl. destruct Hs1 as [Hs1 _]. congruence.
      * cbn [cs_overlaps].
        destruct (accept_overlap ovl _ _ _ _) eqn:Hok; [|done].
        apply Forall_app. split; [done|]. constructor; [|done]. split; [done|]. eauto.
    + destruct Hmk as [-> Hunknown]. split; [done|].
      intros Hall. apply Hunknown. rewrite Forall_forall in Hall. apply Hall.
      unfold vec_at_hit in Hmn. destruct (_ <? 0); [done|].
      by eapply list_elem_of_lookup_2.
  - cbn [mret Result_ret].
    destruct (track_min_max_frame st (Z.of_nat i) (TargetQueryPosCombo currHit))
      as [-> Hbid].
    split; [|done]. intros j h Hj Hh. rewrite Hbid in Hj. by eapply Hknown.
Qed.

Lemma chain_loop_outcome : forall rest done_ st,
  sortedHits = done_ ++ rest ->
  inv (Z.of_nat (length done_)) st -> closed_known st ->
  Forall made_and_accepted (cs_overlaps st) ->
  match loop' st (Z.of_nat (length done_)) rest with
  | Ok st' => inv (Z.of_nat (length sortedHits)) st' /\ closed_known st' /\
              Forall made_and_accepted (cs_overlaps st')
  | Throw err => err = IndexOutOfRange /\ ~ Forall target_known sortedHits
  end.
Proof.
  induction rest as [|currHit rest IH]; intros done_ st Hs Hinv Hknown Hacc;
    cbn [chain_loop].
  - cbn [mret Result_ret]. rewrite app_nil_r in Hs. by subst done_.
  - assert (sortedHits !! length done_ = Some currHit) as Hi
      by (rewrite Hs; by apply list_lookup_middle).
    pose proof (chain_step_outcome (length done_) st currHit Hi Hinv Hknown Hacc) as Hstep.
    destruct (step' st _ currHit) as [st1|err] eqn:Hst1; cbn [mbind Result_bind]; [|done].
    destruct Hstep as [Hknown1 Hacc1].
    pose proof (chain_step_inv _ _ _ _ _ _ _ _ _ _ _ _ Hi Hinv Hst1) as Hinv1.
    specialize (IH (done_ ++ [currHit]) st1).
    rewrite length_app in IH. cbn [length] in IH.
    replace (Z.of_nat (length done_ + 1)) with (Z.of_nat (length done_) + 1) in IH by lia.
    apply IH; [by rewrite <- app_assoc | done..].
Qed.

(** The outcome of the whole sweep. *)
Lemma FormDiagonalAnchors_outcome :
  Z.of_nat (length sortedHits) < 2 ^ 31 ->
  match FormDiagonalAnchors_ sortedHits querySeq indexCache chainBandwidth minNumSeeds
          minChainSpan skipSelfHits skipSymmetricOverlaps with
  | Ok overlaps => Forall target_known sortedHits /\ Forall made_and_accepted overlaps
  | Throw err => err = IndexOutOfRange /\ ~ Forall target_known sortedHits
  end.
Proof.
  intros Hlen. unfold FormDiagonalAnchors_.
  destruct sortedHits as [|hit0 rest] eqn:Hhits; [by cbn|].
  rewrite <- Hhits in *. cbv zeta.
  assert (inv 0 (mkChainState [] 0 (Diagonal hit0) (TargetQueryPosCombo hit0)
                   (TargetQueryPosCombo hit0) 0 0)) as Hinit.
  { split; cbn; [lia | | lia | done].
    exists hit0, hit0, hit0. rewrite Hhits. done. }
  pose proof (chain_loop_outcome sortedHits [] _ eq_refl Hinit) as Hloop.
  cbn [length] in Hloop. change (Z.of_nat 0) with 0 in Hloop.
  assert (closed_known (mkChainState [] 0 (Diagonal hit0) (TargetQueryPosCombo hit0)
                          (TargetQueryPosCombo hit0) 0 0)) as Hnone
    by (intros j h Hj; cbn in Hj; lia).
  specialize (Hloop Hnone (Forall_nil_2 _)).
  destruct (chain_loop _ _ _ _ _ _ _ _ _ _ _) as [st|err];
    cbn [mbind Result_bind]; [|done].
  destruct Hloop as (Hinv & Hknown & Hacc).
  pose proof Hinv as [Hbeg (hb & hmin & hmax & Hb & Hmn & Hmx & Hs1 & Hs2) Hgroup _].
  assert (cs_beginId st < Z.of_nat (length sortedHits)) as Hlt.
  { unfold vec_at_hit in Hb. destruct (_ <? 0); [done|].
    apply lookup_lt_Some in Hb. lia. }
  rewrite (wrap32_id (Z.of_nat (length sortedHits))) by (unfold in_int32; lia).
  rewrite (wrap32_id (_ - _)) by (unfold in_int32; lia).
  destruct (Z.ltb_spec 0 (Z.of_nat (length sortedHits) - cs_beginId st)); [|lia].
  assert (targetId hmax = targetId hmin) as Hid by (destruct Hs1, Hs2; congruence).
  pose proof (MakeOverlap_outcome (cs_beginId st) (Z.of_nat (length sortedHits))
                _ _ _ _ Hmn Hmx Hid) as Hmk.
  destruct (MakeOverlap_ _ _ _ _ _ _ _) as [ovl|err] eqn:Hovl;
    cbn [mbind Result_bind mret Result_ret].
  - assert (Forall target_known sortedHits) as Hall.
    { apply Forall_lookup_2. intros j h Hh.
      destruct (Z.lt_ge_cases (Z.of_nat j) (cs_beginId st)) as [Hj|Hj];
        [by eapply Hknown|].
      assert (same_target h hb) as [Hjb _].
      { apply (Hgroup (Z.of_nat j) h hb); [|by rewrite Nat2Z.id | done].
        apply lookup_lt_Some in Hh. lia. }
      destruct Hmk as [sl Hsl]. exists sl. destruct Hs1 as [Hs1 _]. congruence. }
    destruct (accept_overlap ovl _ _ _ _) eqn:Hok; cbn [mret Result_ret];
      (split; [done|]); [|done].
    apply Forall_app. split; [done|]. constructor; [|done]. split; [done|]. eauto.
  - destruct Hmk as [-> Hunknown]. split; [done|].
    intros Hall. apply Hunknown. rewrite Forall_forall in Hall. apply Hall.
    unfold vec_at_hit in Hmn. destruct (_ <? 0); [done|].
    by eapply list_elem_of_lookup_2.
Qed.

(** The admission test guards every append, whatever the hits are. *)
Lemma chain_step_accepted st i currHit st' :
  Forall made_and_accepted (cs_overlaps st) ->
  step' st i currHit = Ok st' ->
  Forall made_and_accepted (cs_overlaps st').
Proof.
  intros Hacc. unfold chain_step.
  destruct (vec_at_hit sortedHits (cs_beginId st)) as [prevHit|]; [|done]. cbv zeta.
  destruct (_ || _).
  - destruct (MakeOverlap_ _ _ _ _ _ _ _) as [ovl|] eqn:Hovl;
      cbn [mbind Result_bind mret Result_ret]; [|done].
    intros [= <-].
    destruct (track_min_max_frame
                (mkChainState
                   (if accept_overlap ovl minNumSeeds minChainSpan skipSelfHits
                         skipSymmetricOverlaps
                    then cs_overlaps st ++ [ovl] else cs_overlaps st)
                   i (Diagonal currHit) (TargetQueryPosCombo currHit)
                   (TargetQueryPosCombo currHit) i i)
                i (TargetQueryPosCombo currHit)) as [-> _].
    cbn [cs_overlaps]. destruct (accept_overlap ovl _ _ _ _) eqn:Hok; [|done].
    apply Forall_app. split; [done|]. constructor; [|done]. split; [done|]. eauto.
  - cbn [mret Result_ret]. intros [= <-].
    by destruct (track_min_max_frame st i (TargetQueryPosCombo currHit)) as [-> _].
Qed.

Lemma chain_loop_accepted : forall rest st i st',
  Forall made_and_accepted (cs_overlaps st) ->
  loop' st i rest = Ok st' ->
  Forall made_and_accepted (cs_overlaps st').
Proof.
  induction rest as [|currHit rest IH]; intros st i st' Hacc; cbn [chain_loop].
  - by intros [= <-].
  - destruct (step' st i currHit) as [st1|] eqn:Hstep; cbn [mbind Result_bind]; [|done].
    apply IH. by eapply chain_step_accepted.
Qed.

Lemma FormDiagonalAnchors_accepted overlaps :
  FormDiagonalAnchors_ sortedHits querySeq indexCache chainBandwidth minNumSeeds
    minChainSpan skipSelfHits skipSymmetricOverlaps = Ok overlaps ->
  Forall made_and_accepted overlaps.
Proof.
  unfold FormDiagonalAnchors_. destruct sortedHits as [|hit0 rest] eqn:Hhits.
  { intros [= <-]. constructor. }
  rewrite <- Hhits. cbv zeta.
  destruct (chain_loop _ _ _ _ _ _ _ _ _ _ _) as [st|] eqn:Hloop;
    cbn [mbind Result_bind]; [|done].
  apply chain_loop_accepted in Hloop; [|constructor].
  destruct (0 <? _); [|by intros [= <-]].
  destruct (MakeOverlap_ _ _ _ _ _ _ _) as [ovl|] eqn:Hovl;
    cbn [mbind Result_bind mret Result_ret]; [|done].
  destruct (accept_overlap ovl _ _ _ _) eqn:Hok; intros [= <-]; [|done].
  apply Forall_app. split; [done|]. constructor; [|done]. split; [done|]. eauto.
Qed.

(** The tests of the admission, one by one. *)
Lemma accept_overlap_tests ovl :
  accept_overlap ovl minNumSeeds minChainSpan skipSelfHits skipSymmetricOverlaps = true ->
  minNumSeeds <= NumSeeds ovl /\ minChainSpan < ASpan ovl /\ minChainSpan < BSpan ovl /\
  (skipSelfHits = true -> Bid ovl <> Aid ovl) /\
  (skipSymmetricOverlaps = true -> Bid ovl < Aid ovl).
Proof.
  unfold accept_overlap. intros Hok.
  repeat (apply andb_true_iff in Hok as [Hok ?]).
  repeat split; try lia.
  - intros ->. cbn in *. destruct (Z.eqb_spec (Bid ovl) (Aid ovl)); done.
  - intros ->. cbn in *. lia.
Qed.

(** What [MakeOverlap_] puts into the fields that chaining fixes. *)
Lemma MakeOverlap_constants ovl b e mn mx :
  MakeOverlap_ sortedHits querySeq indexCache b e mn mx = Ok ovl ->
  Aid ovl = Id querySeq /\ Arev ovl = false /\ Alen ovl = size32 (Bases querySeq) /\
  EditDistance ovl = -1 /\ Identity ovl = Float.of_Z 0 /\
  Score ovl = Float.of_Z (NumSeeds ovl) /\
  exists sl, GetSeedsLine indexCache (Bid ovl) = Ok sl /\ Blen ovl = sl_numBases sl.
Proof.
  unfold MakeOverlap_.
  destruct (vec_at_hit sortedHits mn) as [hmin|]; [|done].
  destruct (vec_at_hit sortedHits mx) as [hmax|]; [|done]. cbv zeta.
  destruct (negb _); [done|].
  destruct (GetSeedsLine indexCache (targetId hmin)) as [sl|] eqn:Hsl; [|done].
  cbn [mbind Result_bind mret Result_ret]. intros [= <-].
  cbn. repeat split; try done. by exists sl.
Qed.

End ChainOutcome.

(** X6.  On fewer than 2^31 hits, in any order, [FormDiagonalAnchors_]
    returns exactly when the target of every hit is a sequence of the
    index cache; otherwise it throws the range error of [GetSeedsLine].
    The error of [MakeOverlap_] about the first and the last seed of a
    chain ("targetId ... does not match") is never thrown. *)
Theorem FormDiagonalAnchors_returns_iff_targets_known (sortedHits : list SeedHit)
    (querySeq : FastaSequenceId) (indexCache : SeedDBIndexCache)
    (chainBandwidth minNumSeeds minChainSpan : Z)
    (skipSelfHits skipSymmetricOverlaps : bool) :
  Z.of_nat (length sortedHits) < 2 ^ 31 ->
  match FormDiagonalAnchors_ sortedHits querySeq indexCache chainBandwidth minNumSeeds
          minChainSpan skipSelfHits skipSymmetricOverlaps with
  | Ok _ => Forall (target_known indexCache) sortedHits
  | Throw err =>
      err = IndexOutOfRange /\ ~ Forall (target_known indexCache) sortedHits
  end.
Proof.
  intros Hlen.
  pose proof (FormDiagonalAnchors_outcome sortedHits querySeq indexCache chainBandwidth
                minNumSeeds minChainSpan skipSelfHits skipSymmetricOverlaps Hlen) as Hout.
  destruct (FormDiagonalAnchors_ _ _ _ _ _ _ _ _); [by destruct Hout | done].
Qed.

Lemma FormDiagonalAnchors_returns_iff_targets_known_witness :
  FormDiagonalAnchors_ [mkSeedHit 0 false 0 0 0; mkSeedHit 5 false 50 0 50]
    chain_query chain_cache 100 0 0 true false = Throw IndexOutOfRange.
Proof.
  pose proof (FormDiagonalAnchors_returns_iff_targets_known
                [mkSeedHit 0 false 0 0 0; mkSeedHit 5 false 50 0 50]
                chain_query chain_cache 100 0 0 true false ltac:(by vm_compute)) as Hout.
  destruct (FormDiagonalAnchors_ _ _ _ _ _ _ _ _) as [ovls|err].
  - exfalso. apply Forall_cons_1 in Hout as [_ Hout].
    apply Forall_cons_1 in Hout as [[sl Hsl] _]. by vm_compute in Hsl.
  - by destruct Hout as [-> _].
Defined.

(** X7.  Every overlap [FormDiagonalAnchors_] returns, for any hit list,
    passed the admission test: at least [minNumSeeds] seeds, both spans
    above [minChainSpan], no self hit when [skipSelfHits], [Bid < Aid]
    when [skipSymmetricOverlaps]; and it is an unaligned anchor of the
    query: [Aid] and [Alen] are the query's, [Blen] is the length of the
    target in the cache, [EditDistance = -1], [Identity = 0], and the score
    is the number of seeds. *)
Theorem FormDiagonalAnchors_overlaps_accepted (sortedHits : list SeedHit)
    (querySeq : FastaSequenceId) (indexCache : SeedDBIndexCache)
    (chainBandwidth minNumSeeds minChainSpan : Z)
    (skipSelfHits skipSymmetricOverlaps : bool) (overlaps : list Overlap)
    (ovl : Overlap) :
  FormDiagonalAnchors_ sortedHits querySeq indexCache chainBandwidth minNumSeeds
    minChainSpan skipSelfHits skipSymmetricOverlaps = Ok overlaps ->
  ovl ∈ overlaps ->
  (minNumSeeds <= NumSeeds ovl /\ minChainSpan < ASpan ovl /\ minChainSpan < BSpan ovl /\
   (skipSelfHits = true -> Bid ovl <> Aid ovl) /\
   (skipSymmetricOverlaps = true -> Bid ovl < Aid ovl)) /\
  Aid ovl = Id querySeq /\ Arev ovl = false /\ Alen ovl = size32 (Bases querySeq) /\
  EditDistance ovl = -1 /\ Identity ovl = Float.of_Z 0 /\
  Score ovl = Float.of_Z (NumSeeds ovl) /\
  exists sl, GetSeedsLine indexCache (Bid ovl) = Ok sl /\ Blen ovl = sl_numBases sl.
Proof.
  intros Hrun Hovl.
  apply FormDiagonalAnchors_accepted in Hrun. rewrite Forall_forall in Hrun.
  destruct (Hrun _ Hovl) as (Hok & b & e & mn & mx & Hmk).
  split; [by eapply accept_overlap_tests | by eapply MakeOverlap_constants].
Qed.

Lemma FormDiagonalAnchors_overlaps_accepted_witness :
  exists ovl,
    FormDiagonalAnchors_ chain_hits chain_query chain_cache 100 2 10 true false = Ok [ovl] /\
    2 <= NumSeeds ovl /\ 10 < ASpan ovl /\ Bid ovl <> Aid ovl /\ Aid ovl = Id chain_query.
Proof.
  assert (exists ovl, FormDiagonalAnchors_ chain_hits chain_query chain_cache
                        100 2 10 true false = Ok [ovl]) as [ovl Hrun]
    by (eexists; by vm_compute).
  exists ovl. split; [exact Hrun|].
  destruct (FormDiagonalAnchors_overlaps_accepted chain_hits chain_query chain_cache
              100 2 10 true false [ovl] ovl Hrun
              ltac:(by apply list_elem_of_here))
    as ((Hn & Ha & _ & Hself & _) & Haid & _).
  split; [exact Hn|]. split; [exact Ha|]. split; [by apply Hself | exact Haid].
Defined.

(** ** Batch alignment *)

(** The fields alignment leaves alone. *)
Definition same_ids (a b : Overlap) : Prop :=
  Aid b = Aid a /\ Bid b = Bid a /\ Arev b = Arev a /\ Brev b = Brev a /\
  Alen b = Alen a /\ Blen b = Blen a /\ NumSeeds b = NumSeeds a.

Section AlignBatch.
Context `{Collaborators}.

Lemma AlignOverlap_forward_ids targetSeq querySeq ovl alignBandwidth alignMaxDiff fwd :
  AlignOverlap_forward targetSeq querySeq ovl alignBandwidth alignMaxDiff = Ok fwd ->
  same_ids ovl fwd.1.
Proof.
  unfold AlignOverlap_forward. cbv zeta.
  repeat match goal with
  | |- context [mbind _ ?m] =>
      let x := fresh "x" in destruct m as [x|] eqn:?; [cbn [mbind Result_bind] | done]
  end.
  intros Hret%Ok_inj. subst fwd. by cbn.
Qed.

Lemma AlignOverlap_reverse_ids targetSeq reverseQuerySeq ovl fwd diffsRight
    alignBandwidth alignMaxDiff ret :
  AlignOverlap_reverse targetSeq reverseQuerySeq ovl fwd diffsRight
    alignBandwidth alignMaxDiff = Ok ret ->
  same_ids fwd ret.
Proof.
  unfold AlignOverlap_reverse. cbv zeta.
  repeat match goal with
  | |- context [mbind _ ?m] =>
      let x := fresh "x" in destruct m as [x|] eqn:?; [cbn [mbind Result_bind] | done]
  end.
  intros Hret%Ok_inj. subst ret. by cbn.
Qed.

Lemma same_ids_trans (a b c : Overlap) : same_ids a b -> same_ids b c -> same_ids a c.
Proof. unfold same_ids. intuition congruence. Qed.

(** [AlignOverlap_] on a pointer that is not null. *)
Lemma AlignOverlap_not_null targetSeq querySeq reverseQuerySeq ovl
    alignBandwidth alignMaxDiff :
  AlignOverlap_ targetSeq querySeq reverseQuerySeq (Some ovl) alignBandwidth alignMaxDiff
  = (ret ← AlignOverlap_passes targetSeq querySeq reverseQuerySeq ovl
             alignBandwidth alignMaxDiff;
     mret (Some ret)).
Proof.
  unfold AlignOverlap_, AlignOverlap_passes.
  by destruct (AlignOverlap_forward _ _ _ _ _) as [fwd|].
Qed.

Lemma AlignOverlap_passes_ids targetSeq querySeq reverseQuerySeq ovl
    alignBandwidth alignMaxDiff ret :
  AlignOverlap_passes targetSeq querySeq reverseQuerySeq ovl alignBandwidth alignMaxDiff
  = Ok ret ->
  same_ids ovl ret.
Proof.
  unfold AlignOverlap_passes.
  destruct (AlignOverlap_forward _ _ _ _ _) as [fwd|] eqn:Hfwd;
    cbn [mbind Result_bind]; [|done].
  intros Hrev. eapply same_ids_trans.
  - by eapply AlignOverlap_forward_ids.
  - by eapply AlignOverlap_reverse_ids.
Qed.

(** One aligned overlap of the batch and the overlap it comes from. *)
Definition aligned_from (targetSeqs : SeqDBReaderCached) (querySeq : FastaSequenceId)
    (alignBandwidth alignMaxDiff : double) (ovl ret : Overlap) : Prop :=
  exists targetSeq,
    targetSeqs (Bid ovl) = Ok targetSeq /\
    AlignOverlap_ targetSeq querySeq
      (ReverseComplement (Bases querySeq) 0 (Z.of_nat (length (Bases querySeq))))
      (Some ovl) alignBandwidth alignMaxDiff = Ok (Some ret).

Lemma AlignOverlaps_loop_spec targetSeqs querySeq alignBandwidth alignMaxDiff :
  forall overlaps ret0 ret,
    AlignOverlaps_loop targetSeqs querySeq
      (ReverseComplement (Bases querySeq) 0 (Z.of_nat (length (Bases querySeq))))
      overlaps alignBandwidth alignMaxDiff ret0 = Ok ret ->
    exists new, ret = ret0 ++ new /\
      Forall2 (fun ovl r =>
                 aligned_from targetSeqs querySeq alignBandwidth alignMaxDiff ovl r /\
                 same_ids ovl r) overlaps new.
Proof.
  induction overlaps as [|ovl overlaps IH]; intros ret0 ret; cbn [AlignOverlaps_loop].
  - intros [= <-]. exists []. by rewrite app_nil_r.
  - destruct (targetSeqs (Bid ovl)) as [targetSeq|] eqn:Htarget;
      cbn [mbind Result_bind]; [|done].
    destruct (AlignOverlap_passes _ _ _ _ _ _) as [newOverlap|] eqn:Hnew;
      cbn [mbind Result_bind]; [|done].
    intros Hrest. apply IH in Hrest as (new & -> & Hall).
    exists (newOverlap :: new). split; [by rewrite <- app_assoc|].
    constructor; [|done]. split; [|by eapply AlignOverlap_passes_ids].
    exists targetSeq. split; [done|]. by rewrite AlignOverlap_not_null, Hnew.
Qed.

(** X8.  When [AlignOverlaps_] returns, its result has one overlap per
    input overlap, in the same order: the alignment of that overlap
    against the sequence [targetSeqs] holds for its [Bid], with the same
    [Aid], [Bid], strands, lengths and number of seeds.  (So it returns
    only if every [Bid] is a sequence of [targetSeqs].) *)
Theorem AlignOverlaps_aligns_each_in_order (targetSeqs : SeqDBReaderCached)
    (querySeq : FastaSequenceId) (overlaps ret : list Overlap)
    (alignBandwidth alignMaxDiff : double) :
  AlignOverlaps_ targetSeqs querySeq overlaps alignBandwidth alignMaxDiff = Ok ret ->
  Forall2 (fun ovl r =>
             aligned_from targetSeqs querySeq alignBandwidth alignMaxDiff ovl r /\
             same_ids ovl r) overlaps ret.
Proof.
  unfold AlignOverlaps_. cbv zeta. intros Hrun.
  apply AlignOverlaps_loop_spec in Hrun as (new & -> & Hall). done.
Qed.

End AlignBatch.

(** ** The pipeline *)

Lemma StronglySorted_Bid_Forall2 (l k : list Overlap) :
  Forall2 (fun a b => Bid b = Bid a) l k ->
  StronglySorted (fun a b => Bid a < Bid b) l ->
  StronglySorted (fun a b => Bid a < Bid b) k.
Proof.
  induction 1 as [|a b l k Hab Hlk IH]; [done|].
  intros [Hl Ha]%StronglySorted_inv. constructor; [by apply IH|].
  clear IH Hl. induction Hlk as [|a' b' l k Hab' _ IH]; [done|].
  apply Forall_cons_1 in Ha as [Ha' Ha]. constructor; [lia | by apply IH].
Qed.

Lemma StronglySorted_filter_keep {A} (R : relation A) (P : A -> Prop)
    `{!forall x, Decision (P x)} (l : list A) :
  StronglySorted R l -> StronglySorted R (filter P l).
Proof.
  induction 1 as [|x l _ IH Hx]; [constructor|].
  destruct (decide (P x)).
  - rewrite filter_cons_True by done. constructor; [done|].
    rewrite Forall_forall in *. intros y [_ Hy]%list_elem_of_filter. by apply Hx.
  - by rewrite filter_cons_False.
Qed.

(** What the last stage lets through. *)
Lemma FilterOverlaps_passed (overlaps : list Overlap) (minNumSeeds : Z)
    (minIdentity : float) (minMappedSpan minQueryLen minTargetLen : Z) (r : Overlap) :
  r ∈ FilterOverlaps_ overlaps minNumSeeds minIdentity minMappedSpan minQueryLen
        minTargetLen <->
  r ∈ overlaps /\ float_ltb (Identity r) minIdentity = false /\
  minMappedSpan <= ASpan r /\ minMappedSpan <= BSpan r /\ minNumSeeds <= NumSeeds r /\
  minQueryLen <= Alen r /\ minTargetLen <= Blen r.
Proof.
  unfold FilterOverlaps_. rewrite list_elem_of_filter, negb_true_iff, !orb_false_iff.
  rewrite !Z.ltb_ge. tauto.
Qed.

Section Pipeline.
Context `{SeedCodec} `{Collaborators} `{StdSort}.

(** X9.  Every overlap [Mapper::Map] returns belongs to the query
    ([Aid], [Alen]), is not a self hit, has [Bid < Aid] when symmetric
    overlaps are skipped, has at least [MinNumSeeds] seeds, and meets the
    thresholds of the last filter on identity, both spans and both
    lengths; with [OneHitPerTarget] the overlaps come with strictly
    increasing [Bid], so at most one per target.  A query shorter than
    [MinQueryLen] gets no overlap. *)
Theorem Map_result_passes_all_filters (settings_ : OverlapHifiSettings)
    (targetSeqs : SeqDBReaderCached) (index : SeedIndex) (querySeq : FastaSequenceId)
    (querySeeds : list SeedRaw) (freqCutoff : Z) (res : list Overlap) :
  Map settings_ targetSeqs index querySeq querySeeds freqCutoff = Ok res ->
  Forall (fun r =>
            Aid r = Id querySeq /\ Alen r = size32 (Bases querySeq) /\
            Bid r <> Aid r /\
            (SkipSymmetricOverlaps settings_ = true -> Bid r < Aid r) /\
            MinNumSeeds settings_ <= NumSeeds r /\
            float_ltb (Identity r) (MinIdentity settings_) = false /\
            MinMappedLength settings_ <= ASpan r /\ MinMappedLength settings_ <= BSpan r /\
            MinQueryLen settings_ <= Alen r /\ MinTargetLen settings_ <= Blen r) res /\
  (OneHitPerTarget settings_ = true -> StronglySorted (fun a b => Bid a < Bid b) res) /\
  (Z.of_nat (length (Bases querySeq)) < MinQueryLen settings_ -> res = []).
Proof.
  unfold Map.
  destruct (Z.ltb_spec (Z.of_nat (length (Bases querySeq))) (MinQueryLen settings_))
    as [Hshort|Hlong].
  { intros [= <-]. split; [constructor|]. split; [constructor | done]. }
  destruct (CollectHits index querySeeds freqCutoff) as [collected|];
    cbn [mbind Result_bind]; [|done].
  destruct (FormDiagonalAnchors_ _ _ _ _ _ _ _ _) as [anchors|] eqn:Hchain;
    cbn [mbind Result_bind]; [|done].
  apply FormDiagonalAnchors_accepted in Hchain.
  set (kept := if OneHitPerTarget settings_ then FilterTandemOverlaps_ anchors
               else anchors).
  destruct (AlignOverlaps_ targetSeqs querySeq kept _ _) as [aligned|] eqn:Halign;
    cbn [mbind Result_bind mret Result_ret]; [|done].
  intros [= <-].
  pose proof (AlignOverlaps_loop_spec _ _ _ _ _ _ _ Halign) as (new & Hnew & Hall).
  cbn [app] in Hnew. subst new.
  assert (forall a, a ∈ kept -> a ∈ anchors) as Hkept.
  { unfold kept. destruct (OneHitPerTarget settings_); [|done].
    apply (FilterTandemOverlaps_from_input anchors). }
  split; [|split; [|lia]].
  - apply Forall_forall. intros r Hr.
    apply FilterOverlaps_passed in Hr as (Hr & Hid & Hsa & Hsb & Hn & Hql & Htl).
    destruct (Forall2_elem_r _ _ _ _ Hall Hr) as (a & Ha & _ & Hids).
    destruct Hids as (Haid & Hbid & _ & _ & Halen & _ & Hseeds).
    rewrite Forall_forall in Hchain.
    destruct (Hchain a (Hkept a Ha)) as (Hok & b & e & mn & mx & Hmk).
    apply accept_overlap_tests in Hok as (_ & _ & _ & Hself & Hsym).
    apply MakeOverlap_constants in Hmk as (Ha1 & _ & Ha2 & _).
    repeat split; try done; try congruence.
    + rewrite Hbid, Haid. by apply Hself.
    + intros Hs. rewrite Hbid, Haid. by apply Hsym.
  - intros Hone. unfold FilterOverlaps_. apply StronglySorted_filter_keep.
    eapply (StronglySorted_Bid_Forall2 kept).
    + eapply Forall2_impl; [exact Hall|]. by intros a r (_ & _ & Hbid & _).
    + unfold kept. rewrite Hone.
      apply (FilterTandemOverlaps_sorted_by_Bid anchors).
Qed.

End Pipeline.

(** *** A sample run *)

Lemma merge_sort_tandem_sorted (overlaps : list Overlap) :
  is_sorted_tandem overlaps (merge_sort tandem_le overlaps).
Proof.
  split; [apply merge_sort_Permutation | apply StronglySorted_merge_sort; apply _].
Qed.

(** Merge sort for both sorts. *)
Definition MergeStdSort : StdSort := {|
  std_sort_hits := sort_hits;
  std_sort_overlaps := merge_sort tandem_le;
  std_sort_hits_sorted := sort_hits_is_sorted;
  std_sort_overlaps_sorted := merge_sort_tandem_sorted
|}.

(** A target and a query with the same ten bases, two seeds each. *)
Definition map_target : FastaSequenceId := mkFastaSequenceId 0 (lit "t") (lit "ACGTACGTAC").
Definition map_query : FastaSequenceId := mkFastaSequenceId 1 (lit "q") (lit "ACGTACGTAC").

Definition map_targets : SeqDBReaderCached :=
  fun seqId => if seqId =? 0 then Ok map_target else Throw IndexOutOfRange.

Definition map_cache : SeedDBIndexCache :=
  mkCache [] [] [] (lit "0.1.0") (mkParams 3 1 false 10 true) []
    [mkSeedsLine 0 (lit "t") 0 0 0 10 2] [].

Definition map_index : SeedIndex :=
  @SeedIndex_new PackedSeedCodec map_cache [Encode 7 0 0 false; Encode 9 0 5 false].

Definition map_query_seeds : list SeedRaw := [Encode 7 1 0 false; Encode 9 1 5 false].

Definition map_settings : OverlapHifiSettings :=
  mkSettings 5 100 2 2 false true (Double.of_Z 1) (Double.of_Z 1) (Float.of_Z 90) 5 5.

Definition map_anchor : Overlap :=
  mkOverlap 1 0 (Float.of_Z 2) (Float.of_Z 0) false 0 5 10 false 0 5 10 (-1) 2.

Definition map_overlap : Overlap :=
  mkOverlap 1 0 (Float.of_Z (-10)) (Float.of_Z 100) false 0 10 10 false 0 10 10 0 2.

Lemma AlignOverlaps_aligns_each_in_order_witness :
  @AlignOverlaps_ SampleCollaborators map_targets map_query [map_anchor]
    (Double.of_Z 1) (Double.of_Z 1) = Ok [map_overlap] /\
  same_ids map_anchor map_overlap.
Proof.
  assert (@AlignOverlaps_ SampleCollaborators map_targets map_query [map_anchor]
            (Double.of_Z 1) (Double.of_Z 1) = Ok [map_overlap]) as Hrun
    by (by vm_compute).
  split; [exact Hrun|].
  pose proof (@AlignOverlaps_aligns_each_in_order SampleCollaborators _ _ _ _ _ _ Hrun)
    as Hall.
  apply Forall2_cons_1 in Hall as [[_ Hids] _]. exact Hids.
Defined.

Lemma Map_result_passes_all_filters_witness :
  @Map PackedSeedCodec SampleCollaborators MergeStdSort map_settings map_targets
    map_index map_query map_query_seeds 0 = Ok [map_overlap] /\
  Bid map_overlap <> Aid map_overlap /\
  float_ltb (Identity map_overlap) (MinIdentity map_settings) = false.
Proof.
  assert (@Map PackedSeedCodec SampleCollaborators MergeStdSort map_settings map_targets
            map_index map_query map_query_seeds 0 = Ok [map_overlap]) as Hrun
    by (by vm_compute).
  split; [exact Hrun|].
  destruct (@Map_result_passes_all_filters PackedSeedCodec SampleCollaborators
              MergeStdSort _ _ _ _ _ _ _ Hrun) as (Hall & _).
  apply Forall_cons_1 in Hall as [(_ & _ & Hself & _ & _ & Hid & _) _].
  split; [exact Hself | exact Hid].
Defined.

(** ** The loaders: sequence ids and errors *)

(** Every S line carries its position in the table as its [seqId]. *)
Definition seqIds_ordinal (sls : list SeedDBSeedsLine) : Prop :=
  forall (i : nat) sl, sls !! i = Some sl -> sl_seqId sl = wrap32 (Z.of_nat i).

Lemma seqIds_ordinal_snoc (sls : list SeedDBSeedsLine) (sl : SeedDBSeedsLine) :
  seqIds_ordinal sls -> sl_seqId sl = wrap32 (Z.of_nat (length sls)) ->
  seqIds_ordinal (sls ++ [sl]).
Proof.
  intros Hsls Hsl i x Hx. apply lookup_app_Some in Hx as [Hx|[Hi Hx]]; [by apply Hsls|].
  apply list_lookup_singleton_Some in Hx as [Hi0 <-].
  rewrite Hsl. do 2 f_equal. lia.
Qed.

(** The errors of [ParseSeedDBParams]. *)
Definition param_error (e : Error) : Prop :=
  match e with
  | BadParameter _ | StoiInvalidArgument | StoiOutOfRange => True
  | _ => False
  end.

(** The errors of the stream loader. *)
Definition stream_error (e : Error) : Prop :=
  match e with
  | UnknownToken _ | InvalidSeqId _ _ | EmptyIndex | BadParameter _
  | StoiInvalidArgument | StoiOutOfRange => True
  | _ => False
  end.

(** The errors of the FILE loader. *)
Definition file_error (e : Error) : Prop :=
  match e with
  | ParseError _ | UnknownToken _ | InvalidSeqId _ _ | BadParameter _
  | StoiInvalidArgument | StoiOutOfRange | LengthError => True
  | _ => False
  end.

Lemma stoi_throws (x : Str) (e : Error) : stoi x = Throw e -> param_error e.
Proof.
  unfold stoi. destruct (read_number _) as [[v rest]|]; [|by intros [= <-]].
  destruct (_ && _); [done | by intros [= <-]].
Qed.

Lemma set_param_throws ret name value e :
  set_param ret name value = Throw e -> param_error e.
Proof.
  unfold set_param.
  repeat match goal with
  | |- context [if ?b then _ else _] => destruct b
  end; try done.
  all: destruct (stoi value) as [v|e'] eqn:Hv; cbn [mbind Result_bind]; [done|].
  all: intros [= <-]; by eapply stoi_throws.
Qed.

Lemma ParseSeedDBParams_loop_throws : forall params ret e,
  ParseSeedDBParams_loop params ret = Throw e -> param_error e.
Proof.
  induction params as [|param params IH]; intros ret e; [done|].
  cbn [ParseSeedDBParams_loop]. destruct param as [|c param]; [apply IH|].
  destruct (Split (c :: param) "=") as [|name [|value [|]]];
    try (by intros [= <-]).
  destruct (set_param ret name value) as [ret'|e'] eqn:Hset; cbn [mbind Result_bind].
  - apply IH.
  - intros [= <-]. by eapply set_param_throws.
Qed.

Section LoaderFacts.
Context `{CacheHeader}.

Ltac split_pairs :=
  repeat match goal with
  | |- context [let '(_, _) := ?x in _] => destruct x
  end.

(** One record of the stream loader: the S table grows by at most one
    line, which carries its ordinal; the errors are those of the
    dispatch, of the ordinal test and of the parameters. *)
Lemma stream_record_outcome cache token line :
  match stream_record cache token line with
  | Ok st =>
      seedLines st.1 = seedLines cache \/
      exists sl, seedLines st.1 = seedLines cache ++ [sl] /\
                 sl_seqId sl = wrap32 (Z.of_nat (length (seedLines cache)))
  | Throw e => stream_error e
  end.
Proof.
  unfold stream_record. destruct line as [|c0 line]; [by left|].
  destruct (get_char (istringstream (c0 :: line)) token) as [iss t].
  destruct t as [[] [] [] [] [] [] [] []]; try done.
  all: split_pairs.
  all: try (by left).
  all: try match goal with
       | |- context [ParseSeedDBParams ?x] =>
           destruct (ParseSeedDBParams x) as [params|e] eqn:Hp;
           cbn [mbind Result_bind mret Result_ret];
           [by left | apply ParseSeedDBParams_loop_throws in Hp; by destruct e]
       end.
  match goal with
  | |- context [negb (?a =? ?b)] => destruct (Z.eqb_spec a b)
  end; cbn [negb mret Result_ret]; [|done].
  right. eexists. split; [done|]. done.
Qed.

Lemma stream_loop_outcome : forall lines cache token,
  seqIds_ordinal (seedLines cache) ->
  match stream_loop lines cache token with
  | Ok st => seqIds_ordinal (seedLines st.1)
  | Throw e => stream_error e
  end.
Proof.
  induction lines as [|line lines IH]; intros cache token Hord; [done|].
  cbn [stream_loop].
  pose proof (stream_record_outcome cache token line) as Hrec.
  destruct (stream_record cache token line) as [st1|e]; cbn [mbind Result_bind]; [|done].
  apply IH. destruct Hrec as [-> | (sl & -> & Hsl)]; [done|].
  by apply seqIds_ordinal_snoc.
Qed.

Lemma file_record_outcome cache totalNumSeqs raw :
  match file_record cache totalNumSeqs raw with
  | Ok st =>
      seedLines st.1 = seedLines cache \/
      exists sl, seedLines st.1 = seedLines cache ++ [sl] /\
                 sl_seqId sl = wrap32 (Z.of_nat (length (seedLines cache)))
  | Throw e => file_error e
  end.
Proof.
  unfold file_record. cbv zeta.
  destruct (hd NUL (c_str raw)) as [[] [] [] [] [] [] [] []]; try done.
  all: try match goal with
       | |- context [ParseSeedDBParams ?x] =>
           destruct (ParseSeedDBParams x) as [params|e] eqn:Hp;
           cbn [mbind Result_bind mret Result_ret];
           [by left | apply ParseSeedDBParams_loop_throws in Hp; by destruct e]
       end.
  all: try match goal with
       | |- context [scan_s ?x] =>
           destruct (scan_s x) as [[buff rest]|]; [by left | done]
       end.
  all: destruct (mbind _ _) as [rec|]; [|done].
  all: try (by left).
  all: try match goal with
       | |- context [negb (?a =? ?b)] =>
           destruct (Z.eqb_spec a b); cbn [negb mret Result_ret]; [|done];
           right; by exists rec
       end.
  destruct (_ <? 0); [done | by left].
Qed.

Lemma file_loop_outcome : forall lines cache totalNumSeqs,
  seqIds_ordinal (seedLines cache) ->
  match file_loop lines cache totalNumSeqs with
  | Ok c => seqIds_ordinal (seedLines c)
  | Throw e => file_error e
  end.
Proof.
  induction lines as [|line lines IH]; intros cache totalNumSeqs Hord; [done|].
  cbn [file_loop].
  pose proof (file_record_outcome cache totalNumSeqs line) as Hrec.
  destruct (file_record cache totalNumSeqs line) as [st1|e]; cbn [mbind Result_bind];
    [|done].
  apply IH. destruct Hrec as [-> | (sl & -> & Hsl)]; [done|].
  by apply seqIds_ordinal_snoc.
Qed.

Lemma seqIds_ordinal_GetSeedsLine (c : SeedDBIndexCache) (seqId : Z) sl :
  seqIds_ordinal (seedLines c) -> in_int32 seqId ->
  GetSeedsLine c seqId = Ok sl -> sl_seqId sl = seqId.
Proof.
  intros Hord Hid. unfold GetSeedsLine, checked_at.
  destruct (Z.ltb_spec seqId 0); [done|]. cbn [orb].
  destruct (_ <=? _); [done|].
  destruct (seedLines c !! Z.to_nat seqId) as [x|] eqn:Hx; [|done].
  intros [= <-]. rewrite (Hord _ _ Hx), Z2Nat.id by lia. by apply wrap32_id.
Qed.

(** X10.  In an index either loader returns, the S line that
    [GetSeedsLine] finds for a sequence id carries this id: the loaders
    accept an S record only at the position its [seqId] names. *)
Theorem loaded_index_seqId_is_position (token0 : ascii) (input filename : Str)
    (c : SeedDBIndexCache) (seqId : Z) (sl : SeedDBSeedsLine) :
  LoadSeedDBIndexCache_stream token0 input filename = Ok c \/
  LoadSeedDBIndexCache_FILE input filename = Ok c ->
  in_int32 seqId ->
  GetSeedsLine c seqId = Ok sl ->
  sl_seqId sl = seqId.
Proof.
  intros Hload Hid Hsl. eapply seqIds_ordinal_GetSeedsLine; [|done..].
  destruct Hload as [Hload|Hload].
  - unfold LoadSeedDBIndexCache_stream in Hload.
    pose proof (stream_loop_outcome (stream_lines input) (new_cache filename) token0)
      as Hloop.
    destruct (stream_loop _ _ _) as [st|]; cbn [mbind Result_bind] in Hload; [|done].
    destruct (bool_decide _); [done|]. injection Hload as <-.
    apply Hloop. by intros i x Hx.
  - unfold LoadSeedDBIndexCache_FILE in Hload.
    pose proof (file_loop_outcome (file_lines input []) (new_cache filename) 0) as Hloop.
    rewrite Hload in Hloop. apply Hloop. by intros i x Hx.
Qed.


End LoaderFacts.

Lemma loaded_index_seqId_is_position_witness :
  exists c sl,
    @LoadSeedDBIndexCache_stream SampleCacheHeader "x"%char (emit sample_index)
      (lit "x.seeddb") = Ok c /\
    GetSeedsLine c 0 = Ok sl /\ sl_seqId sl = 0.
Proof.
  eexists; eexists. split; [by vm_compute|]. split; [by vm_compute|].
  eapply (@loaded_index_seqId_is_position SampleCacheHeader "x"%char
            (emit sample_index) (lit "x.seeddb"));
    [left; by vm_compute | by vm_compute | by vm_compute].
Defined.

(** ** The FILE loader on the emitted text *)

Lemma file_lines_segment : forall (tok rest cur : Str),
  nl ∉ tok ->
  file_lines (tok ++ nl :: rest) cur = (rev cur ++ tok ++ [nl]) :: file_lines rest [].
Proof.
  induction tok as [|c tok IH]; intros rest cur Hno; cbn [app file_lines].
  - rewrite Ascii.eqb_refl. cbn [rev]. done.
  - apply not_elem_of_cons in Hno as [Hc Hno].
    destruct (Ascii.eqb_spec c nl) as [-> | _]; [done|].
    rewrite IH by done. cbn [rev]. by rewrite <- app_assoc.
Qed.

Lemma file_lines_join (ls : list Str) :
  Forall (fun l => nl ∉ l) ls ->
  file_lines (concat (map with_nl ls)) [] = map with_nl ls.
Proof.
  unfold with_nl. induction 1 as [|l ls Hl _ IH]; [done|].
  cbn [map concat]. rewrite <- app_assoc. cbn [app].
  rewrite file_lines_segment by done. cbn [rev app]. by rewrite IH.
Qed.

Lemma tab_no_digit (x : Str) : no_digit_next (tab :: x).
Proof. done. Qed.

Lemma nl_no_digit (x : Str) : no_digit_next (nl :: x).
Proof. done. Qed.

Lemma scan_lld_print (z : Z) (rest : Str) :
  in_int64 z -> no_digit_next rest ->
  scan_lld (tab :: print_Z z ++ rest) = Some (z, rest).
Proof.
  intros Hz Hrest. unfold scan_lld. cbn [skip_ws isspace tab].
  rewrite skip_ws_numchar, read_number_print_Z by done.
  unfold clamp, in_int64, INT64_MIN, INT64_MAX in *. do 2 f_equal. lia.
Qed.

Lemma scan_d_print (z : Z) (rest : Str) :
  in_int32 z -> no_digit_next rest ->
  scan_d (tab :: print_Z z ++ rest) = Some (z, rest).
Proof.
  intros Hz Hrest. unfold scan_d. rewrite scan_lld_print; [|unfold in_int32, in_int64 in *; lia|done].
  by rewrite wrap32_id.
Qed.

Lemma scan_s_token (tok rest : Str) :
  token_ok tok -> space_next rest ->
  scan_s (tab :: tok ++ rest) = Some (tok, rest).
Proof.
  intros [Hne Htok] Hrest. unfold scan_s. cbn [skip_ws isspace tab].
  destruct tok as [|c tok]; [done|].
  pose proof (Forall_inv Htok) as Hc. cbn [app].
  rewrite skip_ws_no_space by done.
  change (c :: tok ++ rest) with ((c :: tok) ++ rest). by rewrite read_token_app.
Qed.

(** No NUL character in the text fields of the tables. *)
Definition NUL_free (c : SeedDBIndexCache) : Prop :=
  (NUL ∉ version c) /\ Forall (fun fl => NUL ∉ fl_filename fl) (fileLines c) /\
  Forall (fun sl => NUL ∉ sl_header sl) (seedLines c).

(** The running total of [numSequences] stays a valid capacity. *)
Definition counts_fit (total : Z) (fls : list SeedDBFileLine) : Prop :=
  0 <= total /\ Forall (fun fl => 0 <= fl_numSequences fl) fls /\
  total + foldr (fun fl acc => fl_numSequences fl + acc) 0 fls < 2 ^ 31.

Lemma NUL_not_in_print_Z (z : Z) : NUL ∉ print_Z z.
Proof. apply print_Z_no, not_numchar_NUL. Qed.

Lemma NUL_not_in_cons (c : ascii) (x : Str) : c <> NUL -> NUL ∉ x -> NUL ∉ c :: x.
Proof. intros Hc Hx. by apply not_elem_of_cons. Qed.

Lemma NUL_not_in_app (x y : Str) : NUL ∉ x -> NUL ∉ y -> NUL ∉ x ++ y.
Proof. intros Hx Hy. rewrite elem_of_app. tauto. Qed.

Lemma NUL_not_in_check (x : Str) :
  forallb (fun c => negb (Ascii.eqb c NUL)) x = true -> NUL ∉ x.
Proof.
  intros Hx Hin. rewrite forallb_forall in Hx.
  apply list_elem_of_In, Hx in Hin. by rewrite Ascii.eqb_refl in Hin.
Qed.

Ltac no_NUL :=
  repeat first
    [ apply NUL_not_in_print_Z
    | assumption
    | apply NUL_not_in_cons; [done|]
    | apply NUL_not_in_app
    | apply not_elem_of_nil ].

Section FileRoundTrip.
Context `{CacheHeader}.

Local Opaque print_Z scan_d scan_lld scan_s.

Ltac scan_field :=
  first
    [ rewrite scan_d_print by (first [done | apply tab_no_digit | apply nl_no_digit])
    | rewrite scan_lld_print by (first [done | apply tab_no_digit | apply nl_no_digit])
    | rewrite scan_s_token by done ];
  cbn [mbind option_bind fst snd].

Lemma file_record_V cache total v :
  token_ok v -> NUL ∉ v ->
  file_record cache total (with_nl (line_V v)) = Ok (set_version cache v, total).
Proof.
  intros Hv Hnul. unfold file_record, with_nl, line_V.
  rewrite c_str_id by (cbn [app]; no_NUL). cbn [app hd tl]. by scan_field.
Qed.

Lemma file_record_P cache total p :
  wf_params p ->
  file_record cache total (with_nl (line_P p))
  = Ok (set_seedParams cache
          (mkParams (KmerSize default_seedParams) (MinimizerWindow p) (UseHPC p)
             (MaxHPCLen p) (UseRC p)), total).
Proof.
  intros (_ & Hw & Hl).
  assert (with_nl (line_P p) = "P"%char :: params_text [tab] p [nl]) as ->.
  { unfold with_nl, line_P, params_text. cbn [app].
    repeat (rewrite <- ?app_assoc; cbn [app]). done. }
  unfold file_record.
  assert (c_str ("P"%char :: params_text [tab] p [nl]) = "P"%char :: params_text [tab] p [nl])
    as ->.
  { apply c_str_id. apply NUL_not_in_cons; [done|].
    change (params_text [tab] p [nl]) with (tab :: params_text [] p [nl]).
    by apply params_text_no_NUL. }
  cbn [hd]. unfold P_offset. rewrite P_offset_loop_stays.
  change (drop (Z.to_nat 1) ("P"%char :: params_text [tab] p [nl]))
    with (params_text [tab] p [nl]).
  by rewrite ParseSeedDBParams_after_P.
Qed.

Lemma file_record_F cache total fl :
  wf_FileLine fl -> NUL ∉ fl_filename fl ->
  0 <= total + fl_numSequences fl < 2 ^ 31 ->
  file_record cache total (with_nl (line_F fl))
  = Ok (add_fileLine cache fl, total + fl_numSequences fl).
Proof.
  intros (H1 & H2 & H3 & H4) Hnul Htotal. unfold file_record, with_nl, line_F.
  rewrite c_str_id by (cbn [app]; no_NUL). cbn [app hd tl].
  repeat (rewrite <- ?app_assoc; cbn [app]).
  do 4 scan_field. cbv zeta. cbn [fl_numSequences].
  rewrite wrap32_id by (unfold in_int32; lia).
  destruct (Z.ltb_spec (total + fl_numSequences fl) 0); [lia|].
  by destruct fl.
Qed.

Lemma file_record_S cache total sl :
  wf_SeedsLine sl -> NUL ∉ sl_header sl ->
  sl_seqId sl = Z.of_nat (length (seedLines cache)) ->
  file_record cache total (with_nl (line_S sl)) = Ok (add_seedLine cache sl, total).
Proof.
  intros (H1 & H2 & H3 & H4 & H5 & H6 & H7) Hnul Hid.
  unfold file_record, with_nl, line_S.
  rewrite c_str_id by (cbn [app]; no_NUL). cbn [app hd tl].
  repeat (rewrite <- ?app_assoc; cbn [app]).
  do 7 scan_field. cbv zeta. cbn [sl_seqId].
  rewrite <- Hid, wrap32_id, Z.eqb_refl by done. cbn [negb]. by destruct sl.
Qed.

Lemma file_record_B cache total bl :
  wf_BlockLine bl ->
  file_record cache total (with_nl (line_B bl)) = Ok (add_blockLine cache bl, total).
Proof.
  intros (H1 & H2 & H3 & H4). unfold file_record, with_nl, line_B.
  rewrite c_str_id by (cbn [app]; no_NUL). cbn [app hd tl].
  repeat (rewrite <- ?app_assoc; cbn [app]).
  do 4 scan_field. by destruct bl.
Qed.

Lemma file_loop_F (fls : list SeedDBFileLine) (rest : list Str) : forall cache total,
  Forall wf_FileLine fls -> Forall (fun fl => NUL ∉ fl_filename fl) fls ->
  counts_fit total fls ->
  exists total',
    file_loop (map with_nl (map line_F fls) ++ rest) cache total
    = file_loop rest
        (with_tables cache (fileLines cache ++ fls) (seedLines cache) (blockLines cache))
        total'.
Proof.
  induction fls as [|fl fls IH]; intros cache total Hwf Hnul (Ht & Hpos & Hsum).
  - exists total. cbn. by rewrite app_nil_r, with_tables_id.
  - apply Forall_cons_1 in Hwf as [Hfl Hfls]. apply Forall_cons_1 in Hnul as [Hn Hns].
    apply Forall_cons_1 in Hpos as [Hp Hps]. cbn [foldr] in Hsum.
    assert (0 <= foldr (fun fl acc => fl_numSequences fl + acc) 0 fls) as Hrest.
    { clear -Hps. induction Hps as [|x l Hx _ IHl]; cbn [foldr]; lia. }
    cbn [map app file_loop].
    rewrite file_record_F by (first [done | lia]). cbn [mbind Result_bind fst snd].
    destruct (IH (add_fileLine cache fl) (total + fl_numSequences fl) Hfls Hns)
      as [total' ->].
    { split; [lia|]. split; [done|]. lia. }
    exists total'. unfold with_tables, add_fileLine. cbn. by rewrite <- app_assoc.
Qed.

Lemma file_loop_S (sls : list SeedDBSeedsLine) (rest : list Str) : forall cache total,
  Forall wf_SeedsLine sls -> Forall (fun sl => NUL ∉ sl_header sl) sls ->
  ordinals_from (length (seedLines cache)) sls ->
  file_loop (map with_nl (map line_S sls) ++ rest) cache total
  = file_loop rest
      (with_tables cache (fileLines cache) (seedLines cache ++ sls) (blockLines cache))
      total.
Proof.
  induction sls as [|sl sls IH]; intros cache total Hwf Hnul Hord.
  - cbn. by rewrite app_nil_r, with_tables_id.
  - apply Forall_cons_1 in Hwf as [Hsl Hsls]. apply Forall_cons_1 in Hnul as [Hn Hns].
    cbn [map app file_loop].
    rewrite file_record_S; [|done|done|].
    2: { rewrite (Hord 0%nat sl) by done. f_equal. lia. }
    cbn [mbind Result_bind fst snd]. rewrite IH; [|done|done|].
    + unfold with_tables, add_seedLine. cbn. by rewrite <- app_assoc.
    + intros i sl' Hi. rewrite (Hord (S i) sl') by done.
      unfold add_seedLine. cbn [seedLines]. rewrite length_app. cbn [length]. f_equal. lia.
Qed.

Lemma file_loop_B (bls : list SeedDBBlockLine) : forall cache total,
  Forall wf_BlockLine bls ->
  file_loop (map with_nl (map line_B bls)) cache total
  = Ok (with_tables cache (fileLines cache) (seedLines cache) (blockLines cache ++ bls)).
Proof.
  induction bls as [|bl bls IH]; intros cache total Hwf.
  - cbn. by rewrite app_nil_r, with_tables_id.
  - apply Forall_cons_1 in Hwf as [Hbl Hbls]. cbn [map file_loop].
    rewrite file_record_B by done. cbn [mbind Result_bind fst snd]. rewrite IH by done.
    unfold with_tables, add_blockLine. cbn. by rewrite <- app_assoc.
Qed.


End FileRoundTrip.


(** ** The parameter string as a sequence of assignments *)

(** The loop of [ParseSeedDBParams] over two lists of parameters, one
    after the other. *)
Lemma ParseSeedDBParams_loop_app : forall (params1 params2 : list Str) ret,
  ParseSeedDBParams_loop (params1 ++ params2) ret
  = (ret' ← ParseSeedDBParams_loop params1 ret; ParseSeedDBParams_loop params2 ret').
Proof.
  induction params1 as [|param params1 IH]; intros params2 ret; [done|].
  cbn [app ParseSeedDBParams_loop]. destruct param as [|c param]; [apply IH|].
  destruct (Split (c :: param) "="%char) as [|name [|value [|]]]; try done.
  destruct (set_param ret name value) as [ret'|]; cbn [mbind Result_bind]; [apply IH | done].
Qed.

(** Reading on after a comma is reading the part before it, then the part
    after it: the token the comma closes is the last token of the part
    before it, or an empty one, which the loop skips. *)
Lemma ParseSeedDBParams_loop_comma : forall (s1 s2 cur : Str) (pending : bool) ret,
  (pending = false -> cur = []) ->
  ParseSeedDBParams_loop (getline_all ","%char (s1 ++ ","%char :: s2) cur pending) ret
  = (ret' ← ParseSeedDBParams_loop (getline_all ","%char s1 cur pending) ret;
     ParseSeedDBParams_loop (Split s2 ","%char) ret').
Proof.
  induction s1 as [|c s1 IH]; intros s2 cur pending ret Hcur.
  - cbn [app getline_all]. rewrite Ascii.eqb_refl.
    change (rev cur :: getline_all ","%char s2 [] false) with ([rev cur] ++ Split s2 ","%char).
    rewrite ParseSeedDBParams_loop_app. destruct pending; [done|].
    rewrite Hcur by done. done.
  - cbn [app getline_all]. destruct (Ascii.eqb c ","%char); [|by apply IH].
    change (rev cur :: ?l) with ([rev cur] ++ l).
    rewrite !ParseSeedDBParams_loop_app.
    destruct (ParseSeedDBParams_loop [rev cur] ret) as [ret1|]; cbn [mbind Result_bind];
      [|done].
    by apply IH.
Qed.

Lemma Split_single (delim : ascii) (x : Str) :
  delim ∉ x -> x <> [] -> Split x delim = [x].
Proof. intros Hno Hne. unfold Split. by rewrite getline_all_last. Qed.

(** The names [ParseSeedDBParams] knows. *)
Definition known_param (name : Str) : Prop :=
  name ∈ [lit "k"; lit "w"; lit "hpc"; lit "hpc_len"; lit "rc"].

Lemma set_param_unknown ret name value :
  ~ known_param name -> set_param ret name value = Ok ret.
Proof.
  unfold known_param. intros Hname.
  do 5 (apply not_elem_of_cons in Hname as [? Hname]).
  unfold set_param, str_eqb. by rewrite !bool_decide_eq_false_2 by done.
Qed.

Section ParamsAlgebra.
Context `{CacheHeader}.

(** X13.  [ParseSeedDBParams] reads the comma-separated pieces from left
    to right, each on top of the result so far: the parse of [s1,s2] is
    the parse of [s1] continued with the pieces of [s2].  A piece
    [name=value] is one assignment; when the name is none of k, w, hpc,
    hpc_len, rc it changes nothing and is no error, whatever the value.  A
    piece without [=] makes the parse throw. *)
Theorem ParseSeedDBParams_reads_left_to_right (s1 s2 : Str) :
  ParseSeedDBParams (s1 ++ ","%char :: s2)
  = (ret ← ParseSeedDBParams s1; ParseSeedDBParams_loop (Split s2 ","%char) ret) /\
  (forall ret name value,
     ","%char ∉ name -> "="%char ∉ name -> ","%char ∉ value -> "="%char ∉ value -> value <> [] ->
     ParseSeedDBParams_loop (Split (name ++ "="%char :: value) ","%char) ret
     = set_param ret name value /\
     (~ known_param name -> set_param ret name value = Ok ret)) /\
  (forall ret piece,
     ","%char ∉ piece -> "="%char ∉ piece -> piece <> [] ->
     ParseSeedDBParams_loop (Split piece ","%char) ret = Throw (BadParameter piece)).
Proof.
  split; [|split].
  - unfold ParseSeedDBParams, Split. by apply ParseSeedDBParams_loop_comma.
  - intros ret name value Hn1 Hn2 Hv1 Hv2 Hne. split; [|apply set_param_unknown].
    rewrite Split_single.
    + cbn [ParseSeedDBParams_loop].
      destruct (name ++ "="%char :: value) as [|c x] eqn:Hx; [by destruct name|].
      rewrite <- Hx, Split_name_value by done.
      by destruct (set_param ret name value).
    + rewrite elem_of_app, elem_of_cons. intros [?|[?|?]]; done.
    + by destruct name.
  - intros ret piece Hc He Hne. rewrite Split_single by done.
    cbn [ParseSeedDBParams_loop]. destruct piece as [|c x]; [done|].
    by rewrite Split_single.
Qed.

End ParamsAlgebra.

Example ParseSeedDBParams_later_wins :
  @ParseSeedDBParams SampleCacheHeader (lit "k=19,kmer=abc,k=21,w=5")
  = Ok (mkParams 21 5 false 10 true).
Proof. by vm_compute. Qed.

(** ** The header lookup *)

(** [i] is the last position of the header [h] in the table. *)
Definition last_with_header (sls : list SeedDBSeedsLine) (h : Str) (i : nat) : Prop :=
  (exists sl, sls !! i = Some sl /\ sl_header sl = h) /\
  forall (j : nat) sl, (i < j)%nat -> sls !! j = Some sl -> sl_header sl <> h.

Lemma HeaderLookup_loop_lookup : forall (sls : list SeedDBSeedsLine) (i numRecords : Z)
    (m : HeaderLookupType) (h : Str) (v : Z),
  i + Z.of_nat (length sls) <= numRecords ->
  HeaderLookup_loop sls i numRecords m !! h = Some v <->
  (exists j : nat, v = i + Z.of_nat j /\ last_with_header sls h j) \/
  (m !! h = Some v /\ forall sl, sl ∈ sls -> sl_header sl <> h).
Proof.
  induction sls as [|sl sls IH]; intros i numRecords m h v Hlen.
  - cbn [HeaderLookup_loop]. split.
    + intros Hm. right. split; [done|]. by intros sl ?%elem_of_nil.
    + intros [(j & _ & (sl & Hsl & _) & _) | [Hm _]]; done.
  - cbn [HeaderLookup_loop length] in *.
    destruct (Z.ltb_spec i numRecords); [|lia].
    rewrite IH by lia. split.
    + intros [(j & -> & (sl' & Hj & Hh) & Hlast) | [Hm Hnone]].
      * left. exists (S j). split; [lia|]. split; [by exists sl'|].
        intros [|j'] sl'' Hlt Hj'; [lia|]. apply (Hlast j' sl''); [lia | done].
      * destruct (decide (sl_header sl = h)) as [Heq|Hne].
        -- rewrite Heq, lookup_insert_eq in Hm. injection Hm as <-.
           left. exists 0%nat. split; [lia|]. split; [by exists sl|].
           intros [|j'] sl'' Hlt Hj'; [lia|]. apply Hnone.
           by eapply list_elem_of_lookup_2.
        -- rewrite lookup_insert_ne in Hm by done. right. split; [done|].
           intros sl' [->|Hin]%elem_of_cons; [done | by apply Hnone].
    + intros [(j & -> & (sl' & Hj & Hh) & Hlast) | [Hm Hnone]].
      * destruct j as [|j].
        -- right. cbn in Hj. injection Hj as ->. split.
           ++ rewrite Hh, lookup_insert_eq. f_equal. lia.
           ++ intros sl'' [j' Hj']%list_elem_of_lookup.
              apply (Hlast (S j') sl''); [lia | done].
        -- left. exists j. split; [lia|]. split; [by exists sl'|].
           intros j' sl'' Hlt Hj'. apply (Hlast (S j') sl''); [lia | done].
      * right. split.
        -- rewrite lookup_insert_ne; [done|]. apply Hnone. by left.
        -- intros sl' Hin. apply Hnone. by right.
Qed.

(** X14.  For a cache of fewer than 2^31 sequences,
    [ComputeSeedDBIndexHeaderLookup] maps a header to the position of the
    last S line that carries it, and holds no other entry; so when the
    headers are pairwise different, every S line is found under its
    header at its own position. *)
Theorem header_lookup_finds_last_position (dbCache : SeedDBIndexCache) :
  Z.of_nat (length (seedLines dbCache)) < 2 ^ 31 ->
  (forall h v,
     ComputeSeedDBIndexHeaderLookup dbCache !! h = Some v <->
     exists i : nat, v = Z.of_nat i /\ last_with_header (seedLines dbCache) h i) /\
  (NoDup (sl_header <$> seedLines dbCache) ->
   forall (i : nat) sl, seedLines dbCache !! i = Some sl ->
     ComputeSeedDBIndexHeaderLookup dbCache !! sl_header sl = Some (Z.of_nat i)).
Proof.
  intros Hlen.
  assert (forall h v,
     ComputeSeedDBIndexHeaderLookup dbCache !! h = Some v <->
     exists i : nat, v = Z.of_nat i /\ last_with_header (seedLines dbCache) h i) as Hlookup.
  { intros h v. unfold ComputeSeedDBIndexHeaderLookup. cbv zeta.
    rewrite wrap32_id by (unfold in_int32; lia).
    rewrite HeaderLookup_loop_lookup by lia. split.
    - intros [(j & -> & Hj) | [Hm _]]; [|done]. exists j. split; [lia | done].
    - intros (i & -> & Hi). left. exists i. split; [lia | done]. }
  split; [done|].
  intros Hnodup i sl Hi. apply Hlookup. exists i. split; [done|].
  split; [by exists sl|].
  intros j sl' Hlt Hj Heq.
  assert (i = j); [|lia].
  eapply (NoDup_lookup _ i j (sl_header sl) Hnodup).
  - by rewrite list_lookup_fmap, Hi.
  - rewrite list_lookup_fmap, Hj. cbn. by rewrite Heq.
Qed.

Lemma header_lookup_finds_last_position_witness :
  ComputeSeedDBIndexHeaderLookup sample_index !! lit "read1" = Some 1.
Proof.
  destruct (header_lookup_finds_last_position sample_index ltac:(by vm_compute))
    as [_ Hdistinct].
  assert (NoDup (sl_header <$> seedLines sample_index)) as Hnodup
    by (apply (bool_decide_unpack _); by vm_compute).
  apply (Hdistinct Hnodup 1%nat (mkSeedsLine 1 (lit "read1") 0 160 320 2000 20)).
  reflexivity.
Defined.

(** ** The fetched target subsequence *)

Section FetchContent.
Context `{Collaborators}.

(** X15.  On a target shorter than 2^31 bases, whenever
    [FetchTargetSubsequence_] returns: without reverse complement the
    result is the bases [[seqStart, seqEnd)] of the target, [seqEnd -
    seqStart] of them; with reverse complement and a range that is not
    empty it is [ReverseComplement] of the target on the range as given.
    (The replacement of [seqEnd = 0] by the length never takes effect.) *)
Theorem FetchTargetSubsequence_returns_range (targetSeq : FastaSequenceId)
    (seqStart seqEnd : Z) (revCmp : bool) (ret : Str) :
  Z.of_nat (length (Bases targetSeq)) < 2 ^ 31 ->
  FetchTargetSubsequence_ targetSeq seqStart seqEnd revCmp = Ok ret ->
  (revCmp = false ->
     ret = slice (Bases targetSeq) seqStart seqEnd /\
     Z.of_nat (length ret) = seqEnd - seqStart) /\
  (revCmp = true -> seqEnd <> seqStart ->
     ret = ReverseComplement (Bases targetSeq) seqStart seqEnd).
Proof.
  intros Hlen. unfold FetchTargetSubsequence_, size32. cbv zeta.
  rewrite wrap32_id by (unfold in_int32; lia).
  destruct (Z.eqb_spec seqEnd seqStart) as [->|Hne].
  { intros [= <-]. split; [|done]. intros _. unfold slice.
    rewrite Z.sub_diag. split; [done | simpl; lia]. }
  destruct (Z.ltb_spec seqStart 0); [done|].
  destruct (Z.ltb_spec seqEnd 0); [done|].
  destruct (Z.ltb_spec (Z.of_nat (length (Bases targetSeq))) seqStart); [done|].
  destruct (Z.ltb_spec (Z.of_nat (length (Bases targetSeq))) seqEnd); [done|].
  destruct (Z.ltb_spec seqEnd seqStart); [done|]. cbn [orb].
  destruct (Z.eqb_spec seqEnd 0); [lia|].
  destruct revCmp; intros [= <-]; (split; [|done]); [done|].
  intros _. unfold substr, slice. split; [done|].
  rewrite length_take, length_drop. lia.
Qed.

End FetchContent.

Lemma FetchTargetSubsequence_returns_range_witness :
  @FetchTargetSubsequence_ SampleCollaborators map_target 2 6 false = Ok (lit "GTAC").
Proof.
  assert (exists ret, @FetchTargetSubsequence_ SampleCollaborators map_target 2 6 false
                      = Ok ret) as [ret Hret] by (eexists; by vm_compute).
  destruct (@FetchTargetSubsequence_returns_range SampleCollaborators map_target 2 6 false
              ret ltac:(by vm_compute) Hret) as [Hfwd _].
  destruct (Hfwd eq_refl) as [-> _]. exact Hret.
Defined.

(** ** Lines of whitespace in the stream loader *)

(** A line that is not empty and holds whitespace only. *)
Definition blank_line (line : Str) : Prop :=
  line <> [] /\ Forall (fun c => isspace c = true) line.

Lemma skip_ws_blank (line : Str) :
  Forall (fun c => isspace c = true) line -> skip_ws line = [].
Proof. induction 1 as [|c line Hc _ IH]; [done|]. cbn [skip_ws]. by rewrite Hc. Qed.

Section BlankLines.
Context `{CacheHeader}.

(** X16.  The stream loader skips empty lines only.  A line of blanks
    is handled as one more record of the type of the line before it, with
    nothing read: after V the cache stays as it is, after P the parameters
    are reset to their defaults, after F and after B a default line is
    appended, and after S a default line (seqId 0) is appended when the S
    table is empty and the invalid-seqId error is thrown otherwise (for a
    table of fewer than 2^31 lines). *)
Theorem stream_loader_blank_line_repeats_record (cache : SeedDBIndexCache) (line : Str) :
  blank_line line -> Z.of_nat (length (seedLines cache)) < 2 ^ 31 ->
  stream_record cache "V" line = Ok (set_version cache (version cache), "V"%char) /\
  stream_record cache "P" line = Ok (set_seedParams cache default_seedParams, "P"%char) /\
  stream_record cache "F" line = Ok (add_fileLine cache fl_default, "F"%char) /\
  stream_record cache "B" line = Ok (add_blockLine cache bl_default, "B"%char) /\
  stream_record cache "S" line
  = (if bool_decide (seedLines cache = [])
     then Ok (add_seedLine cache sl_default, "S"%char)
     else Throw (InvalidSeqId line (Z.of_nat (length (seedLines cache))))).
Proof.
  intros [Hne Hblank] Hsize.
  assert (forall token,
            get_char (istringstream line) token = (mkIstream [] true, token)) as Hget.
  { intros token. unfold get_char, istringstream. cbn [is_fail is_buf].
    by rewrite skip_ws_blank. }
  destruct line as [|c0 line]; [done|].
  unfold stream_record. rewrite !Hget.
  unfold get_int32, get_int64, get_int, get_string. cbn [is_fail].
  repeat split; try done.
  cbn [sl_seqId sl_default].
  case_bool_decide as Hempty.
  - by rewrite Hempty.
  - rewrite wrap32_id by (unfold in_int32; lia).
    destruct (Z.eqb_spec 0 (Z.of_nat (length (seedLines cache)))) as [Hz|_]; [|done].
    destruct (seedLines cache); [done | simpl in Hz; lia].
Qed.

End BlankLines.

Lemma stream_loader_blank_line_repeats_record_witness :
  @stream_record SampleCacheHeader sample_index "B" (lit "  ")
  = Ok (add_blockLine sample_index bl_default, "B"%char).
Proof.
  apply (@stream_loader_blank_line_repeats_record SampleCacheHeader sample_index (lit "  ")).
  - split; [done | by repeat constructor].
  - by vm_compute.
Defined.

(** The text of the sample index with a line of two blanks at its end loads
    with a second block line, the default one. *)
Example stream_loader_blank_line_adds_block :
  blockLines <$> option_of (@LoadSeedDBIndexCache_stream SampleCacheHeader "x"%char
                              (emit sample_index ++ lit "  ") (lit "x.seeddb"))
  = Some [mkBlockLine 0 0 2 480; bl_default].
Proof. by vm_compute. Qed.

(** ** The SeqDB writer: where the bytes of a sequence go *)

(** The handle of the sequence file [j]: the constructor opens the first
    sequence file, then the index file; the other sequence files follow. *)
Definition seq_handle (j : nat) : nat :=
  match j with
  | O => O
  | S _ => S j
  end.

Lemma seq_handle_inj (i j : nat) : seq_handle i = seq_handle j -> i = j.
Proof. destruct i, j; cbn; lia. Qed.

Lemma seq_handle_not_index (j : nat) : seq_handle j <> 1%nat.
Proof. destruct j; cbn; lia. Qed.

(** What has been added to the sequence file [j]: the bytes written to it
    and, for the file in use, the bytes still in the buffer. *)
Definition file_content (w : SeqDBWriterCompressed) (j : nat) : list uint8 :=
  match files_ w !! seq_handle j with
  | Some f => of_bytes f
  | None => []
  end ++ (if bool_decide (S j = length (fileLines_ w)) then seqBuffer_ w else []).

(** The total number of bytes of a run of sequences. *)
Definition total_bytes `{SeqDBHeader} (useCompression : bool) (seqs : list (Str * Str)) : Z :=
  foldr (fun hs acc => Z.of_nat (length (sequence_bytes useCompression hs.2)) + acc) 0 seqs.

(** The sizes the integer members can hold. *)
Definition bytes_fit `{SeqDBHeader} (useCompression : bool) (seqs : list (Str * Str)) : Prop :=
  Forall (fun hs => Z.of_nat (length (sequence_bytes useCompression hs.2)) < 2 ^ 31) seqs /\
  total_bytes useCompression seqs < 2 ^ 63.

Lemma total_bytes_app `{SeqDBHeader} useCompression (a b : list (Str * Str)) :
  total_bytes useCompression (a ++ b)
  = total_bytes useCompression a + total_bytes useCompression b.
Proof. unfold total_bytes. induction a as [|x a IH]; cbn [app foldr]; lia. Qed.

Lemma total_bytes_nonneg `{SeqDBHeader} useCompression (a : list (Str * Str)) :
  0 <= total_bytes useCompression a.
Proof. unfold total_bytes. induction a as [|x a IH]; cbn [foldr]; lia. Qed.

Lemma split_back_snoc {A} (v : list A) (x : A) : split_back (v ++ [x]) = Some (v, x).
Proof. unfold split_back. by rewrite last_snoc, removelast_last. Qed.

Lemma split_back_Some {A} (v fls : list A) (x : A) :
  split_back v = Some (fls, x) -> v = fls ++ [x].
Proof.
  unfold split_back. destruct (last v) as [y|] eqn:Hy; [|done]. intros [= <- <-].
  destruct v as [|a v] using rev_ind; [done|].
  rewrite last_snoc in Hy. injection Hy as <-. by rewrite removelast_last.
Qed.

Lemma split_back_nonempty {A} (v : list A) : v <> [] -> is_Some (split_back v).
Proof.
  intros Hv. destruct v as [|a v] using rev_ind; [done|]. rewrite split_back_snoc. eauto.
Qed.

Lemma slice_app_l {A} (l k : list A) (s e : Z) :
  0 <= s -> e <= Z.of_nat (length l) -> slice (l ++ k) s e = slice l s e.
Proof.
  intros Hs He. unfold slice.
  destruct (Z.le_gt_cases e s) as [Hle|Hgt].
  { by replace (Z.to_nat (e - s)) with 0%nat by lia. }
  rewrite drop_app_le by lia. rewrite take_app_le; [done|]. rewrite length_drop. lia.
Qed.

Lemma slice_app_r {A} (l k : list A) :
  slice (l ++ k) (Z.of_nat (length l)) (Z.of_nat (length l) + Z.of_nat (length k)) = k.
Proof.
  unfold slice. rewrite Nat2Z.id, drop_app_length.
  replace (Z.to_nat _) with (length k) by lia. apply firstn_all.
Qed.

Section WriterFacts.
Context `{SeqDBHeader}.

(** The file line at position [j]: its id, its name, its file, its size;
    a file that is no longer the last was full when it was left. *)
Definition file_line_ok (w : SeqDBWriterCompressed) (j : nat) (fl : SeqDBFileLine) : Prop :=
  sfl_fileId fl = wrap32 (Z.of_nat j) /\
  sfl_filename fl
  = basenamePrefix_ w ++ lit ".seqdb." ++ print_Z (Z.of_nat j) ++ lit ".seq" /\
  (exists f, files_ w !! seq_handle j = Some f /\
             of_path f = JoinPath (parentFolder_ w) (sfl_filename fl)) /\
  sfl_numBytes fl = Z.of_nat (length (file_content w j)) /\
  ((S j < length (fileLines_ w))%nat ->
   fileBlockSize_ w <= sfl_numBytes fl /\ 0 < sfl_numBytes fl).

(** The sequence line at position [i], for the [i]-th sequence added: its
    id, header and sizes, and its bytes at its offset in its file. *)
Definition seq_line_ok (w : SeqDBWriterCompressed) (i : nat) (sl : SeqDBSequenceLine)
    (hs : Str * Str) : Prop :=
  ssl_seqId sl = wrap32 (Z.of_nat i) /\ ssl_header sl = hs.1 /\
  ssl_numBases sl = wrap32 (Z.of_nat (length hs.2)) /\
  ssl_numBytes sl = Z.of_nat (length (sequence_bytes (useCompression_ w) hs.2)) /\
  exists (j : nat) fl,
    fileLines_ w !! j = Some fl /\ ssl_fileId sl = sfl_fileId fl /\
    0 <= ssl_fileOffset sl /\
    ssl_fileOffset sl + ssl_numBytes sl <= Z.of_nat (length (file_content w j)) /\
    slice (file_content w j) (ssl_fileOffset sl) (ssl_fileOffset sl + ssl_numBytes sl)
    = sequence_bytes (useCompression_ w) hs.2.

(** The invariant of a writer after the sequences [seqs] were added. *)
Record writer_inv (w : SeqDBWriterCompressed) (seqs : list (Str * Str)) : Prop := {
  wi_nonempty : fileLines_ w <> [];
  wi_files : length (files_ w) = S (length (fileLines_ w));
  wi_fp : fpOutSeqs_ w = Some (seq_handle (length (fileLines_ w) - 1));
  wi_index : fpOutIndex_ w = Some 1%nat;
  wi_file_lines : forall j fl, fileLines_ w !! j = Some fl -> file_line_ok w j fl;
  wi_seq_count : length (seqLines_ w) = length seqs;
  wi_seq_lines : forall i sl hs,
      seqLines_ w !! i = Some sl -> seqs !! i = Some hs -> seq_line_ok w i sl hs;
  wi_total : forall j,
      Z.of_nat (length (file_content w j)) <= total_bytes (useCompression_ w) seqs
}.

(** Two writers with the same settings. *)
Definition same_settings (w w' : SeqDBWriterCompressed) : Prop :=
  filenamePrefix_ w' = filenamePrefix_ w /\ parentFolder_ w' = parentFolder_ w /\
  basenamePrefix_ w' = basenamePrefix_ w /\ useCompression_ w' = useCompression_ w /\
  flushSizeBytes_ w' = flushSizeBytes_ w /\ fileBlockSize_ w' = fileBlockSize_ w.

Lemma same_settings_refl w : same_settings w w.
Proof. by repeat split. Qed.

Lemma same_settings_trans w1 w2 w3 :
  same_settings w1 w2 -> same_settings w2 w3 -> same_settings w1 w3.
Proof. unfold same_settings. intuition congruence. Qed.

(** The invariant looks at the files through their paths and through
    [file_content] only. *)
Lemma writer_inv_transfer (w w' : SeqDBWriterCompressed) (seqs : list (Str * Str)) :
  same_settings w w' ->
  fileLines_ w' = fileLines_ w -> seqLines_ w' = seqLines_ w ->
  fpOutSeqs_ w' = fpOutSeqs_ w -> fpOutIndex_ w' = fpOutIndex_ w ->
  length (files_ w') = length (files_ w) ->
  (forall j, of_path <$> files_ w' !! j = of_path <$> files_ w !! j) ->
  (forall j, file_content w' j = file_content w j) ->
  writer_inv w seqs -> writer_inv w' seqs.
Proof.
  intros (_ & Hpar & Hbase & Huse & _ & Hblock) Hfl Hsl Hfp Hix Hlen Hpath Hcontent
    [Hne Hfiles Hfpw Hixw Hlines Hcount Hseqs Htotal].
  split.
  - by rewrite Hfl.
  - by rewrite Hlen, Hfl.
  - by rewrite Hfp, Hfl.
  - by rewrite Hix.
  - intros j fl Hj. rewrite Hfl in Hj.
    destruct (Hlines j fl Hj) as (Hid & Hname & (f & Hf & Hp) & Hsize & Hfull).
    unfold file_line_ok. rewrite Hbase, Hpar, Hblock, Hcontent, Hfl.
    split; [done|]. split; [done|]. split; [|done].
    specialize (Hpath (seq_handle j)). rewrite Hf in Hpath.
    destruct (files_ w' !! seq_handle j) as [f'|]; [|done].
    exists f'. split; [done|]. cbn in Hpath. congruence.
  - by rewrite Hsl.
  - intros i sl hs Hi Hhs. rewrite Hsl in Hi.
    destruct (Hseqs i sl hs Hi Hhs) as (H1 & H2 & H3 & H4 & j & fl & H5 & H6 & H7 & H8 & H9).
    unfold seq_line_ok. rewrite Huse. repeat split; try done.
    exists j, fl. rewrite Hfl, Hcontent. done.
  - intros j. by rewrite Huse, Hcontent.
Qed.

Lemma write_to_lookup (files : list OutFile) (fp j : nat) (bytes : list uint8) :
  write_to files fp bytes !! j
  = if decide (j = fp)
    then (fun f => mkOutFile (of_path f) (of_bytes f ++ bytes)) <$> files !! fp
    else files !! j.
Proof.
  unfold write_to. destruct (files !! fp) as [f|] eqn:Hf.
  - destruct (decide (j = fp)) as [->|Hne].
    + rewrite list_lookup_insert_eq; [done|]. by eapply lookup_lt_Some.
    + by rewrite list_lookup_insert_ne.
  - destruct (decide (j = fp)) as [->|Hne]; [by rewrite Hf | done].
Qed.

Lemma write_to_length (files : list OutFile) (fp : nat) (bytes : list uint8) :
  length (write_to files fp bytes) = length files.
Proof. unfold write_to. destruct (files !! fp); [by rewrite length_insert | done]. Qed.

Lemma write_to_path (files : list OutFile) (fp j : nat) (bytes : list uint8) :
  of_path <$> write_to files fp bytes !! j = of_path <$> files !! j.
Proof.
  rewrite write_to_lookup. destruct (decide (j = fp)) as [->|]; [|done].
  by destruct (files !! fp).
Qed.

(** Flushing moves the buffer to the file in use: nothing changes for the
    index. *)
Lemma FlushSequenceBuffer_inv (w : SeqDBWriterCompressed) (seqs : list (Str * Str)) :
  writer_inv w seqs ->
  exists w', FlushSequenceBuffer w = Done w' /\ writer_inv w' seqs /\
             same_settings w w' /\ seqBuffer_ w' = [] /\
             fileLines_ w' = fileLines_ w /\ seqLines_ w' = seqLines_ w /\
             files_ w' !! 1%nat = files_ w !! 1%nat.
Proof.
  intros Hinv. pose proof Hinv as [Hne Hfiles Hfp Hix _ _ _ _].
  unfold FlushSequenceBuffer, WriteSequences. rewrite Hfp.
  cbn [mbind Outcome_bind mret Outcome_ret fst].
  eexists. split; [done|].
  set (last_j := (length (fileLines_ w) - 1)%nat).
  assert (forall j, S j = length (fileLines_ w) <-> j = last_j) as Hlast
    by (intros j; unfold last_j; destruct (fileLines_ w); [done | cbn; lia]).
  split; [|split; [by repeat split|]]; [|split; [done|]; split; [done|]; split; [done|]].
  - apply (writer_inv_transfer w);
      [by repeat split | done | done | cbn; by rewrite Hfp | done
      | cbn; apply write_to_length | intros j; cbn; apply write_to_path | | exact Hinv].
    intros j. unfold file_content.
    cbn [files_ fileLines_ seqBuffer_ ClearSequenceBuffer set_files].
    rewrite write_to_lookup.
    destruct (decide (seq_handle j = seq_handle last_j)) as [Heq|Hneq].
    + apply seq_handle_inj in Heq. subst j.
      rewrite bool_decide_eq_true_2 by (by apply Hlast).
      destruct (files_ w !! seq_handle last_j) as [f|] eqn:Hf; cbn.
      * by rewrite app_nil_r.
      * apply lookup_ge_None in Hf. rewrite Hfiles in Hf.
        assert (seq_handle last_j <= length (fileLines_ w))%nat; [|lia].
        unfold last_j. destruct (fileLines_ w) as [|? [|? ?]]; cbn; lia.
    + rewrite bool_decide_eq_false_2; [by rewrite app_nil_r|].
      intros Hj. apply Hlast in Hj. by subst j.
  - cbn. rewrite write_to_lookup.
    destruct (decide (1%nat = seq_handle last_j)) as [Heq|]; [|done].
    symmetry in Heq. by apply seq_handle_not_index in Heq.
Qed.

End WriterFacts.

Section WriterSteps.
Context `{SeqDBHeader}.

Lemma last_position (fls : list SeqDBFileLine) (back : SeqDBFileLine) (j : nat) :
  S j = length (fls ++ [back]) <-> j = length fls.
Proof. rewrite length_app. cbn. lia. Qed.

Lemma seq_handle_bound (j : nat) : (seq_handle j <= S j)%nat.
Proof. destruct j; cbn; lia. Qed.

(** Opening the next sequence file, with an empty buffer and a last file
    that is full. *)
Lemma OpenNewSequenceFile_inv (w : SeqDBWriterCompressed) (seqs : list (Str * Str))
    (fls : list SeqDBFileLine) (back : SeqDBFileLine) :
  writer_inv w seqs -> seqBuffer_ w = [] ->
  fileLines_ w = fls ++ [back] ->
  fileBlockSize_ w <= sfl_numBytes back -> 0 < sfl_numBytes back ->
  writer_inv (OpenNewSequenceFile_ w) seqs /\
  same_settings w (OpenNewSequenceFile_ w) /\
  seqBuffer_ (OpenNewSequenceFile_ w) = [] /\
  files_ (OpenNewSequenceFile_ w) !! 1%nat = files_ w !! 1%nat.
Proof.
  intros [Hne Hfiles Hfp Hix Hlines Hcount Hseqs Htotal] Hbuf Hfl Hfull Hpos.
  assert (length (fileLines_ w) = S (length fls)) as Hlen
    by (rewrite Hfl, length_app; cbn; lia).
  assert (forall j, (j < length (fileLines_ w))%nat ->
            file_content (OpenNewSequenceFile_ w) j = file_content w j) as Hold.
  { intros j Hj. unfold file_content, OpenNewSequenceFile_. cbn [files_ fileLines_ seqBuffer_ set_files].
    rewrite lookup_app_l by (pose proof (seq_handle_bound j); lia).
    rewrite Hbuf. by destruct (bool_decide _), (bool_decide _). }
  assert (file_content (OpenNewSequenceFile_ w) (length (fileLines_ w)) = []) as Hnew.
  { unfold file_content, OpenNewSequenceFile_. cbn [files_ fileLines_ seqBuffer_ set_files].
    rewrite Hbuf. rewrite Hlen. cbn [seq_handle].
    rewrite lookup_app_r by lia.
    replace (S (S (length fls)) - length (files_ w))%nat with 0%nat by lia.
    cbn. by destruct (bool_decide _). }
  split; [|split; [by repeat split|split; [done|]]].
  2: { cbn. apply lookup_app_l. lia. }
  split.
  - cbn. by destruct (fileLines_ w).
  - cbn. rewrite !length_app. cbn. lia.
  - cbn. rewrite length_app. cbn. rewrite Hfiles, Hlen. f_equal.
    replace (S (length fls) + 1 - 1)%nat with (S (length fls)) by lia. done.
  - done.
  - intros j fl Hj. cbn [fileLines_ OpenNewSequenceFile_ set_files] in Hj.
    apply lookup_app_Some in Hj as [Hj|[Hge Hj]].
    + destruct (Hlines j fl Hj) as (Hid & Hname & (f & Hf & Hp) & Hsize & Hleft).
      pose proof (lookup_lt_Some _ _ _ Hj) as Hjlt.
      unfold file_line_ok. rewrite Hold by done.
      split; [done|]. split; [done|]. split; [|split; [done|]].
      * exists f. split; [|done]. cbn. apply lookup_app_l_Some. done.
      * intros _. destruct (decide (S j = length (fileLines_ w))) as [Hjl|Hjl].
        -- assert (fl = back) as ->; [|by cbn].
           rewrite Hfl in Hj. rewrite lookup_app_r in Hj by lia.
           replace (j - length fls)%nat with 0%nat in Hj by lia. by injection Hj.
        -- cbn. apply Hleft. lia.
    + apply list_lookup_singleton_Some in Hj as [Hj0 <-].
      assert (j = length (fileLines_ w)) as -> by lia.
      unfold file_line_ok. rewrite Hnew. cbn [sfl_fileId sfl_filename sfl_numBytes].
      split; [done|]. split; [done|]. split; [|split; [done|]].
      * replace (seq_handle (length (fileLines_ w))) with (length (files_ w))
          by (by rewrite Hfiles, Hlen).
        eexists. split.
        -- cbn [files_ OpenNewSequenceFile_ set_files].
           rewrite lookup_app_r by lia. by rewrite Nat.sub_diag.
        -- done.
      * cbn [fileLines_ OpenNewSequenceFile_ set_files]. rewrite length_app. cbn. lia.
  - done.
  - intros i sl hs Hi Hhs.
    destruct (Hseqs i sl hs Hi Hhs) as (H1 & H2 & H3 & H4 & j & fl & H5 & H6 & H7 & H8 & H9).
    repeat split; try done. exists j, fl.
    pose proof (lookup_lt_Some _ _ _ H5) as Hjlt. rewrite Hold by done.
    split; [|done]. cbn. by apply lookup_app_l_Some.
  - intros j. destruct (decide (j < length (fileLines_ w))%nat) as [Hj|Hj].
    + rewrite Hold by done. apply Htotal.
    + destruct (decide (j = length (fileLines_ w))) as [->|Hne'].
      * rewrite Hnew. cbn. apply total_bytes_nonneg.
      * unfold file_content, OpenNewSequenceFile_. cbn [files_ fileLines_ seqBuffer_ set_files].
        rewrite Hbuf.
        rewrite (proj2 (lookup_ge_None _ _)).
        2: { rewrite length_app. cbn. destruct j; cbn; lia. }
        destruct (bool_decide _); cbn; apply total_bytes_nonneg.
Qed.

Lemma wrap64_id (x : Z) : in_int64 x -> wrap64 x = x.
Proof.
  unfold in_int64, wrap64, wrap. intros Hx.
  change (2 ^ (64 - 1)) with 9223372036854775808.
  change (2 ^ 64) with 18446744073709551616.
  change (2 ^ 63) with 9223372036854775808 in Hx.
  rewrite Z.mod_small; lia.
Qed.

Lemma total_bytes_snoc useCompression (seqs : list (Str * Str)) (header seq : Str) :
  total_bytes useCompression (seqs ++ [(header, seq)])
  = total_bytes useCompression seqs
    + Z.of_nat (length (sequence_bytes useCompression seq)).
Proof. rewrite total_bytes_app. unfold total_bytes at 2. cbn. lia. Qed.

(** The second half of [AddSequence]: the sequence goes to the end of the
    file in use. *)
Lemma AddSequence_to_inv (w : SeqDBWriterCompressed) (seqs : list (Str * Str))
    (fls : list SeqDBFileLine) (back : SeqDBFileLine) (header seq : Str) :
  writer_inv w seqs -> fileLines_ w = fls ++ [back] ->
  bytes_fit (useCompression_ w) (seqs ++ [(header, seq)]) ->
  exists w', AddSequence_to w fls back header seq = Done w' /\
             writer_inv w' (seqs ++ [(header, seq)]) /\ same_settings w w' /\
             files_ w' !! 1%nat = files_ w !! 1%nat.
Proof.
  intros Hinv Hfl [Hfit Htot].
  pose proof Hinv as [Hne Hfiles Hfp Hix Hlines Hcount Hseqs Htotal].
  apply Forall_app in Hfit as [_ Hfit]. apply Forall_inv in Hfit. cbn [snd] in Hfit.
  rewrite total_bytes_snoc in Htot.
  assert (length (fileLines_ w) = S (length fls)) as Hlen
    by (rewrite Hfl, length_app; cbn; lia).
  assert (fileLines_ w !! length fls = Some back) as Hback
    by (rewrite Hfl; apply list_lookup_middle; done).
  destruct (Hlines _ _ Hback) as (Hbid & Hbname & (f & Hf & Hp) & Hbsize & _).
  unfold AddSequence_to.
  set (bytes := sequence_bytes (useCompression_ w) seq) in *.
  rewrite (wrap32_id (Z.of_nat (length bytes))) by (unfold in_int32; lia).
  pose proof (Htotal (length fls)) as Hcur.
  rewrite (wrap64_id (sfl_numBytes back + _)) by (unfold in_int64; lia).
  match goal with |- context [if _ then FlushSequenceBuffer ?x else _] => set (w1 := x) end.
  assert (forall j, file_content w1 j
            = file_content w j ++ (if bool_decide (j = length fls) then bytes else []))
    as Hcontent.
  { intros j. unfold file_content, w1. cbn [files_ fileLines_ seqBuffer_ set_files].
    rewrite Hfl, !length_app. cbn [length].
    destruct (bool_decide_reflect (j = length fls)) as [->|Hj].
    - rewrite !bool_decide_eq_true_2 by lia. by rewrite app_assoc.
    - rewrite !bool_decide_eq_false_2 by lia. by rewrite !app_nil_r. }
  assert (writer_inv w1 (seqs ++ [(header, seq)])) as Hinv1.
  { split.
    - unfold w1. cbn. by destruct fls.
    - unfold w1. cbn. rewrite Hfiles, Hlen, length_app. cbn. lia.
    - unfold w1. cbn. rewrite Hfp, Hlen, length_app. cbn. f_equal. f_equal. lia.
    - done.
    - intros j fl Hj. unfold w1 in Hj. cbn [fileLines_ set_files] in Hj.
      apply lookup_app_Some in Hj as [Hj|[Hge Hj]].
      + pose proof (lookup_lt_Some _ _ _ Hj) as Hjlt.
        destruct (Hlines j fl) as (Hid & Hname & Hfile & Hsize & Hleft).
        { rewrite Hfl. by apply lookup_app_l_Some. }
        unfold file_line_ok. rewrite Hcontent.
        rewrite bool_decide_eq_false_2 by lia. rewrite app_nil_r.
        split; [done|]. split; [done|]. split; [done|]. split; [done|].
        unfold w1. cbn [fileLines_ set_files fileBlockSize_]. rewrite length_app. cbn [length].
        intros Hjl. apply Hleft. lia.
      + apply list_lookup_singleton_Some in Hj as [Hj0 <-].
        assert (j = length fls) as -> by lia.
        unfold file_line_ok. rewrite Hcontent. rewrite bool_decide_eq_true_2 by done.
        cbn [sfl_fileId sfl_filename sfl_numBytes].
        split; [done|]. split; [done|]. split; [by exists f|]. split.
        * rewrite length_app. lia.
        * unfold w1. cbn [fileLines_ set_files]. rewrite length_app. cbn. lia.
    - unfold w1. cbn. rewrite !length_app. cbn. lia.
    - intros i sl hs Hi Hhs. unfold w1 in Hi. cbn [seqLines_ set_files] in Hi.
      apply lookup_app_Some in Hi as [Hi|[Hge Hi]].
      + pose proof (lookup_lt_Some _ _ _ Hi) as Hilt.
        rewrite lookup_app_l in Hhs by lia.
        destruct (Hseqs i sl hs Hi Hhs)
          as (H1 & H2 & H3 & H4 & j & fl & H5 & H6 & H7 & H8 & H9).
        split; [done|]. split; [done|]. split; [done|]. split; [done|].
        assert (exists fl', fileLines_ w1 !! j = Some fl' /\ sfl_fileId fl' = sfl_fileId fl)
          as (fl' & Hfl' & Hid').
        { unfold w1. cbn [fileLines_ set_files]. rewrite Hfl in H5.
          apply lookup_app_Some in H5 as [H5|[Hge H5]].
          - exists fl. split; [|done]. by apply lookup_app_l_Some.
          - apply list_lookup_singleton_Some in H5 as [Hj0 <-].
            eexists. split.
            + rewrite lookup_app_r by lia. by rewrite Hj0.
            + done. }
        exists j, fl'. rewrite Hcontent, Hid'.
        split; [done|]. split; [done|]. split; [done|]. split.
        * rewrite length_app. lia.
        * by rewrite slice_app_l.
      + apply list_lookup_singleton_Some in Hi as [Hi0 <-].
        assert (i = length seqs) as -> by lia.
        rewrite lookup_app_r in Hhs by lia. rewrite Nat.sub_diag in Hhs.
        injection Hhs as <-.
        cbn [ssl_seqId ssl_header ssl_numBases ssl_numBytes ssl_fileId ssl_fileOffset fst snd].
        split; [by rewrite Hcount|]. split; [done|]. split; [done|]. split; [done|].
        exists (length fls). eexists. split.
        { unfold w1. cbn [fileLines_ set_files]. apply list_lookup_middle. done. }
        cbn [ssl_fileId ssl_fileOffset ssl_numBytes sfl_fileId].
        rewrite Hcontent, bool_decide_eq_true_2 by done.
        split; [done|]. split; [lia|]. split.
        * rewrite length_app. fold bytes. lia.
        * rewrite Hbsize. fold bytes. apply slice_app_r.
    - intros j. rewrite Hcontent, total_bytes_snoc, length_app.
      pose proof (Htotal j).
      change (useCompression_ w1) with (useCompression_ w). fold bytes. destruct (bool_decide _); cbn [length]; lia. }
  assert (same_settings w w1) as Hsame by (by repeat split).
  destruct (flushSizeBytes_ w <? _).
  - destruct (FlushSequenceBuffer_inv w1 _ Hinv1)
      as (w' & Hrun & Hinv' & Hsame' & _ & _ & _ & Hindex).
    exists w'. split; [done|]. split; [done|]. split; [|done].
    by eapply same_settings_trans.
  - exists w1. split; [done|]. split; [done|]. by split.
Qed.

Lemma bytes_fit_settings (w w' : SeqDBWriterCompressed) (seqs : list (Str * Str)) :
  same_settings w w' -> bytes_fit (useCompression_ w) seqs ->
  bytes_fit (useCompression_ w') seqs.
Proof. intros (_ & _ & _ & -> & _). done. Qed.

(** [AddSequence] on a writer that holds the sequences [seqs]. *)
Lemma AddSequence_inv (w : SeqDBWriterCompressed) (seqs : list (Str * Str))
    (header seq : Str) :
  writer_inv w seqs -> bytes_fit (useCompression_ w) (seqs ++ [(header, seq)]) ->
  exists w', AddSequence w header seq = Done w' /\
             writer_inv w' (seqs ++ [(header, seq)]) /\ same_settings w w' /\
             files_ w' !! 1%nat = files_ w !! 1%nat.
Proof.
  intros Hinv Hfit. unfold AddSequence.
  destruct (split_back_nonempty (fileLines_ w) (wi_nonempty _ _ Hinv)) as [[fls back] Hsplit].
  rewrite Hsplit. apply split_back_Some in Hsplit.
  destruct ((fileBlockSize_ w <=? sfl_numBytes back) && (0 <? sfl_numBytes back)) eqn:Hfull.
  - apply andb_true_iff in Hfull as [Hblock Hpos].
    apply Z.leb_le in Hblock. apply Z.ltb_lt in Hpos.
    destruct (FlushSequenceBuffer_inv w seqs Hinv)
      as (w1 & -> & Hinv1 & Hsame1 & Hbuf1 & Hfl1 & _ & Hix1).
    cbn [mbind Outcome_bind].
    destruct (OpenNewSequenceFile_inv w1 seqs fls back) as (Hinv2 & Hsame2 & _ & Hix2);
      [done | done | congruence | | done |].
    { destruct Hsame1 as (_ & _ & _ & _ & _ & ->). done. }
    set (w2 := OpenNewSequenceFile_ w1) in *.
    destruct (split_back_nonempty (fileLines_ w2) (wi_nonempty _ _ Hinv2))
      as [[fls2 back2] Hsplit2].
    rewrite Hsplit2. apply split_back_Some in Hsplit2.
    assert (same_settings w w2) as Hsame by (by eapply same_settings_trans).
    destruct (AddSequence_to_inv w2 seqs fls2 back2 header seq Hinv2 Hsplit2)
      as (w' & Hrun & Hinv' & Hsame' & Hix').
    { by apply (bytes_fit_settings w). }
    exists w'. split; [done|]. split.
    + done.
    + split; [by eapply same_settings_trans | congruence].
  - by apply AddSequence_to_inv.
Qed.

Lemma bytes_fit_prefix useCompression (a b : list (Str * Str)) :
  bytes_fit useCompression (a ++ b) -> bytes_fit useCompression a.
Proof.
  intros [Hall Htot]. apply Forall_app in Hall as [Hall _]. split; [done|].
  rewrite total_bytes_app in Htot. pose proof (total_bytes_nonneg useCompression b). lia.
Qed.

(** A run of [AddSequence] on a writer that holds the sequences [before]. *)
Lemma AddSequences_inv (todo : list (Str * Str)) :
  forall (w : SeqDBWriterCompressed) (before : list (Str * Str)),
    writer_inv w before -> bytes_fit (useCompression_ w) (before ++ todo) ->
    exists w', AddSequences w todo = Done w' /\
               writer_inv w' (before ++ todo) /\ same_settings w w' /\
               files_ w' !! 1%nat = files_ w !! 1%nat.
Proof.
  induction todo as [|[header seq] todo IH]; intros w before Hinv Hfit.
  - exists w. rewrite app_nil_r. split; [done|]. split; [done|].
    split; [apply same_settings_refl | done].
  - cbn [AddSequences].
    destruct (AddSequence_inv w before header seq Hinv) as (w1 & -> & Hinv1 & Hsame1 & Hix1).
    { apply (bytes_fit_prefix _ _ todo). by rewrite <- app_assoc. }
    cbn [mbind Outcome_bind].
    destruct (IH w1 (before ++ [(header, seq)]) Hinv1) as (w' & Hrun & Hinv' & Hsame' & Hix').
    { apply (bytes_fit_settings w); [done|]. by rewrite <- app_assoc. }
    exists w'. split; [done|]. rewrite <- app_assoc in Hinv'. split; [done|].
    split; [by eapply same_settings_trans | congruence].
Qed.

End WriterSteps.

(** The life of a writer: construct it, add the sequences, destroy it. *)
Definition write_seqdb `{CacheHeader} `{SeqDBHeader} (filenamePrefix : Str)
    (useCompression : bool) (flushSize fileBlockSize : Z) (seqs : list (Str * Str))
  : Outcome SeqDBWriterCompressed :=
  w0 ← SeqDBWriterCompressed_new filenamePrefix useCompression flushSize fileBlockSize;
  w ← AddSequences w0 seqs;
  SeqDBWriterCompressed_delete w.

Section WriterRun.
Context `{CacheHeader} `{SeqDBHeader}.

Lemma SeqDBWriterCompressed_new_inv (filenamePrefix : Str) (useCompression : bool)
    (flushSize fileBlockSize : Z) :
  0 <= flushSize ->
  exists w,
    SeqDBWriterCompressed_new filenamePrefix useCompression flushSize fileBlockSize = Done w /\
    writer_inv w [] /\
    parentFolder_ w = (SplitPath filenamePrefix).1 /\
    basenamePrefix_ w = (SplitPath filenamePrefix).2 /\
    useCompression_ w = useCompression /\ fileBlockSize_ w = fileBlockSize /\
    files_ w !! 1%nat = Some (mkOutFile (filenamePrefix ++ lit ".seqdb") []).
Proof.
  intros Hflush. unfold SeqDBWriterCompressed_new.
  rewrite (proj2 (Z.ltb_ge _ _)) by done.
  eexists. split; [done|]. split; [|done].
  assert (forall j, file_content
            (OpenNewIndexFile_ (OpenNewSequenceFile_
               (mkWriter filenamePrefix (SplitPath filenamePrefix).1
                  (SplitPath filenamePrefix).2 useCompression flushSize fileBlockSize
                  [] [] [] 0 0 [] None None []))) j = []) as Hcontent.
  { intros [|[|j]]; done. }
  split; try done.
  - intros j fl Hj. apply list_lookup_singleton_Some in Hj as [-> <-].
    unfold file_line_ok. rewrite Hcontent. cbn.
    split; [done|]. split; [done|]. split; [by eexists|]. split; [done|lia].
  - intros j. by rewrite Hcontent.
Qed.

Lemma SeqDBWriterCompressed_delete_inv (w : SeqDBWriterCompressed)
    (seqs : list (Str * Str)) (ixf : OutFile) :
  writer_inv w seqs -> files_ w !! 1%nat = Some ixf ->
  exists w',
    SeqDBWriterCompressed_delete w = Done w' /\ writer_inv w' seqs /\
    same_settings w w' /\ seqBuffer_ w' = [] /\
    files_ w' !! 1%nat = Some (mkOutFile (of_path ixf) (of_bytes ixf ++ index_text w')).
Proof.
  intros Hinv Hixf. unfold SeqDBWriterCompressed_delete.
  destruct (FlushSequenceBuffer_inv w seqs Hinv)
    as (w1 & -> & Hinv1 & Hsame1 & Hbuf1 & Hfl1 & Hsl1 & Hix1).
  cbn [mbind Outcome_bind]. unfold WriteIndex. rewrite (wi_index _ _ Hinv1).
  eexists. split; [done|].
  split; [|split; [done|split; [done|]]].
  - apply (writer_inv_transfer w1);
      [by repeat split | done | done | done | done
      | cbn; apply write_to_length | intros j; cbn; apply write_to_path | | exact Hinv1].
    intros j. unfold file_content. cbn [files_ fileLines_ seqBuffer_ set_files].
    rewrite write_to_lookup.
    destruct (decide (seq_handle j = 1%nat)) as [Heq|]; [|done].
    by apply seq_handle_not_index in Heq.
  - cbn [files_ set_files]. rewrite write_to_lookup, Hix1, Hixf. done.
Qed.

(** The file of a position, once the buffer is empty. *)
Lemma file_content_flushed (w : SeqDBWriterCompressed) (j : nat) (f : OutFile) :
  seqBuffer_ w = [] -> files_ w !! seq_handle j = Some f -> file_content w j = of_bytes f.
Proof.
  intros Hbuf Hf. unfold file_content. rewrite Hf, Hbuf.
  destruct (bool_decide _); by rewrite app_nil_r.
Qed.

(** Constructor, [AddSequences] and destructor in a row. *)
Lemma write_seqdb_inv (filenamePrefix : Str) (useCompression : bool)
    (flushSize fileBlockSize : Z) (seqs : list (Str * Str)) :
  0 <= flushSize -> bytes_fit useCompression seqs ->
  exists w,
    write_seqdb filenamePrefix useCompression flushSize fileBlockSize seqs = Done w /\
    writer_inv w seqs /\ seqBuffer_ w = [] /\
    parentFolder_ w = (SplitPath filenamePrefix).1 /\
    basenamePrefix_ w = (SplitPath filenamePrefix).2 /\
    useCompression_ w = useCompression /\ fileBlockSize_ w = fileBlockSize /\
    files_ w !! 1%nat = Some (mkOutFile (filenamePrefix ++ lit ".seqdb") (index_text w)).
Proof.
  intros Hflush Hfit. unfold write_seqdb.
  destruct (SeqDBWriterCompressed_new_inv filenamePrefix useCompression flushSize
              fileBlockSize Hflush) as (w0 & -> & Hinv0 & Hpar & Hbase & Huse & Hblock & Hix0).
  cbn [mbind Outcome_bind].
  destruct (AddSequences_inv seqs w0 [] Hinv0) as (w1 & -> & Hinv1 & Hsame1 & Hix1).
  { by rewrite Huse. }
  cbn [mbind Outcome_bind app] in *.
  destruct (SeqDBWriterCompressed_delete_inv w1 seqs _ Hinv1 (eq_trans Hix1 Hix0))
    as (w2 & -> & Hinv2 & Hsame2 & Hbuf2 & Hix2).
  exists w2. split; [done|]. split; [done|]. split; [done|].
  destruct Hsame1 as (_ & Hp1 & Hb1 & Hu1 & _ & Hk1).
  destruct Hsame2 as (_ & Hp2 & Hb2 & Hu2 & _ & Hk2).
  cbn [of_path of_bytes app] in Hix2.
  repeat split; congruence.
Qed.

End WriterRun.

(** What the S lines of a finished writer say about the sequences [seqs]:
    line [i] names the [i]-th sequence and a sequence file, and the bytes of
    the sequence are in that file at the offset of the line. *)
Definition sequences_located `{CacheHeader} `{SeqDBHeader} (filenamePrefix : Str)
    (useCompression : bool) (seqs : list (Str * Str)) (w : SeqDBWriterCompressed) : Prop :=
  length (seqLines_ w) = length seqs /\
  forall (i : nat) (header seq : Str),
    seqs !! i = Some (header, seq) ->
    exists sl (j : nat) f,
      seqLines_ w !! i = Some sl /\
      ssl_seqId sl = wrap32 (Z.of_nat i) /\ ssl_header sl = header /\
      ssl_numBases sl = wrap32 (Z.of_nat (length seq)) /\
      ssl_numBytes sl = Z.of_nat (length (sequence_bytes useCompression seq)) /\
      (j < length (fileLines_ w))%nat /\ ssl_fileId sl = wrap32 (Z.of_nat j) /\
      files_ w !! seq_handle j = Some f /\
      of_path f
      = JoinPath (SplitPath filenamePrefix).1
          ((SplitPath filenamePrefix).2 ++ lit ".seqdb." ++ print_Z (Z.of_nat j)
           ++ lit ".seq") /\
      0 <= ssl_fileOffset sl /\
      slice (of_bytes f) (ssl_fileOffset sl) (ssl_fileOffset sl + ssl_numBytes sl)
      = sequence_bytes useCompression seq.

(** What the F lines of a finished writer say about its files: line [j]
    has the id [j] and the name of the [j]-th sequence file, its [numBytes]
    is the size of that file, and every file but the last holds at least
    [fileBlockSize] bytes and is not empty; the index file holds the text
    of [WriteIndex], once. *)
Definition files_described `{CacheHeader} `{SeqDBHeader} (filenamePrefix : Str)
    (fileBlockSize : Z) (w : SeqDBWriterCompressed) : Prop :=
  fileLines_ w <> [] /\
  length (files_ w) = S (length (fileLines_ w)) /\
  files_ w !! 1%nat = Some (mkOutFile (filenamePrefix ++ lit ".seqdb") (index_text w)) /\
  forall (j : nat) fl,
    fileLines_ w !! j = Some fl ->
    sfl_fileId fl = wrap32 (Z.of_nat j) /\
    sfl_filename fl
    = (SplitPath filenamePrefix).2 ++ lit ".seqdb." ++ print_Z (Z.of_nat j) ++ lit ".seq" /\
    (exists f, files_ w !! seq_handle j = Some f /\
               of_path f = JoinPath (SplitPath filenamePrefix).1 (sfl_filename fl) /\
               sfl_numBytes fl = Z.of_nat (length (of_bytes f))) /\
    ((S j < length (fileLines_ w))%nat ->
     fileBlockSize <= sfl_numBytes fl /\ 0 < sfl_numBytes fl).

Section WriterTheorems.
Context `{CacheHeader} `{SeqDBHeader}.



(** X20.  Once [CloseFiles] was called, the destructor throws the error of
    [WriteSequences] about the sequence file and writes no index; an
    [AddSequence] that returns has written nothing to any file and opened
    none: its sequence stays in the buffer. *)
Theorem closed_writer_writes_nothing (w : SeqDBWriterCompressed) :
  SeqDBWriterCompressed_delete (CloseFiles w) = Fail SequenceFileNotOpen /\
  forall (header seq : Str) w',
    AddSequence (CloseFiles w) header seq = Done w' ->
    files_ w' = files_ w /\ fpOutSeqs_ w' = None /\ fpOutIndex_ w' = None /\
    seqBuffer_ w' = seqBuffer_ w ++ sequence_bytes (useCompression_ w) seq.
Proof.
  split; [done|]. intros header seq w'. unfold AddSequence.
  cbn [fileLines_ CloseFiles fileBlockSize_].
  destruct (split_back (fileLines_ w)) as [[fls back]|]; [|done].
  destruct (_ && _); [done|].
  unfold AddSequence_to. destruct (_ <? _); [done|].
  by intros [= <-].
Qed.

End WriterTheorems.

(** A stand-in for the missing headers, for runs without compression (where
    no getter of [CompressedSequence] is called). *)
Definition PlainSeqDBHeader : SeqDBHeader := {|
  JoinPath := fun folder name => folder ++ name;
  GetTwobit := fun _ => [];
  GetRanges := fun _ => [];
  GetNumUncompressedBases := fun _ => 0;
  GetNumCompressedBases := fun _ => 0;
  version_ := lit "0.1.0"
|}.

(** Three reads, a buffer of 4 bytes and blocks of 6 bytes. *)
Definition writer_reads : list (Str * Str) :=
  [(lit "read0", lit "ACGT"); (lit "read1", lit "GGCCAA"); (lit "read2", lit "TT")].

Lemma writer_reads_fit : bytes_fit (H := PlainSeqDBHeader) false writer_reads.
Proof. split; [repeat constructor; cbn; lia | by vm_compute]. Qed.



(** The run of the witnesses: two sequence files and the index. *)
Example write_seqdb_sample :
  (files_ <$> match @write_seqdb SampleCacheHeader PlainSeqDBHeader (lit "out/db") false 4 6
                      writer_reads with
              | Done w => Some w
              | Fail _ => None
              end)
  = Some [mkOutFile (lit "out/db.seqdb.0.seq") (lit "ACGTGGCCAA");
          mkOutFile (lit "out/db.seqdb")
            (lit "V" ++ [tab] ++ lit "0.1.0" ++ [nl]
             ++ lit "C" ++ [tab] ++ lit "0" ++ [nl]
             ++ lit "F" ++ [tab] ++ lit "0" ++ [tab] ++ lit "db.seqdb.0.seq" ++ [tab]
             ++ lit "2" ++ [tab] ++ lit "10" ++ [tab] ++ lit "10" ++ [nl]
             ++ lit "F" ++ [tab] ++ lit "1" ++ [tab] ++ lit "db.seqdb.1.seq" ++ [tab]
             ++ lit "1" ++ [tab] ++ lit "2" ++ [tab] ++ lit "2" ++ [nl]
             ++ lit "S" ++ [tab] ++ lit "0" ++ [tab] ++ lit "read0" ++ [tab] ++ lit "0"
             ++ [tab] ++ lit "0" ++ [tab] ++ lit "4" ++ [tab] ++ lit "4" ++ [tab]
             ++ lit "1" ++ [tab] ++ lit "0" ++ [tab] ++ lit "4" ++ [nl]
             ++ lit "S" ++ [tab] ++ lit "1" ++ [tab] ++ lit "read1" ++ [tab] ++ lit "0"
             ++ [tab] ++ lit "4" ++ [tab] ++ lit "6" ++ [tab] ++ lit "6" ++ [tab]
             ++ lit "1" ++ [tab] ++ lit "0" ++ [tab] ++ lit "6" ++ [nl]
             ++ lit "S" ++ [tab] ++ lit "2" ++ [tab] ++ lit "read2" ++ [tab] ++ lit "1"
             ++ [tab] ++ lit "0" ++ [tab] ++ lit "2" ++ [tab] ++ lit "2" ++ [tab]
             ++ lit "1" ++ [tab] ++ lit "0" ++ [tab] ++ lit "2" ++ [nl]);
          mkOutFile (lit "out/db.seqdb.1.seq") (lit "TT")].
Proof. by vm_compute. Qed.

